(** * Project Chrono: Gauss-Legendre quadrature ([core/ChQuadrature.h])
      and the numerical-differentiation link ([ChLinkNumdiff])

    A shallow embedding of [ChQuadrature::Integrate1D], [Integrate2D] and
    [Integrate3D].  The three routines are templates over the result type
    [T]; the embedding is moreover generic in the arithmetic of [double], so
    that the same code can be read over the real numbers (the exact
    statements) and over IEEE-754 binary64 (what the machine computes).
    An integrand is a function: [Evaluate] is taken to write its result
    and to do nothing else.

    Part I holds the definitions, Part II the properties. *)

From Stdlib Require Import ZArith List Bool Lia Arith Sorted.
From Stdlib Require Import Reals Lra.
From Stdlib Require Import QArith Qreals.
From Stdlib Require Import Floats.
Import ListNotations.

Close Scope Q_scope.
Close Scope R_scope.

Set Implicit Arguments.

(** ** Outcomes of a call

    [std::vector::operator[]] has no bounds check: an index outside the
    vector is undefined behaviour.  [std::vector::at] throws
    [std::out_of_range]. *)

Inductive outcome (A : Type) : Type :=
| Done (a : A)
| UndefinedBehavior
| OutOfRange.

Arguments Done {A} a.
Arguments UndefinedBehavior {A}.
Arguments OutOfRange {A}.

Definition bind {A B : Type} (c : outcome A) (k : A -> outcome B) : outcome B :=
  match c with
  | Done a => k a
  | UndefinedBehavior => UndefinedBehavior
  | OutOfRange => OutOfRange
  end.

Notation "x <- c ;; k" := (bind c (fun x => k))
  (at level 61, c at next level, right associativity).

Definition lift2 {A B C : Type} (f : A -> B -> C)
  (x : outcome A) (y : outcome B) : outcome C :=
  a <- x ;; b <- y ;; Done (f a b).

Definition is_done {A : Type} (c : outcome A) : bool :=
  match c with Done _ => true | _ => false end.

(** ** Arithmetic

    [DoubleOps D]: the operations the routines perform on [double].
    [ResultOps D T]: what the template requires of [T], namely
    [operator*=(double)] and [operator+=(T)]. *)

Class DoubleOps (D : Type) : Type := {
  d_zero : D;                 (* the literal 0 converted to double *)
  d_two : D;                  (* the literal 2 converted to double *)
  d_add : D -> D -> D;
  d_sub : D -> D -> D;
  d_mul : D -> D -> D;
  d_div : D -> D -> D
}.

Class ResultOps (D T : Type) : Type := {
  t_scale : T -> D -> T;      (* result *= d *)
  t_add : T -> T -> T         (* result += val *)
}.

(** ** Vectors *)

Definition size_t_modulus : Z := (2 ^ 64)%Z.
Definition uint_modulus : Z := (2 ^ 32)%Z.

(** [(unsigned int)order] for [order] of type [int]. *)
Definition to_unsigned (order : Z) : Z := (order mod uint_modulus)%Z.

(** [v[i]] for an [int] index, converted to [size_t]. *)
Definition vec_index {A : Type} (v : list A) (i : Z) : outcome A :=
  let i' := (i mod size_t_modulus)%Z in
  if (i' <? Z.of_nat (length v))%Z then
    match nth_error v (Z.to_nat i') with
    | Some a => Done a
    | None => UndefinedBehavior
    end
  else UndefinedBehavior.

(** [v.at(i)]. *)
Definition vec_at {A : Type} (v : list A) (i : nat) : outcome A :=
  match nth_error v i with
  | Some a => Done a
  | None => OutOfRange
  end.

(** [for (unsigned int i = i0; i < i0 + n; i++) acc = body(i, acc)];
    the vectors are taken to hold fewer than [2^32] elements, so that
    the counter does not wrap. *)
Fixpoint for_loop {A : Type} (n i : nat) (body : nat -> A -> outcome A)
  (acc : A) : outcome A :=
  match n with
  | O => Done acc
  | S n' => acc' <- body i acc ;; for_loop n' (S i) body acc'
  end.

(** ** Tables and effects *)

Record ChQuadratureTables (D : Type) : Type := {
  Weight : list (list D);
  Lroots : list (list D)
}.

(** What a call does besides computing: the dynamic path allocates a
    table with [new ChQuadratureTables(order, order)], prints it with
    [PrintTables()] and releases it with [delete]. *)
Inductive event : Type :=
| EvNew (order_from order_to : Z)
| EvPrintTables (order_from order_to : Z)
| EvDelete (order_from order_to : Z).

Section Quadrature.

Context {D T : Type} {DO : DoubleOps D} {RO : ResultOps D T}.

(** [GetStaticTables()] and the constructor [ChQuadratureTables(int, int)]
    are defined in ChQuadrature.cpp; the routines are read for any value
    of the former and any (deterministic) latter. *)
Variable GetStaticTables : ChQuadratureTables D.
Variable new_tables : Z -> Z -> ChQuadratureTables D.

(** Lines 98-114 (the same in the three routines): the choice of the
    table, the two vectors picked in it, whether the table is the static
    one, and the events so far. *)
Definition select_tables (order : Z)
  : outcome (list D * list D) * bool * list event :=
  if (to_unsigned order <=? Z.of_nat (length (Lroots GetStaticTables)))%Z then
    (lroots <- vec_index (Lroots GetStaticTables) (order - 1)%Z ;;
     weight <- vec_index (Weight GetStaticTables) (order - 1)%Z ;;
     Done (lroots, weight),
     true, [])
  else
    let mtables := new_tables order order in
    (lroots <- vec_index (Lroots mtables) 0%Z ;;
     weight <- vec_index (Weight mtables) 0%Z ;;
     Done (lroots, weight),
     false, [EvNew order order; EvPrintTables order order]).

(** The end of the three routines: [if (!static_tables) delete mtables;]
    is reached only when nothing was thrown. *)
Definition finish (order : Z) (static_tables : bool) (tr : list event)
  (r : outcome T) : outcome T * list event :=
  match r with
  | Done _ => (r, if static_tables then tr else tr ++ [EvDelete order order])
  | _ => (r, tr)
  end.

Definition body1D (lroots weight : list D) (integrand : D -> T)
  (c1 c2 : D) (i : nat) (result : T) : outcome T :=
  x <- vec_at lroots i ;;
  let val := integrand (d_add (d_mul c1 x) c2) in
  w <- vec_at weight i ;;
  let val := t_scale val w in
  Done (t_add result val).

Definition Integrate1D (result : T) (integrand : D -> T) (a b : D)
  (order : Z) : outcome T * list event :=
  let '(sel, static_tables, tr) := select_tables order in
  finish order static_tables tr
    (tabs <- sel ;;
     let '(lroots, weight) := tabs in
     let c1 := d_div (d_sub b a) d_two in
     let c2 := d_div (d_add b a) d_two in
     let result := t_scale result d_zero in
     result <- for_loop (length lroots) 0
                 (body1D lroots weight integrand c1 c2) result ;;
     Done (t_scale result c1)).

Definition body2D (lroots weight : list D) (integrand : D -> D -> T)
  (Xc1 Xc2 Yc1 Yc2 : D) (ix iy : nat) (result : T) : outcome T :=
  x <- vec_at lroots ix ;;
  y <- vec_at lroots iy ;;
  let val := integrand (d_add (d_mul Xc1 x) Xc2) (d_add (d_mul Yc1 y) Yc2) in
  wx <- vec_at weight ix ;;
  wy <- vec_at weight iy ;;
  let val := t_scale val (d_mul wx wy) in
  Done (t_add result val).

Definition Integrate2D (result : T) (integrand : D -> D -> T)
  (Xa Xb Ya Yb : D) (order : Z) : outcome T * list event :=
  let '(sel, static_tables, tr) := select_tables order in
  finish order static_tables tr
    (tabs <- sel ;;
     let '(lroots, weight) := tabs in
     let Xc1 := d_div (d_sub Xb Xa) d_two in
     let Xc2 := d_div (d_add Xb Xa) d_two in
     let Yc1 := d_div (d_sub Yb Ya) d_two in
     let Yc2 := d_div (d_add Yb Ya) d_two in
     let result := t_scale result d_zero in
     result <- for_loop (length lroots) 0
                 (fun ix => for_loop (length lroots) 0
                    (body2D lroots weight integrand Xc1 Xc2 Yc1 Yc2 ix))
                 result ;;
     Done (t_scale result (d_mul Xc1 Yc1))).

Definition body3D (lroots weight : list D) (integrand : D -> D -> D -> T)
  (Xc1 Xc2 Yc1 Yc2 Zc1 Zc2 : D) (ix iy iz : nat) (result : T) : outcome T :=
  x <- vec_at lroots ix ;;
  y <- vec_at lroots iy ;;
  z <- vec_at lroots iz ;;
  let val := integrand (d_add (d_mul Xc1 x) Xc2) (d_add (d_mul Yc1 y) Yc2)
               (d_add (d_mul Zc1 z) Zc2) in
  wx <- vec_at weight ix ;;
  wy <- vec_at weight iy ;;
  wz <- vec_at weight iz ;;
  let val := t_scale val (d_mul (d_mul wx wy) wz) in
  Done (t_add result val).

Definition Integrate3D (result : T) (integrand : D -> D -> D -> T)
  (Xa Xb Ya Yb Za Zb : D) (order : Z) : outcome T * list event :=
  let '(sel, static_tables, tr) := select_tables order in
  finish order static_tables tr
    (tabs <- sel ;;
     let '(lroots, weight) := tabs in
     let Xc1 := d_div (d_sub Xb Xa) d_two in
     let Xc2 := d_div (d_add Xb Xa) d_two in
     let Yc1 := d_div (d_sub Yb Ya) d_two in
     let Yc2 := d_div (d_add Yb Ya) d_two in
     let Zc1 := d_div (d_sub Zb Za) d_two in
     let Zc2 := d_div (d_add Zb Za) d_two in
     let result := t_scale result d_zero in
     result <- for_loop (length lroots) 0
                 (fun ix => for_loop (length lroots) 0
                    (fun iy => for_loop (length lroots) 0
                       (body3D lroots weight integrand
                          Xc1 Xc2 Yc1 Yc2 Zc1 Zc2 ix iy)))
                 result ;;
     Done (t_scale result (d_mul (d_mul Xc1 Yc1) Zc1))).

End Quadrature.

(** ** The two readings of [double] *)

#[export] Instance R_double : DoubleOps R := {
  d_zero := 0%R;
  d_two := 2%R;
  d_add := Rplus;
  d_sub := Rminus;
  d_mul := Rmult;
  d_div := Rdiv
}.

#[export] Instance R_result : ResultOps R R := {
  t_scale := Rmult;
  t_add := Rplus
}.

#[export] Instance binary64_double : DoubleOps float := {
  d_zero := 0%float;
  d_two := 2%float;
  d_add := PrimFloat.add;
  d_sub := PrimFloat.sub;
  d_mul := PrimFloat.mul;
  d_div := PrimFloat.div
}.

#[export] Instance binary64_result : ResultOps float float := {
  t_scale := PrimFloat.mul;
  t_add := PrimFloat.add
}.

(** ** The quadrature rule in the spec's words

    "The result accumulates the sum of [w_i * f(mapped point)] over the
    tensor-product grid, then scales by the product of the per-axis
    half-widths [(b-a)/2]; accumulation starts from a zeroed result." *)

Section Rule.

Context {D T : Type} {DO : DoubleOps D} {RO : ResultOps D T}.

Definition half_width (a b : D) : D := d_div (d_sub b a) d_two.
Definition midpoint (a b : D) : D := d_div (d_add b a) d_two.
Definition mapped (a b x : D) : D :=
  d_add (d_mul (half_width a b) x) (midpoint a b).

(** One more node [(x, w)] of a one-dimensional sweep: [k x w] is the
    update of the accumulator. *)
Definition sweep (k : D -> D -> T -> T) (nodes : list (D * D)) (acc : T) : T :=
  fold_left (fun acc xw => k (fst xw) (snd xw) acc) nodes acc.

Definition step1D (f : D -> T) (a b : D) (x w : D) (acc : T) : T :=
  t_add acc (t_scale (f (mapped a b x)) w).

Definition sum1D (lroots weight : list D) (result : T) (f : D -> T)
  (a b : D) : T :=
  sweep (step1D f a b) (combine lroots weight) (t_scale result d_zero).

Definition gauss_rule1D (lroots weight : list D) (result : T) (f : D -> T)
  (a b : D) : T :=
  t_scale (sum1D lroots weight result f a b) (half_width a b).

Definition step2D (f : D -> D -> T) (Xa Xb Ya Yb : D) (x wx y wy : D)
  (acc : T) : T :=
  t_add acc (t_scale (f (mapped Xa Xb x) (mapped Ya Yb y)) (d_mul wx wy)).

Definition sum2D (lroots weight : list D) (result : T) (f : D -> D -> T)
  (Xa Xb Ya Yb : D) : T :=
  sweep (fun x wx => sweep (step2D f Xa Xb Ya Yb x wx) (combine lroots weight))
    (combine lroots weight) (t_scale result d_zero).

Definition gauss_rule2D (lroots weight : list D) (result : T)
  (f : D -> D -> T) (Xa Xb Ya Yb : D) : T :=
  t_scale (sum2D lroots weight result f Xa Xb Ya Yb)
    (d_mul (half_width Xa Xb) (half_width Ya Yb)).

Definition step3D (f : D -> D -> D -> T) (Xa Xb Ya Yb Za Zb : D)
  (x wx y wy z wz : D) (acc : T) : T :=
  t_add acc
    (t_scale (f (mapped Xa Xb x) (mapped Ya Yb y) (mapped Za Zb z))
       (d_mul (d_mul wx wy) wz)).

Definition sum3D (lroots weight : list D) (result : T)
  (f : D -> D -> D -> T) (Xa Xb Ya Yb Za Zb : D) : T :=
  sweep (fun x wx =>
           sweep (fun y wy =>
                    sweep (step3D f Xa Xb Ya Yb Za Zb x wx y wy)
                      (combine lroots weight))
             (combine lroots weight))
    (combine lroots weight) (t_scale result d_zero).

Definition gauss_rule3D (lroots weight : list D) (result : T)
  (f : D -> D -> D -> T) (Xa Xb Ya Yb Za Zb : D) : T :=
  t_scale (sum3D lroots weight result f Xa Xb Ya Yb Za Zb)
    (d_mul (d_mul (half_width Xa Xb) (half_width Ya Yb)) (half_width Za Zb)).

(** The data-model invariant of a table that holds the orders
    [1 .. N]: entry [n-1] has [n] roots and [n] weights. *)
Definition table_shape (N : nat) (t : ChQuadratureTables D) : Prop :=
  length (Lroots t) = N /\ length (Weight t) = N /\
  forall n xs ws, nth_error (Lroots t) n = Some xs ->
                  nth_error (Weight t) n = Some ws ->
                  length xs = S n /\ length ws = S n.

(** What [ChQuadratureTables(order, order)] holds: the one entry of
    that order. *)
Definition single_order (order : Z) (t : ChQuadratureTables D)
  (xs ws : list D) : Prop :=
  Lroots t = [xs] /\ Weight t = [ws] /\
  Z.of_nat (length xs) = order /\ Z.of_nat (length ws) = order.

End Rule.

(** [int] is 32 bits wide. *)
Definition int_range (order : Z) : Prop :=
  (- 2 ^ 31 <= order < 2 ^ 31)%Z.

(** One iteration over the nodes of a table entry: read the root and the
    weight of index [i], then update the accumulator with [k]. *)
Definition node_body {D T : Type} (lroots weight : list D)
  (k : D -> D -> T -> T) (i : nat) (acc : T) : outcome T :=
  x <- vec_at lroots i ;;
  w <- vec_at weight i ;;
  Done (k x w acc).

(** What a loop over all nodes yields: [weight->at(i)] throws as soon as
    the weights are fewer than the roots. *)
Definition nodes_outcome {D T : Type} (lroots weight : list D) (r : T)
  : outcome T :=
  if (length lroots <=? length weight)%nat then Done r else OutOfRange.

(** The frame shared by the three routines: select the table, run the
    computation [k] on its two vectors, release the table. *)
Definition with_tables {D T : Type} (GetStaticTables : ChQuadratureTables D)
  (new_tables : Z -> Z -> ChQuadratureTables D) (order : Z)
  (k : list D -> list D -> outcome T) : outcome T * list event :=
  let '(sel, static_tables, tr) :=
    select_tables GetStaticTables new_tables order in
  finish order static_tables tr (tabs <- sel ;; k (fst tabs) (snd tabs)).

(** The events of a call that takes the dynamic path and returns. *)
Definition dynamic_trace (order : Z) : list event :=
  [EvNew order order; EvPrintTables order order; EvDelete order order].

(** ** A concrete binary64 table *)

Open Scope float_scope.

(** Modelled from the spec: the constructor
    [ChQuadratureTables(order_from, order_to)] is defined in
    ChQuadrature.cpp, which is not available.  The spec describes it as
    "for each order n in range, the n roots of the Legendre polynomial of
    degree n and the corresponding integration weights", with the "roots
    within a table stored in ascending order".  The list tabulates these
    for the orders 1 to 12, each value rounded to the nearest binary64
    number.  It serves as the sample value of the two parameters
    [GetStaticTables] and [new_tables] wherever a statement is run on
    machine numbers. *)
Definition gauss_legendre_binary64 : list (list float * list float) :=
  [
    (* order 1 *)
    ([0x0.0p+0],
      [0x1.0000000000000p+1]);
    (* order 2 *)
    ([(-0x1.279a74590331cp-1); 0x1.279a74590331cp-1],
      [0x1.0000000000000p+0; 0x1.0000000000000p+0]);
    (* order 3 *)
    ([(-0x1.8c97ef43f7248p-1); 0x0.0p+0; 0x1.8c97ef43f7248p-1],
      [0x1.1c71c71c71c72p-1; 0x1.c71c71c71c71cp-1; 0x1.1c71c71c71c72p-1]);
    (* order 4 *)
    ([(-0x1.b8e6dbcf63985p-1); (-0x1.5c23fd9dd3dfcp-2);
       0x1.5c23fd9dd3dfcp-2; 0x1.b8e6dbcf63985p-1],
      [0x1.64340f7e7b66bp-2; 0x1.4de5f840c24cap-1; 0x1.4de5f840c24cap-1;
       0x1.64340f7e7b66bp-2]);
    (* order 5 *)
    ([(-0x1.cff6ce0533a69p-1); (-0x1.13b23fd99b705p-1); 0x0.0p+0;
       0x1.13b23fd99b705p-1; 0x1.cff6ce0533a69p-1],
      [0x1.e539ec36e038cp-3; 0x1.ea1da25ae415bp-2; 0x1.23456789abcdfp-1;
       0x1.ea1da25ae415bp-2; 0x1.e539ec36e038cp-3]);
    (* order 6 *)
    ([(-0x1.dd6ca4e80a01ep-1); (-0x1.528a09655c95ep-1);
       (-0x1.e8b12d03675c5p-3); 0x1.e8b12d03675c5p-3; 0x1.528a09655c95ep-1;
       0x1.dd6ca4e80a01ep-1],
      [0x1.5edf601e2dbf8p-3; 0x1.716b7b5794c1cp-2; 0x1.df24d499545e8p-2;
       0x1.df24d499545e8p-2; 0x1.716b7b5794c1cp-2; 0x1.5edf601e2dbf8p-3]);
    (* order 7 *)
    ([(-0x1.e5f178e7c6229p-1); (-0x1.7ba9f9be3a1d6p-1);
       (-0x1.9f95df119fd62p-2); 0x0.0p+0; 0x1.9f95df119fd62p-2;
       0x1.7ba9f9be3a1d6p-1; 0x1.e5f178e7c6229p-1],
      [0x1.092f69f826d57p-3; 0x1.1e6b1713d8644p-2; 0x1.86fe74ee32b3dp-2;
       0x1.abfd7e03c2fa6p-2; 0x1.86fe74ee32b3dp-2; 0x1.1e6b1713d8644p-2;
       0x1.092f69f826d57p-3]);
    (* order 8 *)
    ([(-0x1.ebab1cb0acc67p-1); (-0x1.97e4ab249f41ep-1);
       (-0x1.0d129583284b4p-1); (-0x1.77ac94f3c7345p-3);
       0x1.77ac94f3c7345p-3; 0x1.0d129583284b4p-1; 0x1.97e4ab249f41ep-1;
       0x1.ebab1cb0acc67p-1],
      [0x1.9ea1d04ca0374p-4; 0x1.c76fb531d2b96p-3; 0x1.413c50a255615p-2;
       0x1.736360b199343p-2; 0x1.736360b199343p-2; 0x1.413c50a255615p-2;
       0x1.c76fb531d2b96p-3; 0x1.9ea1d04ca0374p-4]);
    (* order 9 *)
    ([(-0x1.efb2b2ebf2106p-1); (-0x1.ac0c44f0d0298p-1);
       (-0x1.3a0bd2077fd8cp-1); (-0x1.4c0916e48aa66p-2); 0x0.0p+0;
       0x1.4c0916e48aa66p-2; 0x1.3a0bd2077fd8cp-1; 0x1.ac0c44f0d0298p-1;
       0x1.efb2b2ebf2106p-1],
      [0x1.4ce65f803eef8p-4; 0x1.71f7a9b222beap-3; 0x1.0add87c827506p-2;
       0x1.3fd7e9838d512p-2; 0x1.522a43f65486ap-2; 0x1.3fd7e9838d512p-2;
       0x1.0add87c827506p-2; 0x1.71f7a9b222beap-3; 0x1.4ce65f803eef8p-4]);
    (* order 10 *)
    ([(-0x1.f2a3e062af2d8p-1); (-0x1.bae995e9cb2f3p-1);
       (-0x1.5bdb9228de198p-1); (-0x1.bbcc009016adcp-2);
       (-0x1.30e507891e27ap-3); 0x1.30e507891e27ap-3; 0x1.bbcc009016adcp-2;
       0x1.5bdb9228de198p-1; 0x1.bae995e9cb2f3p-1; 0x1.f2a3e062af2d8p-1],
      [0x1.1115f8b62dc1fp-4; 0x1.32138c878efe5p-3; 0x1.c0b059d00bc31p-3;
       0x1.13baa7a559bfep-2; 0x1.2e9de7014d6efp-2; 0x1.2e9de7014d6efp-2;
       0x1.13baa7a559bfep-2; 0x1.c0b059d00bc31p-3; 0x1.32138c878efe5p-3;
       0x1.1115f8b62dc1fp-4]);
    (* order 11 *)
    ([(-0x1.f4da62fd7e9b5p-1); (-0x1.c62d11af04753p-1);
       (-0x1.75d67bd21944ap-1); (-0x1.09c6f7c4d8ce1p-1);
       (-0x1.14031efeb42c1p-2); 0x0.0p+0; 0x1.14031efeb42c1p-2;
       0x1.09c6f7c4d8ce1p-1; 0x1.75d67bd21944ap-1; 0x1.c62d11af04753p-1;
       0x1.f4da62fd7e9b5p-1],
      [0x1.c8097265bb925p-5; 0x1.013047def88cdp-3; 0x1.7d85b8dbff199p-3;
       0x1.dd94b1446e05cp-3; 0x1.0d1ca26fa590fp-2; 0x1.1779ac87e04d6p-2;
       0x1.0d1ca26fa590fp-2; 0x1.dd94b1446e05cp-3; 0x1.7d85b8dbff199p-3;
       0x1.013047def88cdp-3; 0x1.c8097265bb925p-5]);
    (* order 12 *)
    ([(-0x1.f68f1d8e42e81p-1); (-0x1.cee874ffb88b4p-1);
       (-0x1.8a30aeed88f36p-1); (-0x1.2cb4f05c077f9p-1);
       (-0x1.78a8d20a8b19dp-2); (-0x1.007a5f8f630e4p-3);
       0x1.007a5f8f630e4p-3; 0x1.78a8d20a8b19dp-2; 0x1.2cb4f05c077f9p-1;
       0x1.8a30aeed88f36p-1; 0x1.cee874ffb88b4p-1; 0x1.f68f1d8e42e81p-1],
      [0x1.8275d9dea6d8fp-5; 0x1.b60602bce6181p-4; 0x1.47d7258f22d8fp-3;
       0x1.a0163e6b1ab72p-3; 0x1.de3155c256ab5p-3; 0x1.fe40ce6d4f025p-3;
       0x1.fe40ce6d4f025p-3; 0x1.de3155c256ab5p-3; 0x1.a0163e6b1ab72p-3;
       0x1.47d7258f22d8fp-3; 0x1.b60602bce6181p-4; 0x1.8275d9dea6d8fp-5])
  ].

Close Scope float_scope.

(** The entry of order [n]; an order outside [1 .. 12] gets an entry
    without nodes. *)
Definition binary64_entry (n : Z) : list float * list float :=
  if (1 <=? n)%Z then nth (Z.to_nat (n - 1)) gauss_legendre_binary64 ([], [])
  else ([], []).

(** The table of the orders [order_from .. order_to], entry by entry. *)
Definition tabulate {D : Type} (entry : Z -> list D * list D)
  (order_from order_to : Z) : ChQuadratureTables D :=
  let orders := map (fun i => (order_from + Z.of_nat i)%Z)
                  (seq 0 (Z.to_nat (order_to - order_from + 1))) in
  {| Weight := map (fun n => snd (entry n)) orders;
     Lroots := map (fun n => fst (entry n)) orders |}.

Definition binary64_new_tables : Z -> Z -> ChQuadratureTables float :=
  tabulate binary64_entry.

(** [GetStaticTables()]: the header gives the constructor the default
    arguments [order_from = 1, order_to = 10]. *)
Definition binary64_static_tables : ChQuadratureTables float :=
  binary64_new_tables 1 10.

(** The events of a call, from the order, the size of the static table
    and whether the call returned: none on the static path; on the dynamic
    path the allocation and the printing, and the release unless
    [weight->at(i)] threw. *)
Definition expected_trace {D : Type} (GetStaticTables : ChQuadratureTables D)
  (order : Z) (returned : bool) : list event :=
  if (to_unsigned order <=? Z.of_nat (length (Lroots GetStaticTables)))%Z
  then []
  else if returned then dynamic_trace order
       else [EvNew order order; EvPrintTables order order].

(** ** Exact arithmetic: sums, polynomials, Gauss-Legendre entries *)

Section RealDefinitions.

Local Open Scope R_scope.

Fixpoint node_sum (F : R -> R -> R) (nodes : list (R * R)) : R :=
  match nodes with
  | [] => 0
  | (x, w) :: rest => F x w + node_sum F rest
  end.

(** [wsum g xs ws]: the sum of [g x_i * w_i]. *)
Definition wsum (g : R -> R) (xs ws : list R) : R :=
  node_sum (fun x w => g x * w) (combine xs ws).

(** The sum of [x_i ^ k * w_i]: what the rule on [[-1, 1]] gives for
    [x^k]. *)
Definition discrete_moment (xs ws : list R) (k : nat) : R :=
  wsum (fun x => x ^ k) xs ws.

(** The nodes and the weights are mirrored about 0. *)
Definition symmetric_nodes (xs ws : list R) : Prop :=
  rev (map Ropp xs) = xs /\ rev ws = ws.

(** Polynomials, as the list of their coefficients from degree 0 up. *)
Fixpoint peval (p : list R) (x : R) : R :=
  match p with
  | [] => 0
  | c :: p' => c + x * peval p' x
  end.

Fixpoint pantideriv_from (k : nat) (p : list R) : list R :=
  match p with
  | [] => []
  | c :: p' => c / INR (S k) :: pantideriv_from (S k) p'
  end.

Definition pantideriv (p : list R) : list R := 0 :: pantideriv_from 0 p.

(** The closed form of the integral of [p] over [[a, b]]. *)
Definition closed_integral (p : list R) (a b : R) : R :=
  peval (pantideriv p) b - peval (pantideriv p) a.

Fixpoint pderiv_from (k : nat) (p : list R) : list R :=
  match p with
  | [] => []
  | c :: p' => INR k * c :: pderiv_from (S k) p'
  end.

Definition pderiv (p : list R) : list R :=
  match p with
  | [] => []
  | _ :: p' => pderiv_from 1 p'
  end.

Fixpoint padd (p q : list R) : list R :=
  match p, q with
  | [], _ => q
  | _, [] => p
  | a :: p', b :: q' => (a + b) :: padd p' q'
  end.

Definition pscale (c : R) (p : list R) : list R := map (Rmult c) p.

(** [pcomp p c1 c2] is [p (c1 * t + c2)] as a polynomial in [t]. *)
Fixpoint pcomp (p : list R) (c1 c2 : R) : list R :=
  match p with
  | [] => []
  | c :: p' =>
      let q := pcomp p' c1 c2 in
      padd [c] (padd (pscale c2 q) (0 :: pscale c1 q))
  end.

(** The division of [p] by [t - r]: the quotient and the remainder. *)
Fixpoint pdiv_lin (p : list R) (r : R) : list R * R :=
  match p with
  | [] => ([], 0)
  | a :: p' =>
      let (q', s') := pdiv_lin p' r in
      (match p' with [] => [] | _ => s' :: q' end, a + r * s')
  end.

(** The monic polynomial whose roots are the elements of [l]. *)
Fixpoint proots (l : list R) : list R :=
  match l with
  | [] => [1]
  | y :: l' => let q := proots l' in padd (pscale (- y) q) (0 :: q)
  end.

(** Every other coefficient of [c] is zero, starting with the first one
    when [b] is [true] and with the second one otherwise. *)
Fixpoint zeros_at (b : bool) (c : list R) : Prop :=
  match c with
  | [] => True
  | a :: c' => (if b then a = 0 else True) /\ zeros_at (negb b) c'
  end.

(** The difference of two vectors, element by element. *)
Definition vsub (u v : list R) : list R :=
  map (fun p => fst p - snd p) (combine u v).

(** The integral of [x^k] over [[-1, 1]]. *)
Definition moment (k : nat) : R := (1 - (-1) ^ S k) / INR (S k).

(** [dot c mu s]: the sum of [c_j * mu (s + j)]; with [mu] the moments
    of a measure, the integral of [x^s] times the polynomial [c]. *)
Fixpoint dot (c : list R) (mu : nat -> R) (s : nat) : R :=
  match c with
  | [] => 0
  | a :: c' => a * mu s + dot c' mu (S s)
  end.

End RealDefinitions.

(** ** Legendre polynomials, with rational coefficients *)

Section Legendre.

Local Open Scope Q_scope.

Fixpoint qsub (p q : list Q) : list Q :=
  match p, q with
  | [], _ => map Qopp q
  | _, [] => p
  | a :: p', b :: q' => (a - b) :: qsub p' q'
  end.

Definition qscale (c : Q) (p : list Q) : list Q :=
  map (fun a => Qred (c * a)) p.

(** Modelled from the spec: [glege_coef], declared in the header and
    defined in ChQuadrature.cpp, is described as "the standard recurrence
    for Legendre polynomial coefficients":
    [n P_n = (2n-1) x P_(n-1) - (n-1) P_(n-2)], from [P_0 = 1] and
    [P_1 = x].  [legendre_pair n] is the pair of [P_n] and [P_(n+1)]. *)
Fixpoint legendre_pair (n : nat) : list Q * list Q :=
  match n with
  | O => ([1], [0; 1])
  | S m =>
      let '(p0, p1) := legendre_pair m in
      (p1,
       qscale (1 # Pos.of_succ_nat (S m))
         (qsub (qscale (Z.of_nat (2 * m + 3) # 1) (0 :: p1))
               (qscale (Z.of_nat (S m) # 1) p0)))
  end.

Definition glege_coef (n : nat) : list Q := fst (legendre_pair n).

Definition momentQ (k : nat) : Q :=
  if Nat.even k then 2 # Pos.of_succ_nat k else 0.

(** The integral over [[-1, 1]] of [x^s] times the polynomial [c]. *)
Fixpoint dotQ (c : list Q) (s : nat) : Q :=
  match c with
  | [] => 0
  | a :: c' => a * momentQ s + dotQ c' (S s)
  end.

(** [P_n] is orthogonal to [x^s] for [s < n], for every [n] in
    [1 .. N]; a computation on rationals. *)
Definition legendre_orthogonal (N : nat) : bool :=
  forallb (fun n =>
             forallb (fun s => Qeq_bool (dotQ (glege_coef n) s) 0)
               (seq 0 n))
    (seq 1 N).

Fixpoint qzeros_at (b : bool) (c : list Q) : bool :=
  match c with
  | [] => true
  | a :: c' => (if b then Qeq_bool a 0 else true) && qzeros_at (negb b) c'
  end.

(** [P_n] has the parity of [n], for every [n] in [1 .. N]. *)
Definition legendre_parity (N : nat) : bool :=
  forallb (fun n => qzeros_at (Nat.odd n) (glege_coef n)) (seq 1 N).

(** [P_n] has degree [n], for every [n] in [1 .. N]. *)
Definition legendre_degree (N : nat) : bool :=
  forallb (fun n =>
             Nat.eqb (length (glege_coef n)) (S n)
             && negb (Qeq_bool (last (glege_coef n) 0) 0))
    (seq 1 N).

End Legendre.

Definition legendre (n : nat) : list R := map Q2R (glege_coef n).

(** Modelled from the spec: the entry of order [n] of a table holds "the
    n roots of the Legendre polynomial of degree n", "in ascending order",
    "and the corresponding integration weights": the weights for which
    the rule on these nodes integrates [1, x, ..., x^(n-1)] over
    [[-1, 1]] exactly. *)
Record GL_entry (n : nat) (xs ws : list R) : Prop := {
  gl_roots_length : length xs = n;
  gl_weights_length : length ws = n;
  gl_ascending : StronglySorted Rlt xs;
  gl_roots : Forall (fun x => peval (legendre n) x = 0%R) xs;
  gl_weights : forall k, (k < n)%nat -> discrete_moment xs ws k = moment k
}.

(** The entries of the orders 1, 2 and 3, in closed form. *)
Definition real_entry (n : Z) : list R * list R :=
  match n with
  | 1%Z => ([0%R], [2%R])
  | 2%Z => ([(- R_sqrt.sqrt (1 / 3))%R; R_sqrt.sqrt (1 / 3)], [1%R; 1%R])
  | 3%Z => ([(- R_sqrt.sqrt (3 / 5))%R; 0%R; R_sqrt.sqrt (3 / 5)],
            [(5 / 9)%R; (8 / 9)%R; (5 / 9)%R])
  | _ => ([], [])
  end.

Definition real_new_tables : Z -> Z -> ChQuadratureTables R :=
  tabulate real_entry.

Definition real_static_tables : ChQuadratureTables R := real_new_tables 1 3.

(** ** The numerical-differentiation link

    The bodies of [ChLinkNumdiff::ComputeC], [ComputeCt], [ComputeCq] and
    [UpdateState] are in ChLinkNumdiff.cpp, which is not available; only
    the class declaration and its comments are.  Numbers are real; the
    differentiation step [eps] is a parameter. *)

Module Numdiff.

(** The state of the two bodies as the link sees it: the coordinate
    vector [q] and the time [t]. *)
Record BodyState : Type := {
  coords : list R;
  time : R
}.

(** What the link hands to the solver. *)
Record LinkState : Type := {
  C : list R;
  Ct : list R;
  Cq : list (list R)
}.

(** The virtual functions a derived class may override; [None] is a
    residual evaluation that fails. *)
Record Hooks : Type := {
  ImposeCoords : list R -> R -> BodyState -> BodyState;
  FetchCoords : BodyState -> list R;
  ComputeC : BodyState -> option (list R)
}.

(** Modelled from the spec: the default [ImposeCoords] writes the trial
    coordinates and time into the bodies; the default [FetchCoords] reads
    them back. *)
Definition base_ImposeCoords (mc : list R) (t : R) (_ : BodyState)
  : BodyState :=
  {| coords := mc; time := t |}.

Definition base_FetchCoords (s : BodyState) : list R := coords s.

(** Modelled from the spec: the default [ComputeC], whose body is in
    ChLinkNumdiff.cpp; the header says "Default: C = 0, no particular
    constraint", the spec "Default: zero vector (no constraint)".  [ndoc]
    is [GetDOC()]. *)
Definition base_ComputeC (ndoc : nat) (_ : BodyState) : option (list R) :=
  Some (repeat 0%R ndoc).

Definition base (ndoc : nat) : Hooks :=
  {| ImposeCoords := base_ImposeCoords;
     FetchCoords := base_FetchCoords;
     ComputeC := base_ComputeC ndoc |}.

Definition difference (eps : R) (c1 c0 : list R) : list R :=
  map (fun p => ((fst p - snd p) / eps)%R) (combine c1 c0).

Fixpoint perturb (eps : R) (q : list R) (i : nat) : list R :=
  match q, i with
  | [], _ => []
  | x :: q', O => (x + eps)%R :: q'
  | x :: q', S i' => x :: perturb eps q' i'
  end.

(** Modelled from the spec: [ComputeCt], "evaluating the residual at the
    current state and at a perturbed time, subtracting and dividing by
    the perturbation". *)
Definition ComputeCt (eps : R) (h : Hooks) (s : BodyState)
  : option (list R) :=
  let q := FetchCoords h s in
  match ComputeC h (ImposeCoords h q (time s) s),
        ComputeC h (ImposeCoords h q (time s + eps)%R s) with
  | Some c0, Some c1 => Some (difference eps c1 c0)
  | _, _ => None
  end.

(** Modelled from the spec: the columns of the Jacobian, "perturbing
    each coordinate component in turn (one at a time), re-imposing state,
    recomputing the residual, differencing against the unperturbed
    residual, and dividing by the perturbation". *)
Fixpoint columns (eps : R) (h : Hooks) (s : BodyState) (q c0 : list R)
  (ixs : list nat) : option (list (list R)) :=
  match ixs with
  | [] => Some []
  | i :: rest =>
      match ComputeC h (ImposeCoords h (perturb eps q i) (time s) s) with
      | Some ci =>
          match columns eps h s q c0 rest with
          | Some cols => Some (difference eps ci c0 :: cols)
          | None => None
          end
      | None => None
      end
  end.

(** Modelled from the spec: [ComputeCq], one column per coordinate. *)
Definition ComputeCq (eps : R) (h : Hooks) (s : BodyState)
  : option (list (list R)) :=
  let q := FetchCoords h s in
  match ComputeC h (ImposeCoords h q (time s) s) with
  | Some c0 => columns eps h s q c0 (seq 0 (length q))
  | None => None
  end.

(** Modelled from the spec: [UpdateState], "impose the nominal state,
    compute the residual, compute Ct and the Jacobians"; the header says
    that it "will call ComputeCt, ComputeCq to get the values of Cq1,
    Cq2, Qc, Ct". *)
Definition UpdateState (eps : R) (h : Hooks) (s : BodyState)
  : option LinkState :=
  let q := FetchCoords h s in
  match ComputeC h (ImposeCoords h q (time s) s) with
  | Some c =>
      match ComputeCt eps h s, ComputeCq eps h s with
      | Some ct, Some cq => Some {| C := c; Ct := ct; Cq := cq |}
      | _, _ => None
      end
  | None => None
  end.

End Numdiff.

(** ** Results read back, result types with members, several variables *)

(** What the caller reads in [result] after a call that returned; [d]
    stands for what is left when the call did not return. *)
Definition returned_or {A : Type} (d : A) (c : outcome A) : A :=
  match c with
  | Done a => a
  | _ => d
  end.

Definition outcome_map {A B : Type} (phi : A -> B) (c : outcome A)
  : outcome B :=
  a <- c ;; Done (phi a).

(** A map between two result types that commutes with [*=] and [+=]. *)
Definition preserves_ops {D T T' : Type} (RO : ResultOps D T)
  (RO' : ResultOps D T') (phi : T -> T') : Prop :=
  (forall v w, phi (t_scale v w) = t_scale (phi v) w)
  /\ (forall u v, phi (t_add u v) = t_add (phi u) (phi v)).

(** A result type of two members whose [*=] and [+=] work member by
    member, as those of a vector or a matrix do. *)
Definition pair_result {D T1 T2 : Type} (R1 : ResultOps D T1)
  (R2 : ResultOps D T2) : ResultOps D (T1 * T2) :=
  {| t_scale := fun v w => (t_scale (fst v) w, t_scale (snd v) w);
     t_add := fun u v => (t_add (fst u) (fst v), t_add (snd u) (snd v)) |}.

(** A polynomial in [x] and [y], as the list of the coefficients of the
    powers of [x], each a polynomial in [y]; and its integral over a
    rectangle, the integral in [x] of the integrals in [y]. *)
Definition peval2 (P : list (list R)) (x y : R) : R :=
  peval (map (fun q => peval q y) P) x.

Definition closed_integral2 (P : list (list R)) (Xa Xb Ya Yb : R) : R :=
  closed_integral (map (fun q => closed_integral q Ya Yb) P) Xa Xb.

(** The same with three variables. *)
Definition peval3 (P : list (list (list R))) (x y z : R) : R :=
  peval (map (fun Q => peval2 Q y z) P) x.

Definition closed_integral3 (P : list (list (list R)))
  (Xa Xb Ya Yb Za Zb : R) : R :=
  closed_integral (map (fun Q => closed_integral2 Q Ya Yb Za Zb) P) Xa Xb.

(** [p x], as a polynomial in [y], for a polynomial [P] in [x] and [y]. *)
Definition slice (P : list (list R)) (x : R) : list R :=
  fold_right (fun q acc => padd q (pscale x acc)) [] P.

(** Two binary64 numbers that are the same, or two zeros. *)
Definition same_up_to_zero_sign (x y : float) : Prop :=
  x = y \/ (is_zero x = true /\ is_zero y = true).

(* ====================================================================== *)
(** * Part II: properties *)

(** ** Loops *)

Section LoopFacts.

Context {D T : Type}.

Lemma for_loop_ext (n i0 : nat) (body body' : nat -> T -> outcome T) acc :
  (forall i a, (i0 <= i < i0 + n)%nat -> body i a = body' i a) ->
  for_loop n i0 body acc = for_loop n i0 body' acc.
Proof.
  revert i0 acc. induction n as [|n IH]; intros i0 acc Hext; simpl.
  - reflexivity.
  - rewrite (Hext i0 acc) by lia.
    destruct (body' i0 acc); simpl; try reflexivity.
    apply IH. intros i a' Hi. apply Hext. lia.
Qed.

Lemma vec_at_app_here {A : Type} (p s : list A) (x : A) :
  vec_at (p ++ x :: s) (length p) = Done x.
Proof.
  unfold vec_at. rewrite nth_error_app2 by lia.
  rewrite Nat.sub_diag. reflexivity.
Qed.

Lemma vec_at_app_end {A : Type} (p : list A) :
  vec_at (p ++ []) (length p) = OutOfRange.
Proof.
  unfold vec_at. rewrite app_nil_r.
  destruct (nth_error p (length p)) eqn:E; [|reflexivity].
  assert (nth_error p (length p) <> None) as E' by congruence.
  apply nth_error_Some in E'. lia.
Qed.

Lemma vec_at_lt {A : Type} (v : list A) (i : nat) :
  (i < length v)%nat -> exists a, vec_at v i = Done a.
Proof.
  intro H. unfold vec_at. destruct (nth_error v i) eqn:E; [eauto|].
  apply nth_error_None in E. lia.
Qed.

Lemma vec_at_ge {A : Type} (v : list A) (i : nat) :
  (length v <= i)%nat -> vec_at v i = OutOfRange.
Proof.
  intro H. unfold vec_at. destruct (nth_error v i) eqn:E; [|reflexivity].
  assert (nth_error v i <> None) as E' by congruence.
  apply nth_error_Some in E'. lia.
Qed.

Variable k : D -> D -> T -> T.

Lemma node_loop_done (xs ws px pw : list D) (acc : T) :
  length px = length pw -> (length xs <= length ws)%nat ->
  for_loop (length xs) (length px) (node_body (px ++ xs) (pw ++ ws) k) acc
  = Done (fold_left (fun acc xw => k (fst xw) (snd xw) acc)
            (combine xs ws) acc).
Proof.
  revert ws px pw acc.
  induction xs as [|x xs IH]; intros ws px pw acc Hp Hlen; simpl.
  - reflexivity.
  - destruct ws as [|w ws]; simpl in Hlen; [lia|].
    unfold node_body at 1.
    rewrite vec_at_app_here, Hp, vec_at_app_here. simpl.
    specialize (IH ws (px ++ [x]) (pw ++ [w]) (k x w acc)).
    rewrite !length_app in IH. simpl in IH.
    rewrite <- !app_assoc in IH. simpl in IH.
    rewrite Nat.add_1_r in IH. rewrite <- Hp.
    apply IH; lia.
Qed.

Lemma node_loop_throw (xs ws px pw : list D) (acc : T) :
  length px = length pw -> (length ws < length xs)%nat ->
  for_loop (length xs) (length px) (node_body (px ++ xs) (pw ++ ws) k) acc
  = OutOfRange.
Proof.
  revert ws px pw acc.
  induction xs as [|x xs IH]; intros ws px pw acc Hp Hlen; simpl in *.
  - lia.
  - unfold node_body at 1. rewrite vec_at_app_here. simpl.
    destruct ws as [|w ws].
    + rewrite Hp, vec_at_app_end. reflexivity.
    + rewrite Hp, vec_at_app_here. simpl.
      specialize (IH ws (px ++ [x]) (pw ++ [w]) (k x w acc)).
      rewrite !length_app in IH. simpl in IH.
      rewrite <- !app_assoc in IH. simpl in IH.
      rewrite Nat.add_1_r in IH. rewrite <- Hp.
      apply IH; simpl in Hlen; lia.
Qed.

Lemma node_loop (lroots weight : list D) (acc : T) :
  for_loop (length lroots) 0 (node_body lroots weight k) acc
  = nodes_outcome lroots weight
      (fold_left (fun acc xw => k (fst xw) (snd xw) acc)
         (combine lroots weight) acc).
Proof.
  unfold nodes_outcome.
  destruct (Nat.leb_spec (length lroots) (length weight)) as [H|H].
  - apply (node_loop_done lroots weight [] [] acc); auto.
  - apply (node_loop_throw lroots weight [] [] acc); auto.
Qed.

End LoopFacts.

(** ** The loops of the three routines, in closed form *)

Section Loops.

Context {D T : Type} {DO : DoubleOps D} {RO : ResultOps D T}.

Lemma vec_at_not_ub {A : Type} (v : list A) (i : nat) :
  vec_at v i <> UndefinedBehavior.
Proof. unfold vec_at. destruct (nth_error v i); discriminate. Qed.

Lemma nested_loop (lroots weight : list D) (inner : nat -> T -> outcome T)
  (K : D -> D -> T -> T) (acc : T) :
  (forall ix x wx a,
      vec_at lroots ix = Done x -> vec_at weight ix = Done wx ->
      inner ix a = nodes_outcome lroots weight (K x wx a)) ->
  (forall ix a,
      (ix < length lroots)%nat -> vec_at weight ix = OutOfRange ->
      inner ix a = OutOfRange) ->
  for_loop (length lroots) 0 inner acc
  = nodes_outcome lroots weight (sweep K (combine lroots weight) acc).
Proof.
  intros Hin Hthrow. unfold nodes_outcome in *.
  destruct (Nat.leb_spec (length lroots) (length weight)) as [H|H].
  - rewrite for_loop_ext with (body' := node_body lroots weight K).
    + rewrite node_loop. unfold nodes_outcome.
      apply Nat.leb_le in H. rewrite H. reflexivity.
    + intros i a Hi.
      destruct (@vec_at_lt D lroots i) as [x Hx]; [lia|].
      destruct (@vec_at_lt D weight i) as [wx Hwx]; [lia|].
      rewrite (Hin i x wx a Hx Hwx).
      unfold node_body. rewrite Hx, Hwx. reflexivity.
  - destruct lroots as [|x0 rest] eqn:El; simpl in H; [lia|].
    rewrite <- El in *.
    assert (Hn : length lroots = S (length rest)) by (rewrite El; reflexivity).
    rewrite Hn. simpl.
    destruct (@vec_at_lt D lroots 0) as [x Hx]; [lia|].
    destruct (vec_at weight 0) as [wx| |] eqn:Hw.
    + rewrite (Hin 0%nat x wx acc Hx Hw). reflexivity.
    + exfalso. exact (vec_at_not_ub _ _ Hw).
    + rewrite (Hthrow 0%nat acc); [reflexivity|lia|exact Hw].
Qed.

Variables (lroots weight : list D).

Lemma loop1D_eq (f : D -> T) (a b : D) (acc : T) :
  for_loop (length lroots) 0
    (body1D lroots weight f (half_width a b) (midpoint a b)) acc
  = nodes_outcome lroots weight
      (sweep (step1D f a b) (combine lroots weight) acc).
Proof.
  change (body1D lroots weight f (half_width a b) (midpoint a b))
    with (node_body lroots weight (step1D f a b)).
  apply node_loop.
Qed.

Lemma first_iteration (body : nat -> T -> outcome T) (i : nat) (acc : T) :
  (i < length lroots)%nat -> body 0%nat acc = OutOfRange ->
  for_loop (length lroots) 0 body acc = OutOfRange.
Proof.
  intros Hi H0. destruct (length lroots) as [|n]; [lia|].
  simpl. rewrite H0. reflexivity.
Qed.

Lemma inner2D_eq (f : D -> D -> T) (Xa Xb Ya Yb : D) (ix : nat)
  (x wx : D) (acc : T) :
  vec_at lroots ix = Done x -> vec_at weight ix = Done wx ->
  for_loop (length lroots) 0
    (body2D lroots weight f (half_width Xa Xb) (midpoint Xa Xb)
       (half_width Ya Yb) (midpoint Ya Yb) ix) acc
  = nodes_outcome lroots weight
      (sweep (step2D f Xa Xb Ya Yb x wx) (combine lroots weight) acc).
Proof.
  intros Hx Hwx.
  rewrite for_loop_ext
    with (body' := node_body lroots weight (step2D f Xa Xb Ya Yb x wx)).
  - apply node_loop.
  - intros i a _. unfold body2D, node_body. rewrite Hx, Hwx. simpl.
    destruct (vec_at lroots i); simpl; try reflexivity.
Qed.

Lemma inner2D_throw (f : D -> D -> T) (Xc1 Xc2 Yc1 Yc2 : D) (ix : nat)
  (acc : T) :
  (ix < length lroots)%nat -> vec_at weight ix = OutOfRange ->
  for_loop (length lroots) 0
    (body2D lroots weight f Xc1 Xc2 Yc1 Yc2 ix) acc = OutOfRange.
Proof.
  intros Hix Hw. apply first_iteration with (i := ix); [assumption|].
  unfold body2D.
  destruct (@vec_at_lt D lroots ix) as [x Hx]; [lia|].
  destruct (@vec_at_lt D lroots 0) as [y Hy]; [lia|].
  rewrite Hx, Hy, Hw. reflexivity.
Qed.

Lemma loop2D_eq (f : D -> D -> T) (Xa Xb Ya Yb : D) (acc : T) :
  for_loop (length lroots) 0
    (fun ix => for_loop (length lroots) 0
       (body2D lroots weight f (half_width Xa Xb) (midpoint Xa Xb)
          (half_width Ya Yb) (midpoint Ya Yb) ix)) acc
  = nodes_outcome lroots weight
      (sweep (fun x wx => sweep (step2D f Xa Xb Ya Yb x wx)
                            (combine lroots weight))
         (combine lroots weight) acc).
Proof.
  apply nested_loop.
  - intros ix x wx a Hx Hwx. apply inner2D_eq; assumption.
  - intros ix a Hix Hw. apply inner2D_throw; assumption.
Qed.

Lemma inner3D_eq (f : D -> D -> D -> T) (Xa Xb Ya Yb Za Zb : D)
  (ix iy : nat) (x wx y wy : D) (acc : T) :
  vec_at lroots ix = Done x -> vec_at weight ix = Done wx ->
  vec_at lroots iy = Done y -> vec_at weight iy = Done wy ->
  for_loop (length lroots) 0
    (body3D lroots weight f (half_width Xa Xb) (midpoint Xa Xb)
       (half_width Ya Yb) (midpoint Ya Yb)
       (half_width Za Zb) (midpoint Za Zb) ix iy) acc
  = nodes_outcome lroots weight
      (sweep (step3D f Xa Xb Ya Yb Za Zb x wx y wy)
         (combine lroots weight) acc).
Proof.
  intros Hx Hwx Hy Hwy.
  rewrite for_loop_ext
    with (body' := node_body lroots weight
                     (step3D f Xa Xb Ya Yb Za Zb x wx y wy)).
  - apply node_loop.
  - intros i a _. unfold body3D, node_body.
    rewrite Hx, Hwx, Hy, Hwy. simpl.
    destruct (vec_at lroots i); simpl; try reflexivity.
Qed.

Lemma inner3D_throw (f : D -> D -> D -> T) (Xc1 Xc2 Yc1 Yc2 Zc1 Zc2 : D)
  (ix iy : nat) (acc : T) :
  (ix < length lroots)%nat -> (iy < length lroots)%nat ->
  vec_at weight ix = OutOfRange \/
  (exists wx, vec_at weight ix = Done wx) /\ vec_at weight iy = OutOfRange ->
  for_loop (length lroots) 0
    (body3D lroots weight f Xc1 Xc2 Yc1 Yc2 Zc1 Zc2 ix iy) acc = OutOfRange.
Proof.
  intros Hix Hiy Hw. apply first_iteration with (i := ix); [assumption|].
  unfold body3D.
  destruct (@vec_at_lt D lroots ix) as [x Hx]; [lia|].
  destruct (@vec_at_lt D lroots iy) as [y Hy]; [lia|].
  destruct (@vec_at_lt D lroots 0) as [z Hz]; [lia|].
  rewrite Hx, Hy, Hz. simpl.
  destruct Hw as [Hw|[[wx Hwx] Hw]].
  - rewrite Hw. reflexivity.
  - rewrite Hwx, Hw. reflexivity.
Qed.

Lemma middle3D_eq (f : D -> D -> D -> T) (Xa Xb Ya Yb Za Zb : D)
  (ix : nat) (x wx : D) (acc : T) :
  vec_at lroots ix = Done x -> vec_at weight ix = Done wx ->
  for_loop (length lroots) 0
    (fun iy => for_loop (length lroots) 0
       (body3D lroots weight f (half_width Xa Xb) (midpoint Xa Xb)
          (half_width Ya Yb) (midpoint Ya Yb)
          (half_width Za Zb) (midpoint Za Zb) ix iy)) acc
  = nodes_outcome lroots weight
      (sweep (fun y wy => sweep (step3D f Xa Xb Ya Yb Za Zb x wx y wy)
                            (combine lroots weight))
         (combine lroots weight) acc).
Proof.
  intros Hx Hwx.
  assert (Hix : (ix < length lroots)%nat).
  { unfold vec_at in Hx. destruct (nth_error lroots ix) eqn:E; [|discriminate].
    apply nth_error_Some. congruence. }
  apply nested_loop.
  - intros iy y wy a Hy Hwy. apply inner3D_eq; assumption.
  - intros iy a Hiy Hw. apply inner3D_throw; try assumption.
    right. split; [eauto|assumption].
Qed.

Lemma loop3D_eq (f : D -> D -> D -> T) (Xa Xb Ya Yb Za Zb : D) (acc : T) :
  for_loop (length lroots) 0
    (fun ix => for_loop (length lroots) 0
       (fun iy => for_loop (length lroots) 0
          (body3D lroots weight f (half_width Xa Xb) (midpoint Xa Xb)
             (half_width Ya Yb) (midpoint Ya Yb)
             (half_width Za Zb) (midpoint Za Zb) ix iy))) acc
  = nodes_outcome lroots weight
      (sweep (fun x wx =>
                sweep (fun y wy =>
                         sweep (step3D f Xa Xb Ya Yb Za Zb x wx y wy)
                           (combine lroots weight))
                  (combine lroots weight))
         (combine lroots weight) acc).
Proof.
  apply nested_loop.
  - intros ix x wx a Hx Hwx. apply middle3D_eq; assumption.
  - intros ix a Hix Hw. apply first_iteration with (i := ix); [assumption|].
    apply inner3D_throw; try lia. left. exact Hw.
Qed.

End Loops.

(** ** The routines in closed form *)

Section Routines.

Context {D T : Type} {DO : DoubleOps D} {RO : ResultOps D T}.
Variable GetStaticTables : ChQuadratureTables D.
Variable new_tables : Z -> Z -> ChQuadratureTables D.

Lemma Integrate1D_eq (result : T) (f : D -> T) (a b : D) (order : Z) :
  Integrate1D GetStaticTables new_tables result f a b order
  = with_tables GetStaticTables new_tables order
      (fun lroots weight =>
         nodes_outcome lroots weight (gauss_rule1D lroots weight result f a b)).
Proof.
  unfold Integrate1D, with_tables.
  destruct (select_tables GetStaticTables new_tables order)
    as [[sel static_tables] tr].
  f_equal. destruct sel as [[lroots weight]| |]; simpl; try reflexivity.
  change (d_div (d_sub b a) d_two) with (half_width a b).
  change (d_div (d_add b a) d_two) with (midpoint a b).
  rewrite loop1D_eq. unfold nodes_outcome.
  destruct (length lroots <=? length weight)%nat; reflexivity.
Qed.

Lemma Integrate2D_eq (result : T) (f : D -> D -> T) (Xa Xb Ya Yb : D)
  (order : Z) :
  Integrate2D GetStaticTables new_tables result f Xa Xb Ya Yb order
  = with_tables GetStaticTables new_tables order
      (fun lroots weight =>
         nodes_outcome lroots weight
           (gauss_rule2D lroots weight result f Xa Xb Ya Yb)).
Proof.
  unfold Integrate2D, with_tables.
  destruct (select_tables GetStaticTables new_tables order)
    as [[sel static_tables] tr].
  f_equal. destruct sel as [[lroots weight]| |]; simpl; try reflexivity.
  change (d_div (d_sub Xb Xa) d_two) with (half_width Xa Xb).
  change (d_div (d_add Xb Xa) d_two) with (midpoint Xa Xb).
  change (d_div (d_sub Yb Ya) d_two) with (half_width Ya Yb).
  change (d_div (d_add Yb Ya) d_two) with (midpoint Ya Yb).
  rewrite loop2D_eq. unfold nodes_outcome.
  destruct (length lroots <=? length weight)%nat; reflexivity.
Qed.

Lemma Integrate3D_eq (result : T) (f : D -> D -> D -> T)
  (Xa Xb Ya Yb Za Zb : D) (order : Z) :
  Integrate3D GetStaticTables new_tables result f Xa Xb Ya Yb Za Zb order
  = with_tables GetStaticTables new_tables order
      (fun lroots weight =>
         nodes_outcome lroots weight
           (gauss_rule3D lroots weight result f Xa Xb Ya Yb Za Zb)).
Proof.
  unfold Integrate3D, with_tables.
  destruct (select_tables GetStaticTables new_tables order)
    as [[sel static_tables] tr].
  f_equal. destruct sel as [[lroots weight]| |]; simpl; try reflexivity.
  change (d_div (d_sub Xb Xa) d_two) with (half_width Xa Xb).
  change (d_div (d_add Xb Xa) d_two) with (midpoint Xa Xb).
  change (d_div (d_sub Yb Ya) d_two) with (half_width Ya Yb).
  change (d_div (d_add Yb Ya) d_two) with (midpoint Ya Yb).
  change (d_div (d_sub Zb Za) d_two) with (half_width Za Zb).
  change (d_div (d_add Zb Za) d_two) with (midpoint Za Zb).
  rewrite loop3D_eq. unfold nodes_outcome.
  destruct (length lroots <=? length weight)%nat; reflexivity.
Qed.

(** *** Which table is used *)

Lemma vec_index_nth {A : Type} (v : list A) (i : Z) (a : A) :
  (0 <= i < size_t_modulus)%Z -> nth_error v (Z.to_nat i) = Some a ->
  vec_index v i = Done a.
Proof.
  intros Hi Hn. unfold vec_index. rewrite Z.mod_small by exact Hi.
  assert (Hlt : (Z.to_nat i < length v)%nat)
    by (apply nth_error_Some; congruence).
  destruct (Z.ltb_spec i (Z.of_nat (length v))); [|lia].
  rewrite Hn. reflexivity.
Qed.

Lemma vec_index_minus_one {A : Type} (v : list A) :
  (Z.of_nat (length v) < size_t_modulus)%Z ->
  vec_index v (-1) = UndefinedBehavior.
Proof.
  intro H. unfold vec_index.
  replace ((-1) mod size_t_modulus)%Z with (size_t_modulus - 1)%Z
    by (unfold size_t_modulus; reflexivity).
  destruct (Z.ltb_spec (size_t_modulus - 1) (Z.of_nat (length v)));
    [lia|reflexivity].
Qed.

Lemma select_static (order : Z) (xs ws : list D) :
  (1 <= order)%Z -> int_range order ->
  nth_error (Lroots GetStaticTables) (Z.to_nat (order - 1)) = Some xs ->
  nth_error (Weight GetStaticTables) (Z.to_nat (order - 1)) = Some ws ->
  select_tables GetStaticTables new_tables order = (Done (xs, ws), true, []).
Proof.
  intros H1 [_ Hr] Hx Hw. unfold select_tables, to_unsigned.
  assert (Hlt : (Z.to_nat (order - 1) < length (Lroots GetStaticTables))%nat)
    by (apply nth_error_Some; congruence).
  assert (H32 : (2 ^ 31 < uint_modulus)%Z) by (unfold uint_modulus; lia).
  assert (H64 : (2 ^ 31 < size_t_modulus)%Z) by (unfold size_t_modulus; lia).
  rewrite Z.mod_small by lia.
  destruct (Z.leb_spec order (Z.of_nat (length (Lroots GetStaticTables))));
    [|lia].
  rewrite vec_index_nth with (a := xs) by (first [assumption | lia]).
  rewrite vec_index_nth with (a := ws) by (first [assumption | lia]).
  reflexivity.
Qed.

Lemma select_dynamic (order : Z) :
  int_range order ->
  (Z.of_nat (length (Lroots GetStaticTables)) < 2 ^ 31)%Z ->
  (order < 0 \/ Z.of_nat (length (Lroots GetStaticTables)) < order)%Z ->
  select_tables GetStaticTables new_tables order
  = (lroots <- vec_index (Lroots (new_tables order order)) 0%Z ;;
     weight <- vec_index (Weight (new_tables order order)) 0%Z ;;
     Done (lroots, weight),
     false, [EvNew order order; EvPrintTables order order]).
Proof.
  intros [Hlo Hhi] Hsize Hord. unfold select_tables, to_unsigned.
  assert (H32 : (uint_modulus = 2 * 2 ^ 31)%Z) by (unfold uint_modulus; lia).
  destruct (Z.leb_spec (order mod uint_modulus)
              (Z.of_nat (length (Lroots GetStaticTables)))) as [H|H];
    [|reflexivity].
  exfalso. destruct (Z.lt_ge_cases order 0) as [Hneg|Hpos].
  - assert (E : (order mod uint_modulus = order + uint_modulus)%Z).
    { symmetry. apply Z.mod_unique with (q := (-1)%Z); lia. }
    lia.
  - rewrite Z.mod_small in H by lia. lia.
Qed.

Lemma select_zero :
  (Z.of_nat (length (Lroots GetStaticTables)) < 2 ^ 31)%Z ->
  select_tables GetStaticTables new_tables 0
  = (UndefinedBehavior, true, []).
Proof.
  intro Hsize. unfold select_tables, to_unsigned. simpl (0 - 1)%Z.
  rewrite Z.mod_0_l by (unfold uint_modulus; lia).
  destruct (Z.leb_spec 0 (Z.of_nat (length (Lroots GetStaticTables))));
    [|lia].
  rewrite vec_index_minus_one by (unfold size_t_modulus; lia).
  reflexivity.
Qed.

End Routines.

(** ** The routines on machine numbers: a few runs *)

Example run_1D_square :
  Integrate1D binary64_static_tables binary64_new_tables 7%float
    (fun x => (x * x)%float) 0%float 1%float 2
  = (Done 0x1.5555555555556p-2%float, []).
Proof. vm_compute. reflexivity. Qed.

Example run_2D_product :
  Integrate2D binary64_static_tables binary64_new_tables 0%float
    (fun x y => (x * y)%float) 0%float 1%float 0%float 2%float 3
  = (Done 1%float, []).
Proof. vm_compute. reflexivity. Qed.

Example run_3D_volume :
  Integrate3D binary64_static_tables binary64_new_tables 0%float
    (fun _ _ _ => 1%float) 0%float 1%float 0%float 2%float 0%float 3%float 1
  = (Done 6%float, []).
Proof. vm_compute. reflexivity. Qed.

Example run_1D_order_zero :
  Integrate1D binary64_static_tables binary64_new_tables 0%float
    (fun x => x) 0%float 1%float 0
  = (UndefinedBehavior, []).
Proof. vm_compute. reflexivity. Qed.

Example run_1D_order_eleven :
  exists r, Integrate1D binary64_static_tables binary64_new_tables 0%float
    (fun x => (x * x)%float) 0%float 3%float 11
  = (Done r, dynamic_trace 11) /\ (8.5 <? r)%float = true
    /\ (r <? 9.5)%float = true.
Proof. eexists. vm_compute. repeat split. Qed.

(** ** Effects and the incoming result *)

Section Effects.

Context {D T : Type} {DO : DoubleOps D} {RO : ResultOps D T}.
Variable GetStaticTables : ChQuadratureTables D.
Variable new_tables : Z -> Z -> ChQuadratureTables D.

Lemma with_tables_trace (order : Z) (k : list D -> list D -> outcome T) :
  snd (with_tables GetStaticTables new_tables order k)
  = expected_trace GetStaticTables order
      (is_done (fst (with_tables GetStaticTables new_tables order k))).
Proof.
  unfold with_tables, expected_trace, select_tables.
  destruct (to_unsigned order <=? Z.of_nat (length (Lroots GetStaticTables)))%Z.
  - unfold finish.
    destruct (tabs <- _ ;; k (fst tabs) (snd tabs)); reflexivity.
  - unfold finish.
    destruct (tabs <- _ ;; k (fst tabs) (snd tabs)); reflexivity.
Qed.

Lemma with_tables_ext (order : Z) (k k' : list D -> list D -> outcome T) :
  (forall lroots weight, k lroots weight = k' lroots weight) ->
  with_tables GetStaticTables new_tables order k
  = with_tables GetStaticTables new_tables order k'.
Proof.
  intro H. unfold with_tables.
  destruct (select_tables GetStaticTables new_tables order) as [[sel st] tr].
  destruct sel as [[lroots weight]| |]; simpl; try reflexivity.
  rewrite H. reflexivity.
Qed.

Lemma with_tables_static (order : Z) (xs ws : list D)
  (k : list D -> list D -> outcome T) :
  (1 <= order)%Z -> int_range order ->
  nth_error (Lroots GetStaticTables) (Z.to_nat (order - 1)) = Some xs ->
  nth_error (Weight GetStaticTables) (Z.to_nat (order - 1)) = Some ws ->
  with_tables GetStaticTables new_tables order k = (k xs ws, []).
Proof.
  intros H1 Hr Hx Hw. unfold with_tables.
  rewrite (select_static GetStaticTables new_tables H1 Hr Hx Hw).
  simpl. unfold finish. destruct (k xs ws); reflexivity.
Qed.

Lemma with_tables_dynamic (order : Z) (xs ws : list D)
  (k : list D -> list D -> outcome T) :
  int_range order ->
  (Z.of_nat (length (Lroots GetStaticTables)) < 2 ^ 31)%Z ->
  (order < 0 \/ Z.of_nat (length (Lroots GetStaticTables)) < order)%Z ->
  Lroots (new_tables order order) = [xs] ->
  Weight (new_tables order order) = [ws] ->
  with_tables GetStaticTables new_tables order k
  = finish order false [EvNew order order; EvPrintTables order order]
      (k xs ws).
Proof.
  intros Hr Hsize Hord Hx Hw. unfold with_tables.
  rewrite (select_dynamic GetStaticTables new_tables Hr Hsize Hord).
  rewrite Hx, Hw. reflexivity.
Qed.

Lemma gauss_rule1D_incoming (lroots weight : list D) (r r' : T)
  (f : D -> T) (a b : D) :
  t_scale r d_zero = t_scale r' d_zero ->
  gauss_rule1D lroots weight r f a b = gauss_rule1D lroots weight r' f a b.
Proof. intro H. unfold gauss_rule1D, sum1D. rewrite H. reflexivity. Qed.

Lemma gauss_rule2D_incoming (lroots weight : list D) (r r' : T)
  (f : D -> D -> T) (Xa Xb Ya Yb : D) :
  t_scale r d_zero = t_scale r' d_zero ->
  gauss_rule2D lroots weight r f Xa Xb Ya Yb
  = gauss_rule2D lroots weight r' f Xa Xb Ya Yb.
Proof. intro H. unfold gauss_rule2D, sum2D. rewrite H. reflexivity. Qed.

Lemma gauss_rule3D_incoming (lroots weight : list D) (r r' : T)
  (f : D -> D -> D -> T) (Xa Xb Ya Yb Za Zb : D) :
  t_scale r d_zero = t_scale r' d_zero ->
  gauss_rule3D lroots weight r f Xa Xb Ya Yb Za Zb
  = gauss_rule3D lroots weight r' f Xa Xb Ya Yb Za Zb.
Proof. intro H. unfold gauss_rule3D, sum3D. rewrite H. reflexivity. Qed.

End Effects.

(** ** Orders beyond the static table *)

Lemma nodes_outcome_same_length {D T : Type} (lroots weight : list D) (r : T) :
  length lroots = length weight -> nodes_outcome lroots weight r = Done r.
Proof.
  intro H. unfold nodes_outcome. rewrite H, Nat.leb_refl. reflexivity.
Qed.

(** C2.  For an order (an [int]) greater than the largest order of the
    static table, [Integrate1D] returns: it builds
    [ChQuadratureTables(order, order)], whose single entry holds the
    [order] nodes and weights, returns the weighted sum of the rule on
    that entry, and deletes the table before returning. *)
Theorem Integrate1D_beyond_static_range
  {D T : Type} {DO : DoubleOps D} {RO : ResultOps D T}
  (GetStaticTables : ChQuadratureTables D)
  (new_tables : Z -> Z -> ChQuadratureTables D)
  (result : T) (integrand : D -> T) (a b : D) (order : Z) (xs ws : list D) :
  int_range order ->
  (Z.of_nat (length (Lroots GetStaticTables)) < order)%Z ->
  single_order order (new_tables order order) xs ws ->
  Integrate1D GetStaticTables new_tables result integrand a b order
  = (Done (gauss_rule1D xs ws result integrand a b), dynamic_trace order).
Proof.
  intros Hr Hord (Hx & Hw & Lx & Lw).
  rewrite Integrate1D_eq.
  rewrite with_tables_dynamic with (xs := xs) (ws := ws);
    try assumption; try (destruct Hr; lia).
  rewrite nodes_outcome_same_length by lia.
  reflexivity.
Qed.

Lemma Integrate1D_beyond_static_range_witness :
  Integrate1D binary64_static_tables binary64_new_tables 0%float
    (fun x => (x * x)%float) 0%float 3%float 11
  = (Done (gauss_rule1D (fst (binary64_entry 11)) (snd (binary64_entry 11))
             0%float (fun x => (x * x)%float) 0%float 3%float),
     dynamic_trace 11).
Proof.
  apply (Integrate1D_beyond_static_range
           binary64_static_tables binary64_new_tables 0%float
           (fun x => (x * x)%float) 0%float 3%float (order := 11)).
  - unfold int_range. lia.
  - vm_compute. reflexivity.
  - repeat split.
Defined.

(** ** Purity *)

(** C3 (as amended).  The value returned by [Integrate1D], [Integrate2D]
    and [Integrate3D] depends on the incoming [result] only through
    [result *= 0]: two incoming values with the same product by zero give
    the same outcome and the same events.  The events of a call are those
    of [expected_trace]: none when the order is within the static table;
    otherwise the allocation of a private table, its printing, and its
    release when the call returns. *)
Theorem Integrate_incoming_result_and_effects
  {D T : Type} {DO : DoubleOps D} {RO : ResultOps D T}
  (GetStaticTables : ChQuadratureTables D)
  (new_tables : Z -> Z -> ChQuadratureTables D)
  (r r' : T) (f1 : D -> T) (f2 : D -> D -> T) (f3 : D -> D -> D -> T)
  (Xa Xb Ya Yb Za Zb : D) (order : Z) :
  t_scale r d_zero = t_scale r' d_zero ->
  (Integrate1D GetStaticTables new_tables r f1 Xa Xb order
   = Integrate1D GetStaticTables new_tables r' f1 Xa Xb order
   /\ snd (Integrate1D GetStaticTables new_tables r f1 Xa Xb order)
      = expected_trace GetStaticTables order
          (is_done (fst (Integrate1D GetStaticTables new_tables r f1
                           Xa Xb order))))
  /\ (Integrate2D GetStaticTables new_tables r f2 Xa Xb Ya Yb order
      = Integrate2D GetStaticTables new_tables r' f2 Xa Xb Ya Yb order
      /\ snd (Integrate2D GetStaticTables new_tables r f2 Xa Xb Ya Yb order)
         = expected_trace GetStaticTables order
             (is_done (fst (Integrate2D GetStaticTables new_tables r f2
                              Xa Xb Ya Yb order))))
  /\ (Integrate3D GetStaticTables new_tables r f3 Xa Xb Ya Yb Za Zb order
      = Integrate3D GetStaticTables new_tables r' f3 Xa Xb Ya Yb Za Zb order
      /\ snd (Integrate3D GetStaticTables new_tables r f3
                Xa Xb Ya Yb Za Zb order)
         = expected_trace GetStaticTables order
             (is_done (fst (Integrate3D GetStaticTables new_tables r f3
                              Xa Xb Ya Yb Za Zb order)))).
Proof.
  intro H. rewrite !Integrate1D_eq, !Integrate2D_eq, !Integrate3D_eq.
  repeat split; try apply with_tables_trace; apply with_tables_ext;
    intros lroots weight; f_equal.
  - apply gauss_rule1D_incoming, H.
  - apply gauss_rule2D_incoming, H.
  - apply gauss_rule3D_incoming, H.
Qed.

Lemma Integrate_incoming_result_and_effects_witness :
  Integrate1D binary64_static_tables binary64_new_tables 1%float
    (fun x => x) 0%float 1%float 2
  = Integrate1D binary64_static_tables binary64_new_tables 2%float
      (fun x => x) 0%float 1%float 2.
Proof.
  exact (proj1 (proj1
    (Integrate_incoming_result_and_effects
       binary64_static_tables binary64_new_tables 1%float 2%float
       (fun x => x) (fun x _ => x) (fun x _ _ => x)
       0%float 1%float 0%float 1%float 0%float 1%float 2 eq_refl))).
Defined.

(** C3, as stated, fails twice: with an order beyond the static table the
    call allocates, prints and deletes a table; and an incoming [result]
    that is not a number survives [result *= 0]. *)
Lemma Integrate1D_not_pure :
  snd (Integrate1D binary64_static_tables binary64_new_tables 0%float
         (fun x => x) 0%float 1%float 11)
  = [EvNew 11 11; EvPrintTables 11 11; EvDelete 11 11]
  /\ fst (Integrate1D binary64_static_tables binary64_new_tables 0%float
            (fun x => x) 0%float 1%float 2) = Done 0.5%float
  /\ fst (Integrate1D binary64_static_tables binary64_new_tables nan
            (fun x => x) 0%float 1%float 2) = Done nan.
Proof. vm_compute. repeat split. Qed.

(** ** Table accesses *)

Section Accesses.

Context {D T : Type} {DO : DoubleOps D} {RO : ResultOps D T}.
Variable GetStaticTables : ChQuadratureTables D.
Variable new_tables : Z -> Z -> ChQuadratureTables D.
Variable N : nat.
Hypothesis shape : table_shape N GetStaticTables.
Hypothesis small : (Z.of_nat N < 2 ^ 31)%Z.

Lemma shape_entry (order : Z) :
  (1 <= order <= Z.of_nat N)%Z ->
  exists xs ws,
    nth_error (Lroots GetStaticTables) (Z.to_nat (order - 1)) = Some xs /\
    nth_error (Weight GetStaticTables) (Z.to_nat (order - 1)) = Some ws /\
    length xs = length ws.
Proof.
  intros Hord. destruct shape as (Lr & Lw & Hent).
  destruct (nth_error (Lroots GetStaticTables) (Z.to_nat (order - 1)))
    as [xs|] eqn:Ex.
  2:{ apply nth_error_None in Ex. lia. }
  destruct (nth_error (Weight GetStaticTables) (Z.to_nat (order - 1)))
    as [ws|] eqn:Ew.
  2:{ apply nth_error_None in Ew. lia. }
  exists xs, ws. destruct (Hent _ _ _ Ex Ew) as [Hx Hw].
  repeat split. congruence.
Qed.

Lemma with_tables_in_range (order : Z) (g : list D -> list D -> T) :
  (1 <= order <= Z.of_nat N)%Z ->
  is_done (fst (with_tables GetStaticTables new_tables order
                  (fun lroots weight =>
                     nodes_outcome lroots weight (g lroots weight))))
  = true.
Proof.
  intro Hord. destruct (shape_entry Hord) as (xs & ws & Hx & Hw & Hlen).
  rewrite with_tables_static with (xs := xs) (ws := ws);
    try assumption; try lia.
  - simpl. rewrite nodes_outcome_same_length by exact Hlen. reflexivity.
  - unfold int_range. lia.
Qed.

Lemma with_tables_zero (k : list D -> list D -> outcome T) :
  fst (with_tables GetStaticTables new_tables 0 k) = UndefinedBehavior.
Proof.
  unfold with_tables. rewrite select_zero.
  - reflexivity.
  - destruct shape as (Lr & _). lia.
Qed.

End Accesses.

Lemma binary64_static_shape : table_shape 10 binary64_static_tables.
Proof.
  split; [reflexivity|]. split; [reflexivity|].
  intros n xs ws.
  do 10 (destruct n as [|n];
         [simpl; intros Hx Hw; inversion Hx; inversion Hw; split;
          reflexivity|]).
  simpl. destruct n; discriminate.
Qed.

(** C6 (as amended).  With a static table that holds the orders [1 .. N],
    entry [n-1] of [n] roots and [n] weights: for [1 <= order <= N] the
    three routines return, so every [Lroots[order-1]], [Weight[order-1]]
    and [at(i)] is within bounds; for [order = 0] the static table is
    indexed at [order - 1], outside of it, and the behaviour is undefined;
    for [order < 0] no argument is rejected either, but the unsigned
    comparison sends the call to the dynamic path, which builds
    [ChQuadratureTables(order, order)] and indexes that table at [0]. *)
Theorem Integrate_table_accesses
  {D T : Type} {DO : DoubleOps D} {RO : ResultOps D T}
  (GetStaticTables : ChQuadratureTables D)
  (new_tables : Z -> Z -> ChQuadratureTables D) (N : nat)
  (r : T) (f1 : D -> T) (f2 : D -> D -> T) (f3 : D -> D -> D -> T)
  (Xa Xb Ya Yb Za Zb : D) (order : Z) :
  table_shape N GetStaticTables -> (Z.of_nat N < 2 ^ 31)%Z ->
  int_range order ->
  ((1 <= order <= Z.of_nat N)%Z ->
   is_done (fst (Integrate1D GetStaticTables new_tables r f1 Xa Xb order))
   = true
   /\ is_done (fst (Integrate2D GetStaticTables new_tables r f2
                      Xa Xb Ya Yb order)) = true
   /\ is_done (fst (Integrate3D GetStaticTables new_tables r f3
                      Xa Xb Ya Yb Za Zb order)) = true)
  /\ (order = 0%Z ->
      fst (Integrate1D GetStaticTables new_tables r f1 Xa Xb order)
      = UndefinedBehavior
      /\ fst (Integrate2D GetStaticTables new_tables r f2 Xa Xb Ya Yb order)
         = UndefinedBehavior
      /\ fst (Integrate3D GetStaticTables new_tables r f3
                Xa Xb Ya Yb Za Zb order)
         = UndefinedBehavior)
  /\ ((order < 0)%Z ->
      select_tables GetStaticTables new_tables order
      = (lroots <- vec_index (Lroots (new_tables order order)) 0%Z ;;
         weight <- vec_index (Weight (new_tables order order)) 0%Z ;;
         Done (lroots, weight),
         false, [EvNew order order; EvPrintTables order order])).
Proof.
  intros shape small Hr.
  rewrite Integrate1D_eq, Integrate2D_eq, Integrate3D_eq.
  split; [|split].
  - intro Hord. repeat split; eapply with_tables_in_range; eassumption.
  - intros ->. repeat split; eapply with_tables_zero; eassumption.
  - intro Hneg. apply select_dynamic; try assumption.
    + destruct shape as (-> & _). exact small.
    + left. exact Hneg.
Qed.

Lemma Integrate_table_accesses_witness :
  is_done (fst (Integrate1D binary64_static_tables binary64_new_tables
                  0%float (fun x => x) 0%float 1%float 3)) = true.
Proof.
  refine (proj1 (proj1
    (Integrate_table_accesses
       binary64_new_tables 0%float
       (fun x => x) (fun x _ => x) (fun x _ _ => x)
       0%float 1%float 0%float 1%float 0%float 1%float (order := 3)
       binary64_static_shape _ _) _)).
  - reflexivity.
  - unfold int_range. lia.
  - lia.
Defined.

(** C6, as stated, fails for a negative order: the comparison
    [(unsigned int)order <= Lroots.size()] is false, the static table is
    not indexed at all, and with a constructor that gives an order below 1
    an entry without nodes the call returns. *)
Lemma negative_order_takes_dynamic_path :
  (-1 < 1)%Z
  /\ select_tables binary64_static_tables binary64_new_tables (-1)
     = (Done ([], []), false, [EvNew (-1) (-1); EvPrintTables (-1) (-1)])
  /\ Integrate1D binary64_static_tables binary64_new_tables 0%float
       (fun x => x) 0%float 1%float (-1)
     = (Done 0%float, dynamic_trace (-1)).
Proof. vm_compute. repeat split. Qed.

(** ** The rule over the real numbers *)

Section RealSums.

Local Open Scope R_scope.

Lemma sweep_add (k : R -> R -> R -> R) (F : R -> R -> R)
  (nodes : list (R * R)) (acc : R) :
  (forall x w a, k x w a = a + F x w) ->
  sweep k nodes acc = acc + node_sum F nodes.
Proof.
  intro Hk. unfold sweep. revert acc.
  induction nodes as [|[x w] rest IH]; intro acc; simpl.
  - lra.
  - rewrite IH, Hk. lra.
Qed.

Lemma node_sum_ext (F G : R -> R -> R) (nodes : list (R * R)) :
  (forall x w, F x w = G x w) -> node_sum F nodes = node_sum G nodes.
Proof.
  intro H. induction nodes as [|[x w] rest IH]; simpl; [reflexivity|].
  rewrite H, IH. reflexivity.
Qed.

Lemma node_sum_scale (c : R) (F : R -> R -> R) (nodes : list (R * R)) :
  node_sum (fun x w => c * F x w) nodes = c * node_sum F nodes.
Proof.
  induction nodes as [|[x w] rest IH]; simpl; [lra|]. rewrite IH. lra.
Qed.

Lemma node_sum_scale_r (c : R) (F : R -> R -> R) (nodes : list (R * R)) :
  node_sum (fun x w => F x w * c) nodes = node_sum F nodes * c.
Proof.
  induction nodes as [|[x w] rest IH]; simpl; [lra|]. rewrite IH. lra.
Qed.

Lemma node_sum_plus (F G : R -> R -> R) (nodes : list (R * R)) :
  node_sum (fun x w => F x w + G x w) nodes
  = node_sum F nodes + node_sum G nodes.
Proof.
  induction nodes as [|[x w] rest IH]; simpl; [lra|]. rewrite IH. lra.
Qed.

Lemma node_sum_zero (nodes : list (R * R)) :
  node_sum (fun _ _ => 0) nodes = 0.
Proof. induction nodes as [|[x w] rest IH]; simpl; [|rewrite IH]; lra. Qed.

Lemma gauss_rule1D_R (xs ws : list R) (r : R) (f : R -> R) (a b : R) :
  gauss_rule1D xs ws r f a b
  = wsum (fun x => f (mapped a b x)) xs ws * half_width a b.
Proof.
  unfold gauss_rule1D, sum1D, wsum.
  rewrite sweep_add with (F := fun x w => f (mapped a b x) * w).
  - simpl. f_equal. lra.
  - intros x w acc. reflexivity.
Qed.

Lemma gauss_rule2D_R (xs ws : list R) (r : R) (f : R -> R -> R)
  (Xa Xb Ya Yb : R) :
  gauss_rule2D xs ws r f Xa Xb Ya Yb
  = node_sum (fun x wx =>
                node_sum (fun y wy =>
                            f (mapped Xa Xb x) (mapped Ya Yb y) * (wx * wy))
                  (combine xs ws))
      (combine xs ws)
    * (half_width Xa Xb * half_width Ya Yb).
Proof.
  unfold gauss_rule2D, sum2D.
  rewrite sweep_add
    with (F := fun x wx =>
                 node_sum (fun y wy =>
                             f (mapped Xa Xb x) (mapped Ya Yb y) * (wx * wy))
                   (combine xs ws)).
  - simpl. f_equal. lra.
  - intros x wx acc. apply sweep_add. intros y wy acc'. reflexivity.
Qed.

Lemma gauss_rule3D_R (xs ws : list R) (r : R) (f : R -> R -> R -> R)
  (Xa Xb Ya Yb Za Zb : R) :
  gauss_rule3D xs ws r f Xa Xb Ya Yb Za Zb
  = node_sum (fun x wx =>
      node_sum (fun y wy =>
        node_sum (fun z wz =>
                    f (mapped Xa Xb x) (mapped Ya Yb y) (mapped Za Zb z)
                    * (wx * wy * wz))
          (combine xs ws))
        (combine xs ws))
      (combine xs ws)
    * (half_width Xa Xb * half_width Ya Yb * half_width Za Zb).
Proof.
  unfold gauss_rule3D, sum3D.
  rewrite sweep_add
    with (F := fun x wx =>
      node_sum (fun y wy =>
        node_sum (fun z wz =>
                    f (mapped Xa Xb x) (mapped Ya Yb y) (mapped Za Zb z)
                    * (wx * wy * wz))
          (combine xs ws))
        (combine xs ws)).
  - simpl. f_equal. lra.
  - intros x wx acc. apply sweep_add. intros y wy acc'.
    apply sweep_add. intros z wz acc''. reflexivity.
Qed.

(** A double sum of products is the product of the sums. *)
Lemma node_sum_separable (G H : R -> R -> R) (nodes nodes' : list (R * R)) :
  node_sum (fun x wx => node_sum (fun y wy => G x wx * H y wy) nodes') nodes
  = node_sum G nodes * node_sum H nodes'.
Proof.
  rewrite <- node_sum_scale_r. apply node_sum_ext. intros x wx.
  apply node_sum_scale.
Qed.

Lemma gauss_rule2D_separable (xs ws : list R) (r r1 r2 : R)
  (g h : R -> R) (Xa Xb Ya Yb : R) :
  gauss_rule2D xs ws r (fun x y => g x * h y) Xa Xb Ya Yb
  = gauss_rule1D xs ws r1 g Xa Xb * gauss_rule1D xs ws r2 h Ya Yb.
Proof.
  rewrite gauss_rule2D_R, !gauss_rule1D_R. unfold wsum.
  rewrite node_sum_ext
    with (G := fun x wx =>
                 node_sum (fun y wy =>
                             (g (mapped Xa Xb x) * wx)
                             * (h (mapped Ya Yb y) * wy))
                   (combine xs ws)).
  - rewrite node_sum_separable. ring.
  - intros x wx. apply node_sum_ext. intros y wy. ring.
Qed.

Lemma gauss_rule3D_separable (xs ws : list R) (r r1 r2 r3 : R)
  (g h k : R -> R) (Xa Xb Ya Yb Za Zb : R) :
  gauss_rule3D xs ws r (fun x y z => g x * h y * k z) Xa Xb Ya Yb Za Zb
  = gauss_rule1D xs ws r1 g Xa Xb * gauss_rule1D xs ws r2 h Ya Yb
    * gauss_rule1D xs ws r3 k Za Zb.
Proof.
  rewrite gauss_rule3D_R, !gauss_rule1D_R. unfold wsum.
  rewrite node_sum_ext
    with (G := fun x wx =>
                 node_sum (fun y wy =>
                             (g (mapped Xa Xb x) * wx)
                             * (h (mapped Ya Yb y) * wy
                                * node_sum (fun z wz =>
                                              k (mapped Za Zb z) * wz)
                                    (combine xs ws)))
                   (combine xs ws)).
  - rewrite node_sum_separable.
    rewrite node_sum_scale_r. ring.
  - intros x wx. apply node_sum_ext. intros y wy.
    transitivity
      (node_sum (fun z wz =>
                   (g (mapped Xa Xb x) * wx * (h (mapped Ya Yb y) * wy))
                   * (k (mapped Za Zb z) * wz))
         (combine xs ws)).
    + apply node_sum_ext. intros z wz. ring.
    + rewrite node_sum_scale. ring.
Qed.

End RealSums.

Lemma fst_finish {T : Type} (order : Z) (static_tables : bool) (tr : list event)
  (r : outcome T) : fst (finish order static_tables tr r) = r.
Proof. unfold finish. destruct r; reflexivity. Qed.

Lemma fst_with_tables {D T : Type} (st : ChQuadratureTables D)
  (nt : Z -> Z -> ChQuadratureTables D) (order : Z)
  (k : list D -> list D -> outcome T) :
  fst (with_tables st nt order k)
  = (tabs <- fst (fst (select_tables st nt order)) ;; k (fst tabs) (snd tabs)).
Proof.
  unfold with_tables.
  destruct (select_tables st nt order) as [[sel static_tables] tr].
  apply fst_finish.
Qed.

(** C5 (as amended).  In exact arithmetic (over the reals), for every
    table, every order and every rectangle, [Integrate2D] of [g x * h y]
    is the product of [Integrate1D] of [g] and of [h], and [Integrate3D]
    of [g x * h y * k z] is the product of the three [Integrate1D]; when
    the order or the table makes one routine fail, the others fail
    alike. *)
Theorem Integrate_separable
  (GetStaticTables : ChQuadratureTables R)
  (new_tables : Z -> Z -> ChQuadratureTables R)
  (r r1 r2 r3 : R) (g h k : R -> R) (Xa Xb Ya Yb Za Zb : R) (order : Z) :
  fst (Integrate2D GetStaticTables new_tables r (fun x y => (g x * h y)%R)
         Xa Xb Ya Yb order)
  = lift2 Rmult
      (fst (Integrate1D GetStaticTables new_tables r1 g Xa Xb order))
      (fst (Integrate1D GetStaticTables new_tables r2 h Ya Yb order))
  /\ fst (Integrate3D GetStaticTables new_tables r
            (fun x y z => (g x * h y * k z)%R) Xa Xb Ya Yb Za Zb order)
     = lift2 Rmult
         (lift2 Rmult
            (fst (Integrate1D GetStaticTables new_tables r1 g Xa Xb order))
            (fst (Integrate1D GetStaticTables new_tables r2 h Ya Yb order)))
         (fst (Integrate1D GetStaticTables new_tables r3 k Za Zb order)).
Proof.
  rewrite !Integrate1D_eq, Integrate2D_eq, Integrate3D_eq, !fst_with_tables.
  destruct (fst (fst (select_tables GetStaticTables new_tables order)))
    as [[lroots weight]| |]; simpl; try (split; reflexivity).
  unfold nodes_outcome.
  destruct (length lroots <=? length weight)%nat; simpl;
    try (split; reflexivity).
  split; f_equal.
  - apply gauss_rule2D_separable.
  - apply gauss_rule3D_separable.
Qed.

(** C5, as stated, fails on binary64: the product of the two
    one-dimensional results and the two-dimensional result are rounded
    differently.  With order 1 (the node 0 and the weight 2) and the
    constant factors 0.1 and 0.3 over [[0, 3] x [0, 1]]; with order 2 and
    [x * x] times [y] over [[0, 1] x [0, 3]]. *)
Lemma Integrate2D_product_rounding :
  lift2 PrimFloat.mul
    (fst (Integrate1D binary64_static_tables binary64_new_tables 0%float
            (fun _ => 0x1.999999999999ap-4%float) 0%float 3%float 1))
    (fst (Integrate1D binary64_static_tables binary64_new_tables 0%float
            (fun _ => 0x1.3333333333333p-2%float) 0%float 1%float 1))
  = Done 0x1.70a3d70a3d70bp-4%float
  /\ fst (Integrate2D binary64_static_tables binary64_new_tables 0%float
            (fun _ _ => (0x1.999999999999ap-4 * 0x1.3333333333333p-2)%float)
            0%float 3%float 0%float 1%float 1)
     = Done 0x1.70a3d70a3d70ap-4%float
  /\ lift2 PrimFloat.mul
       (fst (Integrate1D binary64_static_tables binary64_new_tables 0%float
               (fun x => (x * x)%float) 0%float 1%float 2))
       (fst (Integrate1D binary64_static_tables binary64_new_tables 0%float
               (fun y => y) 0%float 3%float 2))
     = Done 0x1.8000000000001p+0%float
  /\ fst (Integrate2D binary64_static_tables binary64_new_tables 0%float
            (fun x y => ((x * x) * y)%float)
            0%float 1%float 0%float 3%float 2)
     = Done 0x1.8p+0%float.
Proof. vm_compute. repeat split. Qed.

(** ** Reversed bounds *)

Section Mirror.

Local Open Scope R_scope.

Lemma node_sum_app (F : R -> R -> R) (l l' : list (R * R)) :
  node_sum F (l ++ l') = node_sum F l + node_sum F l'.
Proof.
  induction l as [|[x w] l IH]; simpl; [lra|]. rewrite IH. lra.
Qed.

Lemma node_sum_rev (F : R -> R -> R) (l : list (R * R)) :
  node_sum F (rev l) = node_sum F l.
Proof.
  induction l as [|[x w] l IH]; simpl; [reflexivity|].
  rewrite node_sum_app, IH. simpl. lra.
Qed.

Lemma combine_app_same {A B : Type} (l1 l2 : list A) (m1 m2 : list B) :
  length l1 = length m1 ->
  combine (l1 ++ l2) (m1 ++ m2) = combine l1 m1 ++ combine l2 m2.
Proof.
  revert m1. induction l1 as [|a l1 IH]; intros [|b m1] H; simpl in *;
    try discriminate; [reflexivity|].
  f_equal. apply IH. lia.
Qed.

Lemma combine_rev_same {A B : Type} (l : list A) (m : list B) :
  length l = length m -> combine (rev l) (rev m) = rev (combine l m).
Proof.
  revert m. induction l as [|a l IH]; intros [|b m] H; simpl in *;
    try discriminate; [reflexivity|].
  rewrite combine_app_same by (rewrite !length_rev; lia).
  rewrite IH by lia. reflexivity.
Qed.

Lemma node_sum_map_fst (F : R -> R -> R) (u : R -> R) (xs ws : list R) :
  node_sum F (combine (map u xs) ws)
  = node_sum (fun x w => F (u x) w) (combine xs ws).
Proof.
  revert ws. induction xs as [|x xs IH]; intros [|w ws]; simpl;
    try reflexivity.
  rewrite IH. reflexivity.
Qed.

Lemma wsum_mirror (g : R -> R) (xs ws : list R) :
  length xs = length ws -> symmetric_nodes xs ws ->
  wsum (fun x => g (- x)) xs ws = wsum g xs ws.
Proof.
  intros Hlen [Hx Hw]. unfold wsum.
  rewrite <- Hx at 2. rewrite <- Hw at 2.
  rewrite combine_rev_same by (rewrite length_map; exact Hlen).
  rewrite node_sum_rev, node_sum_map_fst. reflexivity.
Qed.

Lemma wsum_ext (g g' : R -> R) (xs ws : list R) :
  (forall x, g x = g' x) -> wsum g xs ws = wsum g' xs ws.
Proof.
  intro H. unfold wsum. apply node_sum_ext. intros x w. rewrite H.
  reflexivity.
Qed.

Lemma gauss_rule1D_reversed (xs ws : list R) (r r' : R) (f : R -> R)
  (a b : R) :
  length xs = length ws -> symmetric_nodes xs ws ->
  gauss_rule1D xs ws r f b a = - gauss_rule1D xs ws r' f a b.
Proof.
  intros Hlen Hsym. rewrite !gauss_rule1D_R.
  rewrite <- (wsum_mirror (fun x => f (mapped a b x)) Hlen Hsym).
  rewrite wsum_ext with (g' := fun x => f (mapped a b (- x))).
  - unfold half_width. simpl. lra.
  - intro x. f_equal. unfold mapped, half_width, midpoint. simpl. lra.
Qed.

End Mirror.

(** ** Polynomials *)

Section Polynomials.

Local Open Scope R_scope.

Lemma peval_padd (p q : list R) (x : R) :
  peval (padd p q) x = peval p x + peval q x.
Proof.
  revert q. induction p as [|a p IH]; intros [|b q]; simpl; try lra.
  rewrite IH. lra.
Qed.

Lemma peval_pscale (c : R) (p : list R) (x : R) :
  peval (pscale c p) x = c * peval p x.
Proof.
  unfold pscale. induction p as [|a p IH]; simpl; [lra|].
  rewrite IH. lra.
Qed.

Lemma peval_pcomp (p : list R) (c1 c2 t : R) :
  peval (pcomp p c1 c2) t = peval p (c1 * t + c2).
Proof.
  induction p as [|a p IH]; [reflexivity|].
  cbn [pcomp]. rewrite !peval_padd. cbn [peval].
  rewrite !peval_pscale, IH. lra.
Qed.

Lemma length_padd (p q : list R) :
  length (padd p q) = Nat.max (length p) (length q).
Proof.
  revert q. induction p as [|a p IH]; intros [|b q]; simpl; try reflexivity.
  rewrite IH. reflexivity.
Qed.

Lemma length_pcomp (p : list R) (c1 c2 : R) :
  length (pcomp p c1 c2) = length p.
Proof.
  induction p as [|a p IH]; [reflexivity|].
  cbn [pcomp]. rewrite !length_padd. cbn [length]. unfold pscale.
  rewrite !length_map, IH. lia.
Qed.

Lemma length_pderiv_from (k : nat) (p : list R) :
  length (pderiv_from k p) = length p.
Proof.
  revert k. induction p as [|a p IH]; intro k; simpl; [reflexivity|].
  rewrite IH. reflexivity.
Qed.

Lemma length_pderiv (p : list R) : length (pderiv p) = pred (length p).
Proof. destruct p; simpl; [reflexivity|apply length_pderiv_from]. Qed.

Lemma length_pantideriv (p : list R) :
  length (pantideriv p) = S (length p).
Proof.
  unfold pantideriv. simpl. f_equal. generalize 0%nat.
  induction p as [|a p IH]; intro k; simpl; [reflexivity|].
  rewrite IH. reflexivity.
Qed.

(** *** The formal derivative *)

Lemma pderiv_from_padd (k : nat) (p q : list R) :
  pderiv_from k (padd p q) = padd (pderiv_from k p) (pderiv_from k q).
Proof.
  revert k q. induction p as [|a p IH]; intros k [|b q]; simpl;
    try reflexivity.
  rewrite IH. f_equal. ring.
Qed.

Lemma pderiv_from_pscale (k : nat) (c : R) (p : list R) :
  pderiv_from k (pscale c p) = pscale c (pderiv_from k p).
Proof.
  unfold pscale. revert k.
  induction p as [|a p IH]; intro k; simpl; [reflexivity|].
  rewrite IH. f_equal. ring.
Qed.

Lemma peval_pderiv_from_S (k : nat) (p : list R) (x : R) :
  peval (pderiv_from (S k) p) x = peval (pderiv_from k p) x + peval p x.
Proof.
  revert k. induction p as [|a p IH]; intro k; simpl; [lra|].
  rewrite IH. destruct k; simpl; lra.
Qed.

Lemma peval_pderiv_from_0 (p : list R) (x : R) :
  peval (pderiv_from 0 p) x = x * peval (pderiv p) x.
Proof. destruct p as [|a p]; simpl; lra. Qed.

(** The derivative of [a + x * p]. *)
Lemma peval_pderiv_cons (a : R) (p : list R) (x : R) :
  peval (pderiv (a :: p)) x = x * peval (pderiv p) x + peval p x.
Proof.
  simpl. rewrite peval_pderiv_from_S, peval_pderiv_from_0. reflexivity.
Qed.

Lemma peval_pderiv_padd (p q : list R) (x : R) :
  peval (pderiv (padd p q)) x = peval (pderiv p) x + peval (pderiv q) x.
Proof.
  destruct p as [|a p], q as [|b q]; simpl; try lra.
  rewrite pderiv_from_padd, peval_padd. reflexivity.
Qed.

Lemma peval_pderiv_pscale (c : R) (p : list R) (x : R) :
  peval (pderiv (pscale c p)) x = c * peval (pderiv p) x.
Proof.
  destruct p as [|a p]; simpl; [lra|].
  change (map (Rmult c) p) with (pscale c p).
  rewrite pderiv_from_pscale, peval_pscale. reflexivity.
Qed.

(** The chain rule for an affine change of variable. *)
Lemma peval_pderiv_pcomp (p : list R) (c1 c2 t : R) :
  peval (pderiv (pcomp p c1 c2)) t
  = c1 * peval (pderiv p) (c1 * t + c2).
Proof.
  induction p as [|a p IH]; [simpl; lra|].
  rewrite peval_pderiv_cons.
  cbn [pcomp].
  rewrite !peval_pderiv_padd.
  rewrite !peval_pderiv_cons, !peval_pderiv_pscale, peval_pscale.
  rewrite IH, peval_pcomp. simpl. lra.
Qed.

Lemma pderiv_pantideriv (p : list R) : pderiv (pantideriv p) = p.
Proof.
  unfold pantideriv. simpl. generalize 0%nat.
  induction p as [|a p IH]; intro k; [reflexivity|].
  cbn [pantideriv_from pderiv_from]. rewrite IH. f_equal.
  field. apply not_0_INR. discriminate.
Qed.

End Polynomials.

(** ** Moments of a Gauss-Legendre entry *)

Section Moments.

Local Open Scope R_scope.

Lemma wsum_plus (g h : R -> R) (xs ws : list R) :
  wsum (fun x => g x + h x) xs ws = wsum g xs ws + wsum h xs ws.
Proof.
  unfold wsum. rewrite <- node_sum_plus. apply node_sum_ext.
  intros x w. ring.
Qed.

Lemma wsum_scale (c : R) (g : R -> R) (xs ws : list R) :
  wsum (fun x => c * g x) xs ws = c * wsum g xs ws.
Proof.
  unfold wsum. rewrite <- node_sum_scale. apply node_sum_ext.
  intros x w. ring.
Qed.

Lemma wsum_Forall_ext (g h : R -> R) (xs ws : list R) :
  Forall (fun x => g x = h x) xs -> wsum g xs ws = wsum h xs ws.
Proof.
  unfold wsum. intro H. revert ws.
  induction H as [|x xs Hx _ IH]; intros [|w ws]; simpl; try reflexivity.
  rewrite Hx, IH. reflexivity.
Qed.

Lemma wsum_zero (xs ws : list R) : wsum (fun _ => 0) xs ws = 0.
Proof.
  unfold wsum. rewrite node_sum_ext with (G := fun _ _ => 0).
  - apply node_sum_zero.
  - intros x w. ring.
Qed.

Lemma wsum_pow_peval (c : list R) (xs ws : list R) (s : nat) :
  wsum (fun x => x ^ s * peval c x) xs ws
  = dot c (discrete_moment xs ws) s.
Proof.
  revert s. induction c as [|a c IH]; intro s; simpl.
  - rewrite wsum_ext with (g' := fun _ => 0); [apply wsum_zero|].
    intro x. ring.
  - rewrite <- IH. unfold discrete_moment.
    rewrite <- wsum_scale, <- wsum_plus. apply wsum_ext.
    intro x. simpl. ring.
Qed.

Lemma dot_agree (c : list R) (mu nu : nat -> R) (s : nat) :
  (forall k, (s <= k < s + length c)%nat -> mu k = nu k) ->
  dot c mu s = dot c nu s.
Proof.
  revert s. induction c as [|a c IH]; intros s H; simpl; [reflexivity|].
  rewrite (H s) by (simpl; lia). rewrite (IH (S s)); [reflexivity|].
  intros k Hk. apply H. simpl. lia.
Qed.

Lemma dot_app (c : list R) (a : R) (mu : nat -> R) (s : nat) :
  dot (c ++ [a]) mu s = dot c mu s + a * mu (s + length c)%nat.
Proof.
  revert s. induction c as [|b c IH]; intro s; simpl.
  - rewrite Nat.add_0_r. lra.
  - rewrite IH. replace (S s + length c)%nat with (s + S (length c))%nat
      by lia. lra.
Qed.

Lemma pow_minus_one_SS (k : nat) : (-1) ^ S (S k) = (-1) ^ k.
Proof. simpl. lra. Qed.

Lemma dot_pderiv_from (p : list R) (k : nat) :
  dot (pderiv_from (S k) p) moment k
  = peval p 1 - (-1) ^ S k * peval p (-1).
Proof.
  revert k. induction p as [|a p IH]; intro k.
  - simpl. lra.
  - cbn [pderiv_from dot peval]. rewrite IH, pow_minus_one_SS.
    unfold moment.
    assert (HS : INR (S k) <> 0) by (apply not_0_INR; discriminate).
    replace ((-1) ^ S k) with (- (-1) ^ k) by (simpl; lra).
    generalize dependent (INR (S k)). generalize ((-1) ^ k).
    intros m d Hd. field. exact Hd.
Qed.

(** The moments integrate a derivative to the difference of the end
    values. *)
Lemma dot_pderiv (G : list R) :
  dot (pderiv G) moment 0 = peval G 1 - peval G (-1).
Proof.
  destruct G as [|g0 p]; simpl; [lra|].
  rewrite dot_pderiv_from. simpl. lra.
Qed.

(** *** From rationals to reals *)

Lemma Q2R_zero : Q2R 0 = 0.
Proof. unfold Q2R. simpl. lra. Qed.

Lemma IZR_pos_succ (k : nat) : IZR (Z.pos (Pos.of_succ_nat k)) = INR (S k).
Proof. rewrite (INR_IZR_INZ (S k)). reflexivity. Qed.

Lemma moment_Q (k : nat) : Q2R (momentQ k) = moment k.
Proof.
  unfold momentQ, moment.
  assert (HS : INR (S k) <> 0) by (apply not_0_INR; discriminate).
  destruct (Nat.even k) eqn:E.
  - unfold Q2R. cbn [Qnum Qden]. rewrite IZR_pos_succ.
    apply Nat.even_spec in E. destruct E as [m E].
    replace ((-1) ^ S k) with (-1) by (rewrite E, pow_1_odd; reflexivity).
    generalize dependent (INR (S k)). intros d Hd. field. exact Hd.
  - assert (O : Nat.odd k = true)
      by (rewrite <- Nat.negb_even, E; reflexivity).
    apply Nat.odd_spec in O. destruct O as [m O].
    replace ((-1) ^ S k) with 1.
    + rewrite Q2R_zero.
      generalize dependent (INR (S k)). intros d Hd. field. exact Hd.
    + replace (S k) with (2 * S m)%nat by lia.
      rewrite pow_1_even. reflexivity.
Qed.

Lemma dot_Q (c : list Q) (s : nat) :
  dot (map Q2R c) moment s = Q2R (dotQ c s).
Proof.
  revert s. induction c as [|a c IH]; intro s; simpl.
  - symmetry. apply Q2R_zero.
  - rewrite Q2R_plus, Q2R_mult, IH, moment_Q. reflexivity.
Qed.

Lemma legendre_orthogonal_10 : legendre_orthogonal 10 = true.
Proof. vm_compute. reflexivity. Qed.

Lemma legendre_degree_10 : legendre_degree 10 = true.
Proof. vm_compute. reflexivity. Qed.

Lemma legendre_orthogonal_R (n s : nat) :
  (1 <= n <= 10)%nat -> (s < n)%nat -> dot (legendre n) moment s = 0.
Proof.
  intros Hn Hs. unfold legendre. rewrite dot_Q.
  pose proof legendre_orthogonal_10 as H. unfold legendre_orthogonal in H.
  rewrite forallb_forall in H.
  specialize (H n). rewrite forallb_forall in H.
  assert (Hin : In n (seq 1 10)) by (apply in_seq; lia).
  specialize (H Hin s).
  assert (Hin' : In s (seq 0 n)) by (apply in_seq; lia).
  specialize (H Hin'). apply Qeq_bool_eq in H.
  rewrite (Qeq_eqR _ _ H). apply Q2R_zero.
Qed.

Lemma legendre_leading (n : nat) :
  (1 <= n <= 10)%nat ->
  exists cs cn, legendre n = cs ++ [cn] /\ length cs = n /\ cn <> 0.
Proof.
  intro Hn.
  pose proof legendre_degree_10 as H. unfold legendre_degree in H.
  rewrite forallb_forall in H.
  assert (Hin : In n (seq 1 10)) by (apply in_seq; lia).
  specialize (H n Hin). apply andb_prop in H. destruct H as [Hlen Hlast].
  apply Nat.eqb_eq in Hlen.
  assert (Hne : glege_coef n <> []).
  { intro E. rewrite E in Hlen. discriminate. }
  exists (map Q2R (removelast (glege_coef n))), (Q2R (last (glege_coef n) 0%Q)).
  split; [|split].
  - unfold legendre.
    rewrite (app_removelast_last 0%Q Hne) at 1.
    rewrite map_app. reflexivity.
  - rewrite length_map.
    pose proof (app_removelast_last 0%Q Hne) as E.
    apply (f_equal (@length Q)) in E. rewrite length_app in E.
    simpl in E. lia.
  - intro E. rewrite <- Q2R_zero in E. apply eqR_Qeq in E.
    apply Qeq_bool_iff in E. rewrite E in Hlast. discriminate.
Qed.

(** The rule of a Gauss-Legendre entry of order [n <= 10] has the first
    [2 n] moments of the integral over [[-1, 1]]. *)
Lemma gauss_moments (n : nat) (xs ws : list R) :
  (1 <= n <= 10)%nat -> GL_entry n xs ws ->
  forall k, (k < 2 * n)%nat -> discrete_moment xs ws k = moment k.
Proof.
  intros Hn HGL k. induction k as [k IH] using lt_wf_ind. intro Hk.
  destruct (Nat.lt_ge_cases k n) as [Hlt|Hge].
  - apply (gl_weights HGL). exact Hlt.
  - destruct (legendre_leading Hn) as (cs & cn & Hleg & Hlen & Hcn).
    set (s := (k - n)%nat).
    assert (Hroot : dot (legendre n) (discrete_moment xs ws) s = 0).
    { rewrite <- wsum_pow_peval.
      rewrite wsum_Forall_ext with (h := fun _ => 0); [apply wsum_zero|].
      eapply Forall_impl; [|exact (gl_roots HGL)].
      intros x Hx. simpl in Hx. rewrite Hx. ring. }
    assert (Horth : dot (legendre n) moment s = 0)
      by (apply legendre_orthogonal_R; [exact Hn|unfold s; lia]).
    rewrite Hleg, dot_app in Hroot, Horth.
    rewrite dot_agree with (nu := moment) in Hroot.
    + replace (s + length cs)%nat with k in Hroot, Horth
        by (unfold s; lia).
      apply Rmult_eq_reg_l with (r := cn); [lra|exact Hcn].
    + intros j Hj. apply IH; unfold s in Hj; lia.
Qed.

End Moments.

(** ** Exactness on polynomials *)

Section Exactness.

Local Open Scope R_scope.

Lemma mapped_R (a b x : R) : mapped a b x = (b - a) / 2 * x + (b + a) / 2.
Proof. reflexivity. Qed.

Lemma gauss_rule1D_exact (n : nat) (xs ws p : list R) (r a b : R) :
  (1 <= n <= 10)%nat -> GL_entry n xs ws -> (length p <= 2 * n)%nat ->
  gauss_rule1D xs ws r (peval p) a b = closed_integral p a b.
Proof.
  intros Hn HGL Hp. rewrite gauss_rule1D_R.
  set (hw := half_width a b). set (mid := midpoint a b).
  set (G := pcomp (pantideriv p) hw mid).
  assert (Hpoint : forall x,
             1 * (x ^ 0 * peval (pderiv G) x) = hw * peval p (mapped a b x)).
  { intro x. unfold G. rewrite peval_pderiv_pcomp, pderiv_pantideriv.
    change (mapped a b x) with (hw * x + mid). simpl. ring. }
  rewrite Rmult_comm, <- wsum_scale.
  rewrite wsum_ext with (g' := fun x => 1 * (x ^ 0 * peval (pderiv G) x))
    by (intro x; symmetry; apply Hpoint).
  rewrite wsum_scale, wsum_pow_peval, Rmult_1_l.
  rewrite dot_agree with (nu := moment).
  - rewrite dot_pderiv. unfold G, closed_integral.
    rewrite !peval_pcomp. f_equal; f_equal;
      unfold hw, mid, half_width, midpoint; simpl; lra.
  - intros k Hk. apply (gauss_moments Hn HGL).
    rewrite length_pderiv in Hk. unfold G in Hk.
    rewrite length_pcomp, length_pantideriv in Hk. simpl in Hk. lia.
Qed.

End Exactness.

(** ** The closed form is the Riemann integral *)

Section Riemann.

Local Open Scope R_scope.

Lemma peval_derivable_pt_lim (p : list R) (x : R) :
  derivable_pt_lim (peval p) x (peval (pderiv p) x).
Proof.
  induction p as [|a p IH].
  - apply (derivable_pt_lim_const 0 x).
  - rewrite peval_pderiv_cons.
    replace (x * peval (pderiv p) x + peval p x)
      with (0 + (1 * peval p x + id x * peval (pderiv p) x))
      by (unfold id; ring).
    change (peval (a :: p)) with (fct_cte a + id * peval p)%F.
    apply derivable_pt_lim_plus.
    + apply derivable_pt_lim_const.
    + apply derivable_pt_lim_mult.
      * apply derivable_pt_lim_id.
      * exact IH.
Qed.

Lemma peval_derivable (p : list R) : derivable (peval p).
Proof.
  intro x. exists (peval (pderiv p) x). apply peval_derivable_pt_lim.
Defined.

Lemma peval_continuity (p : list R) : continuity (peval p).
Proof. apply derivable_continuous, peval_derivable. Qed.

Lemma derive_pantideriv (p : list R) :
  derive (peval (pantideriv p)) (peval_derivable (pantideriv p)) = peval p.
Proof.
  change (derive (peval (pantideriv p)) (peval_derivable (pantideriv p)))
    with (fun x => peval (pderiv (pantideriv p)) x).
  rewrite pderiv_pantideriv. reflexivity.
Qed.

(** The integral of a polynomial over [[a, b]] is [closed_integral]. *)
Lemma closed_integral_RiemannInt (p : list R) (a b : R)
  (pr : Riemann_integrable (peval p) a b) :
  RiemannInt pr = closed_integral p a b.
Proof.
  assert (cont : continuity
                   (derive (peval (pantideriv p))
                      (peval_derivable (pantideriv p)))).
  { rewrite derive_pantideriv. apply peval_continuity. }
  pose (F := mkC1 cont).
  assert (E : peval p = derive F (diff0 F))
    by (symmetry; apply derive_pantideriv).
  revert pr. rewrite E. intro pr.
  rewrite (FTC_Riemann F pr). reflexivity.
Qed.

End Riemann.

(** C1.  Over the reals, for [1 <= order <= 10], when the entry of the
    static table for that order is the Gauss-Legendre entry (the roots of
    the Legendre polynomial of that degree and the corresponding weights),
    [Integrate1D] of a polynomial of degree at most [2 * order - 1]
    returns the closed-form integral of the polynomial over [[a, b]],
    which is its Riemann integral. *)
Theorem Integrate1D_exact_on_polynomials
  (GetStaticTables : ChQuadratureTables R)
  (new_tables : Z -> Z -> ChQuadratureTables R)
  (r : R) (p : list R) (a b : R) (order : Z) (xs ws : list R) :
  (1 <= order <= 10)%Z ->
  nth_error (Lroots GetStaticTables) (Z.to_nat (order - 1)) = Some xs ->
  nth_error (Weight GetStaticTables) (Z.to_nat (order - 1)) = Some ws ->
  GL_entry (Z.to_nat order) xs ws ->
  (Z.of_nat (length p) <= 2 * order)%Z ->
  fst (Integrate1D GetStaticTables new_tables r (peval p) a b order)
  = Done (closed_integral p a b)
  /\ forall pr : Riemann_integrable (peval p) a b,
       closed_integral p a b = RiemannInt pr.
Proof.
  intros Hord Hx Hw HGL Hp.
  split; [|intro pr; symmetry; apply closed_integral_RiemannInt].
  rewrite Integrate1D_eq.
  rewrite with_tables_static with (xs := xs) (ws := ws);
    try assumption; try lia.
  2:{ unfold int_range. lia. }
  simpl. rewrite nodes_outcome_same_length
    by (rewrite (gl_roots_length HGL), (gl_weights_length HGL); reflexivity).
  f_equal. apply gauss_rule1D_exact with (n := Z.to_nat order).
  - lia.
  - exact HGL.
  - lia.
Qed.

(** ** The closed-form entries of the orders 1, 2 and 3 *)

Section ClosedForms.

Local Open Scope R_scope.

Lemma glege_coef_1 : glege_coef 1 = [0%Q; 1%Q].
Proof. vm_compute. reflexivity. Qed.

Lemma glege_coef_2 : glege_coef 2 = [(-1 # 2)%Q; 0%Q; (3 # 2)%Q].
Proof. vm_compute. reflexivity. Qed.

Lemma glege_coef_3 : glege_coef 3 = [0%Q; (-3 # 2)%Q; 0%Q; (5 # 2)%Q].
Proof. vm_compute. reflexivity. Qed.

Lemma sqrt_third : R_sqrt.sqrt (1 / 3) * R_sqrt.sqrt (1 / 3) = 1 / 3.
Proof. apply sqrt_sqrt. lra. Qed.

Lemma sqrt_three_fifths : R_sqrt.sqrt (3 / 5) * R_sqrt.sqrt (3 / 5) = 3 / 5.
Proof. apply sqrt_sqrt. lra. Qed.

Lemma real_entry_1_GL : GL_entry 1 [0] [2].
Proof.
  split; try reflexivity.
  - repeat constructor.
  - repeat constructor. unfold legendre. rewrite glege_coef_1.
    unfold Q2R. simpl. lra.
  - intros k Hk. assert (k = 0%nat) as -> by lia.
    unfold discrete_moment, wsum, moment. simpl. lra.
Qed.

Lemma real_entry_2_GL :
  GL_entry 2 [- R_sqrt.sqrt (1 / 3); R_sqrt.sqrt (1 / 3)] [1; 1].
Proof.
  pose proof sqrt_third as Hs.
  assert (Hpos : 0 < R_sqrt.sqrt (1 / 3)) by (apply sqrt_lt_R0; lra).
  set (s := R_sqrt.sqrt (1 / 3)) in *.
  split; try reflexivity.
  - repeat constructor. lra.
  - unfold legendre. rewrite glege_coef_2.
    repeat constructor; unfold Q2R; simpl; nra.
  - intros k Hk. unfold discrete_moment, wsum, moment.
    destruct k as [|[|k]]; [| |lia]; simpl; lra.
Qed.

Lemma real_entry_3_GL :
  GL_entry 3 [- R_sqrt.sqrt (3 / 5); 0; R_sqrt.sqrt (3 / 5)]
    [5 / 9; 8 / 9; 5 / 9].
Proof.
  pose proof sqrt_three_fifths as Hs.
  assert (Hpos : 0 < R_sqrt.sqrt (3 / 5)) by (apply sqrt_lt_R0; lra).
  set (s := R_sqrt.sqrt (3 / 5)) in *.
  split; try reflexivity.
  - repeat constructor; lra.
  - unfold legendre. rewrite glege_coef_3.
    repeat constructor; unfold Q2R; simpl.
    + transitivity (s * (3 / 2 - 5 / 2 * (s * s))); [field|].
      rewrite Hs. lra.
    + lra.
    + transitivity (- s * (3 / 2 - 5 / 2 * (s * s))); [field|].
      rewrite Hs. lra.
  - intros k Hk. unfold discrete_moment, wsum, moment.
    destruct k as [|[|[|k]]]; [| | |lia]; simpl; lra.
Qed.

End ClosedForms.

Lemma Integrate1D_exact_on_polynomials_witness :
  fst (Integrate1D real_static_tables real_new_tables 0%R
         (peval [1; 2; 3; 4]%R) 0%R 1%R 2)
  = Done (closed_integral [1; 2; 3; 4]%R 0%R 1%R)
  /\ forall pr : Riemann_integrable (peval [1; 2; 3; 4]%R) 0%R 1%R,
       closed_integral [1; 2; 3; 4]%R 0%R 1%R = RiemannInt pr.
Proof.
  apply (Integrate1D_exact_on_polynomials
           real_static_tables real_new_tables 0%R [1; 2; 3; 4]%R 0%R 1%R
           (order := 2)
           (xs := [- R_sqrt.sqrt (1 / 3); R_sqrt.sqrt (1 / 3)]%R)
           (ws := [1; 1]%R)).
  - lia.
  - reflexivity.
  - reflexivity.
  - exact real_entry_2_GL.
  - simpl. lia.
Defined.

(** ** Degenerate intervals on machine numbers *)

Section Binary64.

Lemma Prim2SF_zero : Prim2SF 0%float = S754_zero false.
Proof. vm_compute. reflexivity. Qed.

Lemma Prim2SF_infinity : Prim2SF infinity = S754_infinity false.
Proof. vm_compute. reflexivity. Qed.

Lemma finite_cases (x : float) :
  is_finite x = true ->
  (exists s, Prim2SF x = S754_zero s)
  \/ (exists s m e, Prim2SF x = S754_finite s m e).
Proof.
  unfold is_finite, is_nan, is_infinity.
  rewrite !eqb_spec, abs_spec, Prim2SF_infinity.
  destruct (Prim2SF x) as [s|s| |s m e]; simpl; intro H; try discriminate.
  - left. eauto.
  - destruct s; discriminate.
  - right. eauto.
Qed.

(** [x - x] is [+0] for a finite [x]. *)
Lemma sub_self_finite (x : float) :
  is_finite x = true -> (x - x)%float = 0%float.
Proof.
  intro H. apply Prim2SF_inj. rewrite sub_spec, Prim2SF_zero.
  destruct (finite_cases x H) as [[s E]|(s & m & e & E)]; rewrite E.
  - destruct s; reflexivity.
  - cbv [SF64sub SFsub]. rewrite Z.sub_diag. reflexivity.
Qed.

Lemma half_width_degenerate (a : float) :
  is_finite a = true -> half_width a a = 0%float.
Proof.
  intro H. unfold half_width. simpl. rewrite (sub_self_finite a H).
  reflexivity.
Qed.

(** A finite number times [+0] is a zero. *)
Lemma mul_zero_finite (x : float) :
  is_finite x = true -> is_zero (x * 0)%float = true.
Proof.
  intro H. unfold is_zero. rewrite eqb_spec, mul_spec.
  change (Prim2SF zero) with (Prim2SF 0%float). rewrite Prim2SF_zero.
  destruct (finite_cases x H) as [[s E]|(s & m & e & E)]; rewrite E;
    reflexivity.
Qed.

End Binary64.

(** C10 (as amended).  On binary64, for an order within the static table
    and equal finite bounds [a = b], the half-width [(b-a)/2] is [+0];
    when the weighted sum accumulated by the loop is finite, [Integrate1D]
    returns a zero. *)
Theorem Integrate1D_degenerate_interval
  (GetStaticTables : ChQuadratureTables float)
  (new_tables : Z -> Z -> ChQuadratureTables float)
  (r : float) (f : float -> float) (a : float) (order : Z)
  (xs ws : list float) :
  (1 <= order)%Z -> int_range order ->
  nth_error (Lroots GetStaticTables) (Z.to_nat (order - 1)) = Some xs ->
  nth_error (Weight GetStaticTables) (Z.to_nat (order - 1)) = Some ws ->
  length xs = length ws ->
  is_finite a = true ->
  is_finite (sum1D xs ws r f a a) = true ->
  exists z : float,
    fst (Integrate1D GetStaticTables new_tables r f a a order) = Done z
    /\ is_zero z = true.
Proof.
  intros H1 Hr Hx Hw Hlen Ha Hsum.
  exists (gauss_rule1D xs ws r f a a).
  rewrite Integrate1D_eq.
  rewrite with_tables_static with (xs := xs) (ws := ws) by assumption.
  cbn [fst]. rewrite nodes_outcome_same_length by exact Hlen.
  split; [reflexivity|].
  unfold gauss_rule1D. rewrite (half_width_degenerate a Ha).
  apply mul_zero_finite. exact Hsum.
Qed.

Lemma Integrate1D_degenerate_interval_witness :
  exists z : float,
    fst (Integrate1D binary64_static_tables binary64_new_tables 7%float
           (fun x => (x * x)%float) 3%float 3%float 4) = Done z
    /\ is_zero z = true.
Proof.
  apply (Integrate1D_degenerate_interval
           binary64_static_tables binary64_new_tables 7%float
           (fun x => (x * x)%float) 3%float (order := 4)
           (xs := fst (binary64_entry 4)) (ws := snd (binary64_entry 4))).
  - lia.
  - unfold int_range. lia.
  - reflexivity.
  - reflexivity.
  - reflexivity.
  - reflexivity.
  - vm_compute. reflexivity.
Defined.

(** C10, as stated, fails: the evaluations are finite, but the weighted
    sum overflows to infinity, and infinity times the zero half-width is
    not a number. *)
Lemma Integrate1D_degenerate_overflow :
  is_finite 0x1.fffffffffffffp+1023%float = true
  /\ fst (Integrate1D binary64_static_tables binary64_new_tables 0%float
            (fun _ => 0x1.fffffffffffffp+1023%float) 1%float 1%float 1)
     = Done nan
  /\ fst (Integrate1D binary64_static_tables binary64_new_tables 0%float
            (fun _ => 0x1.fffffffffffffp+1023%float) 1%float 1%float 2)
     = Done nan
  /\ is_zero nan = false.
Proof. vm_compute. repeat split. Qed.


(** ** The link whose residual is not overridden *)

Lemma difference_zero (eps : R) (n : nat) :
  Numdiff.difference eps (repeat 0%R n) (repeat 0%R n) = repeat 0%R n.
Proof.
  unfold Numdiff.difference. induction n as [|n IH]; simpl; [reflexivity|].
  rewrite IH. f_equal. unfold Rdiv. ring.
Qed.

Lemma columns_zero (eps : R) (impose : list R -> R -> Numdiff.BodyState ->
                                      Numdiff.BodyState)
  (fetch : Numdiff.BodyState -> list R) (ndoc : nat)
  (s : Numdiff.BodyState) (q : list R) (ixs : list nat) :
  Numdiff.columns eps
    {| Numdiff.ImposeCoords := impose; Numdiff.FetchCoords := fetch;
       Numdiff.ComputeC := Numdiff.base_ComputeC ndoc |}
    s q (repeat 0%R ndoc) ixs
  = Some (repeat (repeat 0%R ndoc) (length ixs)).
Proof.
  induction ixs as [|i rest IH]; simpl; [reflexivity|].
  rewrite IH. unfold Numdiff.base_ComputeC. rewrite difference_zero.
  reflexivity.
Qed.

(** C9.  A link that keeps the default [ComputeC] (whatever it does with
    [ImposeCoords] and [FetchCoords]) has the zero residual at every
    state: [UpdateState] succeeds, with zero residual, zero time
    derivative and zero Jacobian columns. *)
Theorem default_residual_is_zero (eps : R)
  (impose : list R -> R -> Numdiff.BodyState -> Numdiff.BodyState)
  (fetch : Numdiff.BodyState -> list R) (ndoc : nat)
  (s : Numdiff.BodyState) :
  Numdiff.UpdateState eps
    {| Numdiff.ImposeCoords := impose; Numdiff.FetchCoords := fetch;
       Numdiff.ComputeC := Numdiff.base_ComputeC ndoc |} s
  = Some {| Numdiff.C := repeat 0%R ndoc;
            Numdiff.Ct := repeat 0%R ndoc;
            Numdiff.Cq := repeat (repeat 0%R ndoc) (length (fetch s)) |}.
Proof.
  unfold Numdiff.UpdateState, Numdiff.ComputeCt, Numdiff.ComputeCq.
  cbn [Numdiff.ComputeC Numdiff.FetchCoords Numdiff.ImposeCoords].
  unfold Numdiff.base_ComputeC at 1 2 3 4.
  rewrite columns_zero, difference_zero, length_seq. reflexivity.
Qed.

(** ** A Gauss-Legendre entry is mirrored about 0 *)

Section RootCount.

Local Open Scope R_scope.

Lemma pdiv_lin_spec (p : list R) (r x : R) :
  peval p x
  = (x - r) * peval (fst (pdiv_lin p r)) x + snd (pdiv_lin p r).
Proof.
  induction p as [|a p IH]; [simpl; ring|].
  cbn [pdiv_lin]. destruct (pdiv_lin p r) as [q' s'] eqn:E.
  cbn [fst snd] in *. destruct p as [|b p'].
  - simpl in E. inversion E. simpl. ring.
  - cbn [peval] in *. rewrite IH. ring.
Qed.

Lemma pdiv_lin_rem (p : list R) (r : R) : snd (pdiv_lin p r) = peval p r.
Proof. rewrite (pdiv_lin_spec p r r). ring. Qed.

Lemma pdiv_lin_length (p : list R) (r : R) :
  length (fst (pdiv_lin p r)) = pred (length p).
Proof.
  induction p as [|a p IH]; [reflexivity|].
  cbn [pdiv_lin]. destruct (pdiv_lin p r) as [q' s'].
  cbn [fst snd] in *. destruct p as [|b p']; [reflexivity|].
  cbn [length] in *. rewrite IH. reflexivity.
Qed.

Lemma last_cons_cons {A : Type} (a b : A) (l : list A) (d : A) :
  last (a :: b :: l) d = last (b :: l) d.
Proof. reflexivity. Qed.

Lemma pdiv_lin_last (p : list R) (r : R) :
  (2 <= length p)%nat -> last (fst (pdiv_lin p r)) 0 = last p 0.
Proof.
  induction p as [|a p IH]; [simpl; lia|]. intro Hlen.
  destruct p as [|b p']; [simpl in Hlen; lia|].
  rewrite last_cons_cons.
  cbn [pdiv_lin] in *.
  destruct (pdiv_lin p' r) as [q'' s''] eqn:E.
  destruct p' as [|c p''].
  - simpl in E. inversion E. simpl. ring.
  - cbn [fst snd] in *. rewrite <- IH by (simpl; lia).
    reflexivity.
Qed.

(** A polynomial of degree [n] has at most [n] roots. *)
Lemma roots_bound (n : nat) :
  forall p : list R,
    length p = S n -> last p 0 <> 0 ->
    forall l : list R,
      NoDup l -> Forall (fun x => peval p x = 0) l -> (length l <= n)%nat.
Proof.
  induction n as [|n IH]; intros p Hlen Hlast l Hnd Hroots.
  - destruct p as [|a [|b p']]; try discriminate.
    destruct l as [|x l']; [simpl; lia|].
    inversion Hroots as [|? ? Hx _]. simpl in Hx, Hlast. lra.
  - destruct l as [|r l']; [simpl; lia|].
    inversion Hnd as [|? ? Hnotin Hnd']. subst.
    inversion Hroots as [|? ? Hr Hroots']. subst.
    simpl. apply le_n_S.
    apply (IH (fst (pdiv_lin p r))).
    + rewrite pdiv_lin_length, Hlen. reflexivity.
    + rewrite pdiv_lin_last by lia. exact Hlast.
    + exact Hnd'.
    + rewrite Forall_forall in *. intros y Hy.
      pose proof (Hroots' y Hy) as Hpy.
      rewrite (pdiv_lin_spec p r y), pdiv_lin_rem, Hr in Hpy.
      assert (Hne : y - r <> 0).
      { intro E. apply Hnotin. replace r with y by lra. exact Hy. }
      apply Rmult_eq_reg_l with (r := y - r); [lra|exact Hne].
Qed.

(** With [n] distinct roots in [l], every root is in [l]. *)
Lemma all_roots (n : nat) (p l : list R) (y : R) :
  length p = S n -> last p 0 <> 0 ->
  NoDup l -> length l = n -> Forall (fun x => peval p x = 0) l ->
  peval p y = 0 -> In y l.
Proof.
  intros Hlen Hlast Hnd Hl Hroots Hy.
  destruct (in_dec Req_dec_T y l) as [Hin|Hout]; [exact Hin|].
  exfalso.
  assert (H : (length (y :: l) <= n)%nat).
  { apply roots_bound with (p := p); try assumption.
    - constructor; assumption.
    - constructor; assumption. }
  simpl in H. lia.
Qed.

Lemma sorted_head_lt (a : R) (l : list R) (x : R) :
  StronglySorted Rlt (a :: l) -> In x l -> a < x.
Proof.
  intros Hs Hin. inversion Hs as [|? ? _ Hall]. subst.
  rewrite Forall_forall in Hall. apply Hall. exact Hin.
Qed.

Lemma sorted_NoDup (l : list R) : StronglySorted Rlt l -> NoDup l.
Proof.
  induction l as [|a l IH]; intro Hs; constructor.
  - intro Hin. pose proof (sorted_head_lt _ Hs Hin). lra.
  - apply IH. inversion Hs. assumption.
Qed.

(** Two ascending lists with the same elements are equal. *)
Lemma sorted_incl_eq (l1 l2 : list R) :
  StronglySorted Rlt l1 -> StronglySorted Rlt l2 ->
  incl l1 l2 -> incl l2 l1 -> l1 = l2.
Proof.
  revert l2. induction l1 as [|a l1 IH]; intros [|b l2] H1 H2 I12 I21.
  - reflexivity.
  - exfalso. apply (I21 b). left. reflexivity.
  - exfalso. apply (I12 a). left. reflexivity.
  - assert (Hab : a = b).
    { destruct (I12 a (or_introl eq_refl)) as [E|Ha]; [auto|].
      destruct (I21 b (or_introl eq_refl)) as [E|Hb]; [auto|].
      pose proof (sorted_head_lt _ H2 Ha).
      pose proof (sorted_head_lt _ H1 Hb). lra. }
    subst b. f_equal. apply IH.
    + inversion H1. assumption.
    + inversion H2. assumption.
    + intros x Hx. destruct (I12 x (or_intror Hx)) as [E|Hin]; [|exact Hin].
      pose proof (sorted_head_lt _ H1 Hx). lra.
    + intros x Hx. destruct (I21 x (or_intror Hx)) as [E|Hin]; [|exact Hin].
      pose proof (sorted_head_lt _ H2 Hx). lra.
Qed.

Lemma sorted_app_last (l : list R) (z : R) :
  StronglySorted Rlt l -> Forall (fun y => y < z) l ->
  StronglySorted Rlt (l ++ [z]).
Proof.
  induction l as [|a l IH]; intros Hs Hall; simpl.
  - repeat constructor.
  - inversion Hs as [|? ? Hs' Ha]. inversion Hall as [|? ? Haz Hall']. subst.
    constructor.
    + apply IH; assumption.
    + apply Forall_app. split; [exact Ha|]. repeat constructor. exact Haz.
Qed.

Lemma sorted_mirror (xs : list R) :
  StronglySorted Rlt xs -> StronglySorted Rlt (rev (map Ropp xs)).
Proof.
  induction xs as [|a xs IH]; intro Hs; simpl.
  - constructor.
  - inversion Hs as [|? ? Hs' Ha]. subst.
    apply sorted_app_last; [apply IH; exact Hs'|].
    rewrite Forall_forall in *. intros y Hy.
    apply in_rev, in_map_iff in Hy. destruct Hy as (x & <- & Hx).
    pose proof (Ha x Hx). lra.
Qed.

(** *** Parity *)

Lemma peval_parity (b : bool) (c : list R) (x : R) :
  zeros_at b c -> peval c (- x) = (if b then -1 else 1) * peval c x.
Proof.
  revert b. induction c as [|a c IH]; intros b H.
  - simpl. destruct b; ring.
  - destruct H as [Ha Hc]. cbn [peval]. rewrite (IH _ Hc).
    destruct b; simpl negb; cbv iota.
    + rewrite Ha. ring.
    + ring.
Qed.

Lemma qzeros_at_R (b : bool) (c : list Q) :
  qzeros_at b c = true -> zeros_at b (map Q2R c).
Proof.
  revert b. induction c as [|a c IH]; intros b H; simpl; [exact I|].
  simpl in H. apply andb_prop in H. destruct H as [Ha Hc].
  split; [|apply IH; exact Hc].
  destruct b; [|exact I].
  apply Qeq_bool_eq in Ha. rewrite (Qeq_eqR _ _ Ha). apply Q2R_zero.
Qed.

Lemma legendre_parity_10 : legendre_parity 10 = true.
Proof. vm_compute. reflexivity. Qed.

Lemma legendre_zeros_at (n : nat) :
  (1 <= n <= 10)%nat -> zeros_at (Nat.odd n) (legendre n).
Proof.
  intro Hn. apply qzeros_at_R.
  pose proof legendre_parity_10 as H. unfold legendre_parity in H.
  rewrite forallb_forall in H. apply H. apply in_seq. lia.
Qed.

Lemma legendre_root_opp (n : nat) (x : R) :
  (1 <= n <= 10)%nat ->
  peval (legendre n) x = 0 -> peval (legendre n) (- x) = 0.
Proof.
  intros Hn Hx. rewrite (peval_parity _ _ x (legendre_zeros_at Hn)), Hx.
  ring.
Qed.

Lemma legendre_shape (n : nat) :
  (1 <= n <= 10)%nat ->
  length (legendre n) = S n /\ last (legendre n) 0 <> 0.
Proof.
  intro Hn. destruct (legendre_leading Hn) as (cs & cn & E & Hlen & Hcn).
  rewrite E. split.
  - rewrite length_app. simpl. lia.
  - rewrite last_last. exact Hcn.
Qed.

Lemma GL_roots_symmetric (n : nat) (xs ws : list R) :
  (1 <= n <= 10)%nat -> GL_entry n xs ws -> rev (map Ropp xs) = xs.
Proof.
  intros Hn HGL. destruct (legendre_shape Hn) as [Hlen Hlast].
  pose proof (gl_ascending HGL) as Hs.
  pose proof (gl_roots HGL) as Hroots.
  pose proof (gl_roots_length HGL) as Hxs.
  assert (Hs' : StronglySorted Rlt (rev (map Ropp xs)))
    by (apply sorted_mirror; exact Hs).
  assert (Hroots' : Forall (fun x => peval (legendre n) x = 0)
                      (rev (map Ropp xs))).
  { rewrite Forall_forall in *. intros y Hy.
    apply in_rev, in_map_iff in Hy. destruct Hy as (x & <- & Hx).
    apply legendre_root_opp; [exact Hn|]. apply Hroots. exact Hx. }
  assert (Hxs' : length (rev (map Ropp xs)) = n)
    by (rewrite length_rev, length_map; exact Hxs).
  rewrite Forall_forall in Hroots, Hroots'.
  apply sorted_incl_eq; try assumption.
  - intros y Hy.
    apply (all_roots _ y Hlen Hlast (sorted_NoDup Hs) Hxs);
      [rewrite Forall_forall; exact Hroots|].
    apply Hroots'. exact Hy.
  - intros y Hy.
    apply (all_roots _ y Hlen Hlast (sorted_NoDup Hs') Hxs');
      [rewrite Forall_forall; exact Hroots'|].
    apply Hroots. exact Hy.
Qed.

End RootCount.

Section WeightUniqueness.

Local Open Scope R_scope.

Lemma wsum_cons (g : R -> R) (x w : R) (xs ws : list R) :
  wsum g (x :: xs) (w :: ws) = g x * w + wsum g xs ws.
Proof. reflexivity. Qed.

Lemma peval_proots_cons (y : R) (l : list R) (t : R) :
  peval (proots (y :: l)) t = (t - y) * peval (proots l) t.
Proof.
  cbn [proots]. rewrite peval_padd. cbn [peval].
  rewrite peval_pscale. ring.
Qed.

Lemma length_proots (l : list R) : length (proots l) = S (length l).
Proof.
  induction l as [|y l IH]; [reflexivity|].
  cbn [proots]. rewrite length_padd. unfold pscale.
  rewrite length_map. cbn [length]. rewrite IH. lia.
Qed.

Lemma proots_root (l : list R) (t : R) :
  In t l -> peval (proots l) t = 0.
Proof.
  induction l as [|y l IH]; intro H; [destruct H|].
  rewrite peval_proots_cons. destruct H as [->|H].
  - ring.
  - rewrite (IH H). ring.
Qed.

Lemma proots_nonroot (l : list R) (t : R) :
  ~ In t l -> peval (proots l) t <> 0.
Proof.
  induction l as [|y l IH]; intro H.
  - simpl. lra.
  - rewrite peval_proots_cons. apply Rmult_integral_contrapositive. split.
    + intro E. apply H. left. lra.
    + apply IH. intro Hin. apply H. right. exact Hin.
Qed.

Lemma dot_zero (c : list R) (s : nat) : dot c (fun _ => 0) s = 0.
Proof.
  revert s. induction c as [|a c IH]; intro s; simpl; [reflexivity|].
  rewrite IH. ring.
Qed.

(** A rule whose first [n] moments vanish integrates every polynomial
    of degree below [n] to zero. *)
Lemma vanishing_moments (xs ds q : list R) :
  (forall k, (k < length xs)%nat -> discrete_moment xs ds k = 0) ->
  (length q <= length xs)%nat -> wsum (peval q) xs ds = 0.
Proof.
  intros Hm Hq.
  rewrite wsum_ext with (g' := fun x => x ^ 0 * peval q x)
    by (intro x; simpl; ring).
  rewrite wsum_pow_peval.
  rewrite dot_agree with (nu := fun _ => 0); [apply dot_zero|].
  intros k Hk. apply Hm. lia.
Qed.

(** The weights of an interpolatory rule on distinct nodes are unique. *)
Lemma vandermonde_unique (xs : list R) :
  forall ds : list R,
    NoDup xs -> length ds = length xs ->
    (forall q, (length q <= length xs)%nat -> wsum (peval q) xs ds = 0) ->
    Forall (fun d => d = 0) ds.
Proof.
  induction xs as [|x xs IH]; intros [|d ds] Hnd Hlen H;
    try discriminate; [constructor|].
  inversion Hnd as [|? ? Hnotin Hnd']. subst.
  assert (Hd : d = 0).
  { pose proof (H (proots xs)) as H0. rewrite wsum_cons in H0.
    rewrite wsum_Forall_ext with (h := fun _ => 0) in H0.
    - rewrite wsum_zero in H0.
      apply Rmult_eq_reg_l with (r := peval (proots xs) x).
      + rewrite Rmult_0_r, <- H0; [ring|].
        rewrite length_proots. simpl. lia.
      + apply proots_nonroot. exact Hnotin.
    - rewrite Forall_forall. intros y Hy. apply proots_root. exact Hy. }
  constructor; [exact Hd|].
  apply IH; [exact Hnd'|simpl in Hlen; lia|].
  intros q Hq. pose proof (H q) as Hq0. rewrite wsum_cons, Hd in Hq0.
  rewrite <- Hq0; [ring|]. simpl. lia.
Qed.

Lemma wsum_vsub (g : R -> R) (xs : list R) :
  forall u v : list R,
    length u = length xs -> length v = length xs ->
    wsum g xs (vsub u v) = wsum g xs u - wsum g xs v.
Proof.
  induction xs as [|x xs IH]; intros [|a u] [|b v] Hu Hv;
    try discriminate.
  - unfold wsum. simpl. ring.
  - unfold vsub. cbn [combine map fst snd]. rewrite !wsum_cons.
    fold (vsub u v). rewrite IH by (simpl in *; lia). ring.
Qed.

Lemma vsub_zero (u : list R) :
  forall v : list R,
    length u = length v -> Forall (fun d => d = 0) (vsub u v) -> u = v.
Proof.
  induction u as [|a u IH]; intros [|b v] Hlen H; try discriminate.
  - reflexivity.
  - unfold vsub in H. cbn [combine map fst snd] in H.
    inversion H as [|? ? Hab Hrest]. subst.
    f_equal; [lra|]. apply IH; [simpl in Hlen; lia|exact Hrest].
Qed.

Lemma pow_opp (x : R) (k : nat) : (- x) ^ k = (-1) ^ k * x ^ k.
Proof.
  rewrite <- Rpow_mult_distr. f_equal. ring.
Qed.

(** The moments of the mirrored rule. *)
Lemma mirrored_weights_moment (xs ws : list R) (k : nat) :
  rev (map Ropp xs) = xs -> length xs = length ws ->
  discrete_moment xs (rev ws) k = (-1) ^ k * discrete_moment xs ws k.
Proof.
  intros Hx Hlen. unfold discrete_moment, wsum.
  rewrite <- Hx at 1.
  rewrite combine_rev_same by (rewrite length_map; exact Hlen).
  rewrite node_sum_rev, node_sum_map_fst, <- node_sum_scale.
  apply node_sum_ext. intros x w. rewrite pow_opp. ring.
Qed.

Lemma moment_parity (k : nat) : (-1) ^ k * moment k = moment k.
Proof.
  unfold moment.
  destruct (Nat.even k) eqn:E.
  - apply Nat.even_spec in E. destruct E as [m ->].
    rewrite pow_1_even. ring.
  - assert (O : Nat.odd k = true)
      by (rewrite <- Nat.negb_even, E; reflexivity).
    apply Nat.odd_spec in O. destruct O as [m O].
    replace ((-1) ^ S k) with 1.
    + unfold Rdiv. ring.
    + replace (S k) with (2 * S m)%nat by lia.
      rewrite pow_1_even. reflexivity.
Qed.

Lemma GL_weights_symmetric (n : nat) (xs ws : list R) :
  (1 <= n <= 10)%nat -> GL_entry n xs ws -> rev ws = ws.
Proof.
  intros Hn HGL.
  pose proof (GL_roots_symmetric Hn HGL) as Hx.
  pose proof (gl_roots_length HGL) as Lx.
  pose proof (gl_weights_length HGL) as Lw.
  symmetry. apply vsub_zero; [rewrite length_rev; reflexivity|].
  apply vandermonde_unique with (xs := xs).
  - apply sorted_NoDup. exact (gl_ascending HGL).
  - unfold vsub. rewrite length_map, length_combine, length_rev. lia.
  - intros q Hq. apply vanishing_moments; [|exact Hq].
    intros k Hk. unfold discrete_moment.
    rewrite wsum_vsub by (rewrite ?length_rev; lia).
    fold (discrete_moment xs ws k). fold (discrete_moment xs (rev ws) k).
    rewrite mirrored_weights_moment by (assumption || lia).
    rewrite (gl_weights HGL) by lia.
    rewrite moment_parity. ring.
Qed.

(** The entry of order [n <= 10] is mirrored about 0. *)
Lemma GL_entry_symmetric (n : nat) (xs ws : list R) :
  (1 <= n <= 10)%nat -> GL_entry n xs ws -> symmetric_nodes xs ws.
Proof.
  intros Hn HGL. split.
  - exact (GL_roots_symmetric Hn HGL).
  - exact (GL_weights_symmetric Hn HGL).
Qed.

End WeightUniqueness.

(** ** Reversed bounds, for the Gauss-Legendre entries *)

(** C4 (as amended).  In exact arithmetic (over the reals), for an order
    in [1 .. 10] whose entry in the static table is the Gauss-Legendre
    entry, [Integrate1D] over [[b, a]] returns the opposite of
    [Integrate1D] over [[a, b]]. *)
Theorem Integrate1D_reversed_bounds
  (GetStaticTables : ChQuadratureTables R)
  (new_tables : Z -> Z -> ChQuadratureTables R)
  (r r' : R) (f : R -> R) (a b : R) (order : Z) (xs ws : list R) :
  (1 <= order <= 10)%Z ->
  nth_error (Lroots GetStaticTables) (Z.to_nat (order - 1)) = Some xs ->
  nth_error (Weight GetStaticTables) (Z.to_nat (order - 1)) = Some ws ->
  GL_entry (Z.to_nat order) xs ws ->
  exists v : R,
    fst (Integrate1D GetStaticTables new_tables r' f a b order) = Done v
    /\ fst (Integrate1D GetStaticTables new_tables r f b a order)
       = Done (- v)%R.
Proof.
  intros Hord Hx Hw HGL.
  assert (Hlen : length xs = length ws)
    by (rewrite (gl_roots_length HGL), (gl_weights_length HGL); reflexivity).
  assert (Hsym : symmetric_nodes xs ws)
    by (apply GL_entry_symmetric with (n := Z.to_nat order); [lia|exact HGL]).
  assert (Hr : int_range order) by (unfold int_range; lia).
  exists (gauss_rule1D xs ws r' f a b).
  rewrite !Integrate1D_eq.
  rewrite !with_tables_static with (xs := xs) (ws := ws)
    by (assumption || lia).
  cbn [fst]. rewrite !nodes_outcome_same_length by exact Hlen.
  split; [reflexivity|]. f_equal.
  apply gauss_rule1D_reversed; assumption.
Qed.

Lemma Integrate1D_reversed_bounds_witness :
  exists v : R,
    fst (Integrate1D real_static_tables real_new_tables 0%R
           (fun x => (x * x)%R) 0%R 1%R 2) = Done v
    /\ fst (Integrate1D real_static_tables real_new_tables 0%R
              (fun x => (x * x)%R) 1%R 0%R 2) = Done (- v)%R.
Proof.
  apply (Integrate1D_reversed_bounds
           real_static_tables real_new_tables 0%R 0%R
           (fun x => (x * x)%R) 0%R 1%R (order := 2)
           (xs := [- R_sqrt.sqrt (1 / 3); R_sqrt.sqrt (1 / 3)]%R)
           (ws := [1; 1]%R)).
  - lia.
  - reflexivity.
  - reflexivity.
  - exact real_entry_2_GL.
Defined.

(** C4, as stated, fails on binary64: with the bounds reversed the same
    terms are added in the opposite order, and the two sums are rounded
    differently.  With order 3 and [x * x] over [[0, 3]], then over
    [[3, 0]].  With order 3 over [[0, 4]] and an integrand worth [1],
    [2^53] and [-2^53] at the three nodes: the sum [w0 + 2^53 * w1] is
    rounded to an integer before [2^53 * w2] is subtracted, whereas in the
    reversed call [w2] is added last and keeps a half. *)
Lemma Integrate1D_reversed_bounds_rounding :
  fst (Integrate1D binary64_static_tables binary64_new_tables 0%float
         (fun x => (x * x)%float) 0%float 3%float 3)
  = Done 0x1.2p+3%float
  /\ fst (Integrate1D binary64_static_tables binary64_new_tables 0%float
            (fun x => (x * x)%float) 3%float 0%float 3)
     = Done (-0x1.2000000000001p+3)%float
  /\ fst (Integrate1D binary64_static_tables binary64_new_tables 0%float
            (fun x => if (x <? 1)%float then 1%float
                      else if (x <? 3)%float then 0x1p+53%float
                           else (-0x1p+53)%float)
            0%float 4%float 3)
     = Done 0x1.5555555555556p+52%float
  /\ fst (Integrate1D binary64_static_tables binary64_new_tables 0%float
            (fun x => if (x <? 1)%float then 1%float
                      else if (x <? 3)%float then 0x1p+53%float
                           else (-0x1p+53)%float)
            4%float 0%float 3)
     = Done (-0x1.5555555555555p+52)%float.
Proof. vm_compute. repeat split. Qed.

(** ** The static and the dynamic path of the three routines *)

(** X1.  For an order (an [int]) greater than the largest order of the
    static table, [Integrate2D] builds [ChQuadratureTables(order, order)],
    prints it, returns the weighted sum of the tensor rule on the single
    entry of that table, and deletes the table before returning. *)
Theorem Integrate2D_beyond_static_range
  {D T : Type} {DO : DoubleOps D} {RO : ResultOps D T}
  (GetStaticTables : ChQuadratureTables D)
  (new_tables : Z -> Z -> ChQuadratureTables D)
  (result : T) (integrand : D -> D -> T) (Xa Xb Ya Yb : D) (order : Z)
  (xs ws : list D) :
  int_range order ->
  (Z.of_nat (length (Lroots GetStaticTables)) < order)%Z ->
  single_order order (new_tables order order) xs ws ->
  Integrate2D GetStaticTables new_tables result integrand Xa Xb Ya Yb order
  = (Done (gauss_rule2D xs ws result integrand Xa Xb Ya Yb),
     dynamic_trace order).
Proof.
  intros Hr Hord (Hx & Hw & Lx & Lw).
  rewrite Integrate2D_eq.
  rewrite with_tables_dynamic with (xs := xs) (ws := ws);
    try assumption; try (destruct Hr; lia).
  rewrite nodes_outcome_same_length by lia.
  reflexivity.
Qed.

Lemma Integrate2D_beyond_static_range_witness :
  Integrate2D binary64_static_tables binary64_new_tables 0%float
    (fun x y => (x * y)%float) 0%float 1%float 0%float 2%float 11
  = (Done (gauss_rule2D (fst (binary64_entry 11)) (snd (binary64_entry 11))
             0%float (fun x y => (x * y)%float) 0%float 1%float
             0%float 2%float),
     dynamic_trace 11).
Proof.
  apply (Integrate2D_beyond_static_range
           binary64_static_tables binary64_new_tables 0%float
           (fun x y => (x * y)%float) 0%float 1%float 0%float 2%float
           (order := 11)).
  - unfold int_range. lia.
  - vm_compute. reflexivity.
  - repeat split.
Defined.

(** X2.  The same for [Integrate3D]: beyond the static table it builds
    and prints a private table of that one order, returns the weighted
    sum of the tensor rule on its entry, and deletes it. *)
Theorem Integrate3D_beyond_static_range
  {D T : Type} {DO : DoubleOps D} {RO : ResultOps D T}
  (GetStaticTables : ChQuadratureTables D)
  (new_tables : Z -> Z -> ChQuadratureTables D)
  (result : T) (integrand : D -> D -> D -> T) (Xa Xb Ya Yb Za Zb : D)
  (order : Z) (xs ws : list D) :
  int_range order ->
  (Z.of_nat (length (Lroots GetStaticTables)) < order)%Z ->
  single_order order (new_tables order order) xs ws ->
  Integrate3D GetStaticTables new_tables result integrand
    Xa Xb Ya Yb Za Zb order
  = (Done (gauss_rule3D xs ws result integrand Xa Xb Ya Yb Za Zb),
     dynamic_trace order).
Proof.
  intros Hr Hord (Hx & Hw & Lx & Lw).
  rewrite Integrate3D_eq.
  rewrite with_tables_dynamic with (xs := xs) (ws := ws);
    try assumption; try (destruct Hr; lia).
  rewrite nodes_outcome_same_length by lia.
  reflexivity.
Qed.

Lemma Integrate3D_beyond_static_range_witness :
  Integrate3D binary64_static_tables binary64_new_tables 0%float
    (fun x y z => (x * y + z)%float) 0%float 1%float 0%float 2%float
    0%float 3%float 11
  = (Done (gauss_rule3D (fst (binary64_entry 11)) (snd (binary64_entry 11))
             0%float (fun x y z => (x * y + z)%float) 0%float 1%float
             0%float 2%float 0%float 3%float),
     dynamic_trace 11).
Proof.
  apply (Integrate3D_beyond_static_range
           binary64_static_tables binary64_new_tables 0%float
           (fun x y z => (x * y + z)%float) 0%float 1%float 0%float 2%float
           0%float 3%float (order := 11)).
  - unfold int_range. lia.
  - vm_compute. reflexivity.
  - repeat split.
Defined.

(** X3.  With an order [>= 1] whose entry exists in the static table, the
    three routines touch nothing else: no table is built, printed or
    deleted.  They return the weighted sum of the rule when the entry has
    at least as many weights as roots (weights in excess are not read);
    with fewer weights than roots [weight->at(i)] throws
    [std::out_of_range], in each of the three. *)
Theorem Integrate_within_static_table
  {D T : Type} {DO : DoubleOps D} {RO : ResultOps D T}
  (GetStaticTables : ChQuadratureTables D)
  (new_tables : Z -> Z -> ChQuadratureTables D)
  (r : T) (f1 : D -> T) (f2 : D -> D -> T) (f3 : D -> D -> D -> T)
  (Xa Xb Ya Yb Za Zb : D) (order : Z) (xs ws : list D) :
  (1 <= order)%Z -> int_range order ->
  nth_error (Lroots GetStaticTables) (Z.to_nat (order - 1)) = Some xs ->
  nth_error (Weight GetStaticTables) (Z.to_nat (order - 1)) = Some ws ->
  Integrate1D GetStaticTables new_tables r f1 Xa Xb order
  = (if (length xs <=? length ws)%nat
     then Done (gauss_rule1D xs (firstn (length xs) ws) r f1 Xa Xb)
     else OutOfRange, [])
  /\ Integrate2D GetStaticTables new_tables r f2 Xa Xb Ya Yb order
     = (if (length xs <=? length ws)%nat
        then Done (gauss_rule2D xs (firstn (length xs) ws) r f2 Xa Xb Ya Yb)
        else OutOfRange, [])
  /\ Integrate3D GetStaticTables new_tables r f3 Xa Xb Ya Yb Za Zb order
     = (if (length xs <=? length ws)%nat
        then Done (gauss_rule3D xs (firstn (length xs) ws) r f3
                     Xa Xb Ya Yb Za Zb)
        else OutOfRange, []).
Proof.
  intros H1 Hr Hx Hw.
  rewrite Integrate1D_eq, Integrate2D_eq, Integrate3D_eq.
  rewrite !with_tables_static with (xs := xs) (ws := ws) by assumption.
  unfold nodes_outcome, gauss_rule1D, gauss_rule2D, gauss_rule3D,
    sum1D, sum2D, sum3D.
  rewrite combine_firstn_l. auto.
Qed.

Lemma Integrate_within_static_table_witness :
  Integrate1D binary64_static_tables binary64_new_tables 0%float
    (fun x => (x * x)%float) 0%float 3%float 3
  = (Done (gauss_rule1D (fst (binary64_entry 3)) (snd (binary64_entry 3))
             0%float (fun x => (x * x)%float) 0%float 3%float), []).
Proof.
  exact (proj1
    (Integrate_within_static_table
       binary64_static_tables binary64_new_tables 0%float
       (fun x => (x * x)%float) (fun x _ => x) (fun x _ _ => x)
       0%float 3%float 0%float 1%float 0%float 1%float (order := 3)
       (xs := fst (binary64_entry 3)) (ws := snd (binary64_entry 3))
       ltac:(lia) ltac:(unfold int_range; lia) eq_refl eq_refl)).
Defined.

(** X4.  On the dynamic path nothing catches the exception of
    [weight->at(i)]: when the entry of the private table has fewer weights
    than roots, each of the three routines leaves by [std::out_of_range]
    after [new] and [PrintTables()], and [delete mtables] is never
    reached. *)
Theorem Integrate_throw_skips_delete
  {D T : Type} {DO : DoubleOps D} {RO : ResultOps D T}
  (GetStaticTables : ChQuadratureTables D)
  (new_tables : Z -> Z -> ChQuadratureTables D)
  (r : T) (f1 : D -> T) (f2 : D -> D -> T) (f3 : D -> D -> D -> T)
  (Xa Xb Ya Yb Za Zb : D) (order : Z) (xs ws : list D) :
  int_range order ->
  (Z.of_nat (length (Lroots GetStaticTables)) < 2 ^ 31)%Z ->
  (order < 0 \/ Z.of_nat (length (Lroots GetStaticTables)) < order)%Z ->
  Lroots (new_tables order order) = [xs] ->
  Weight (new_tables order order) = [ws] ->
  (length ws < length xs)%nat ->
  Integrate1D GetStaticTables new_tables r f1 Xa Xb order
  = (OutOfRange, [EvNew order order; EvPrintTables order order])
  /\ Integrate2D GetStaticTables new_tables r f2 Xa Xb Ya Yb order
     = (OutOfRange, [EvNew order order; EvPrintTables order order])
  /\ Integrate3D GetStaticTables new_tables r f3 Xa Xb Ya Yb Za Zb order
     = (OutOfRange, [EvNew order order; EvPrintTables order order]).
Proof.
  intros Hr Hsize Hord Hx Hw Hlen.
  rewrite Integrate1D_eq, Integrate2D_eq, Integrate3D_eq.
  rewrite !with_tables_dynamic with (xs := xs) (ws := ws) by assumption.
  unfold nodes_outcome.
  destruct (Nat.leb_spec (length xs) (length ws)); [lia|].
  repeat split.
Qed.

Lemma Integrate_throw_skips_delete_witness :
  Integrate1D binary64_static_tables
    (fun _ _ => {| Weight := [[]]; Lroots := [[0%float]] |}) 0%float
    (fun x => x) 0%float 1%float 11
  = (OutOfRange, [EvNew 11 11; EvPrintTables 11 11]).
Proof.
  exact (proj1
    (Integrate_throw_skips_delete
       binary64_static_tables
       (fun _ _ => {| Weight := [[]]; Lroots := [[0%float]] |}) 0%float
       (fun x => x) (fun x _ => x) (fun x _ _ => x)
       0%float 1%float 0%float 1%float 0%float 1%float (order := 11)
       (xs := [0%float]) (ws := [])
       ltac:(unfold int_range; lia) ltac:(simpl; lia)
       ltac:(right; simpl; lia) eq_refl eq_refl ltac:(simpl; lia))).
Defined.

(** ** Result types: structure-preserving maps, members *)

Section Morphisms.

Context {D T T' : Type} {DO : DoubleOps D}.
Context {RO : ResultOps D T} {RO' : ResultOps D T'}.
Variable phi : T -> T'.
Hypothesis Hphi : preserves_ops RO RO' phi.

Lemma sweep_morphism (k : D -> D -> T -> T) (k' : D -> D -> T' -> T')
  (nodes : list (D * D)) (acc : T) :
  (forall x w a, phi (k x w a) = k' x w (phi a)) ->
  phi (sweep k nodes acc) = sweep k' nodes (phi acc).
Proof.
  intro Hk. unfold sweep. revert acc.
  induction nodes as [|[x w] rest IH]; intro acc; simpl; [reflexivity|].
  rewrite IH, Hk. reflexivity.
Qed.

Lemma gauss_rule1D_morphism (xs ws : list D) (r : T) (f : D -> T) (a b : D) :
  phi (gauss_rule1D xs ws r f a b)
  = gauss_rule1D xs ws (phi r) (fun x => phi (f x)) a b.
Proof.
  destruct Hphi as [Hs Ha]. unfold gauss_rule1D, sum1D.
  rewrite Hs. f_equal. rewrite <- Hs. apply sweep_morphism.
  intros x w acc. unfold step1D. rewrite Ha, Hs. reflexivity.
Qed.

Lemma gauss_rule2D_morphism (xs ws : list D) (r : T) (f : D -> D -> T)
  (Xa Xb Ya Yb : D) :
  phi (gauss_rule2D xs ws r f Xa Xb Ya Yb)
  = gauss_rule2D xs ws (phi r) (fun x y => phi (f x y)) Xa Xb Ya Yb.
Proof.
  destruct Hphi as [Hs Ha]. unfold gauss_rule2D, sum2D.
  rewrite Hs. f_equal. rewrite <- Hs. apply sweep_morphism.
  intros x wx acc. apply sweep_morphism.
  intros y wy acc'. unfold step2D. rewrite Ha, Hs. reflexivity.
Qed.

Lemma gauss_rule3D_morphism (xs ws : list D) (r : T) (f : D -> D -> D -> T)
  (Xa Xb Ya Yb Za Zb : D) :
  phi (gauss_rule3D xs ws r f Xa Xb Ya Yb Za Zb)
  = gauss_rule3D xs ws (phi r) (fun x y z => phi (f x y z))
      Xa Xb Ya Yb Za Zb.
Proof.
  destruct Hphi as [Hs Ha]. unfold gauss_rule3D, sum3D.
  rewrite Hs. f_equal. rewrite <- Hs. apply sweep_morphism.
  intros x wx acc. apply sweep_morphism.
  intros y wy acc'. apply sweep_morphism.
  intros z wz acc''. unfold step3D. rewrite Ha, Hs. reflexivity.
Qed.

Lemma with_tables_map (st : ChQuadratureTables D)
  (nt : Z -> Z -> ChQuadratureTables D) (order : Z)
  (g : list D -> list D -> T) :
  with_tables st nt order
    (fun lroots weight => nodes_outcome lroots weight (phi (g lroots weight)))
  = (outcome_map phi
       (fst (with_tables st nt order
               (fun lroots weight =>
                  nodes_outcome lroots weight (g lroots weight)))),
     snd (with_tables st nt order
            (fun lroots weight =>
               nodes_outcome lroots weight (g lroots weight)))).
Proof.
  unfold with_tables.
  destruct (select_tables st nt order) as [[sel static_tables] tr].
  destruct sel as [[lroots weight]| |]; simpl; try reflexivity.
  unfold nodes_outcome.
  destruct (length lroots <=? length weight)%nat; reflexivity.
Qed.

End Morphisms.

(** X5.  The three routines are templates over the result type and use
    nothing of it but [*=] and [+=]: a map [phi] between two result types
    that commutes with these two operators commutes with the routines.
    Integrating [phi] of the integrand into [phi] of the incoming result
    gives [phi] of the value returned, the same failures and the same
    events. *)
Theorem Integrate_commutes_with_morphisms
  {D T T' : Type} {DO : DoubleOps D}
  {RO : ResultOps D T} {RO' : ResultOps D T'}
  (GetStaticTables : ChQuadratureTables D)
  (new_tables : Z -> Z -> ChQuadratureTables D) (phi : T -> T')
  (r : T) (f1 : D -> T) (f2 : D -> D -> T) (f3 : D -> D -> D -> T)
  (Xa Xb Ya Yb Za Zb : D) (order : Z) :
  preserves_ops RO RO' phi ->
  Integrate1D GetStaticTables new_tables (phi r) (fun x => phi (f1 x))
    Xa Xb order
  = (outcome_map phi
       (fst (Integrate1D GetStaticTables new_tables r f1 Xa Xb order)),
     snd (Integrate1D GetStaticTables new_tables r f1 Xa Xb order))
  /\ Integrate2D GetStaticTables new_tables (phi r)
       (fun x y => phi (f2 x y)) Xa Xb Ya Yb order
     = (outcome_map phi
          (fst (Integrate2D GetStaticTables new_tables r f2
                  Xa Xb Ya Yb order)),
        snd (Integrate2D GetStaticTables new_tables r f2 Xa Xb Ya Yb order))
  /\ Integrate3D GetStaticTables new_tables (phi r)
       (fun x y z => phi (f3 x y z)) Xa Xb Ya Yb Za Zb order
     = (outcome_map phi
          (fst (Integrate3D GetStaticTables new_tables r f3
                  Xa Xb Ya Yb Za Zb order)),
        snd (Integrate3D GetStaticTables new_tables r f3
               Xa Xb Ya Yb Za Zb order)).
Proof.
  intro Hphi.
  rewrite !Integrate1D_eq, !Integrate2D_eq, !Integrate3D_eq.
  rewrite <- !(with_tables_map phi).
  repeat split; apply with_tables_ext; intros lroots weight; f_equal;
    symmetry.
  - apply gauss_rule1D_morphism, Hphi.
  - apply gauss_rule2D_morphism, Hphi.
  - apply gauss_rule3D_morphism, Hphi.
Qed.

Lemma Integrate_commutes_with_morphisms_witness :
  Integrate1D binary64_static_tables binary64_new_tables 7%float
    (fun x => (x * x)%float) 0%float 3%float 3
  = (outcome_map fst
       (fst (Integrate1D (RO := pair_result binary64_result binary64_result)
               binary64_static_tables binary64_new_tables
               (7%float, 8%float) (fun x => ((x * x)%float, x))
               0%float 3%float 3)),
     snd (Integrate1D (RO := pair_result binary64_result binary64_result)
            binary64_static_tables binary64_new_tables
            (7%float, 8%float) (fun x => ((x * x)%float, x))
            0%float 3%float 3)).
Proof.
  exact (proj1
    (Integrate_commutes_with_morphisms
       (RO := pair_result binary64_result binary64_result)
       binary64_static_tables binary64_new_tables (phi := fst)
       (7%float, 8%float) (fun x => ((x * x)%float, x))
       (fun x _ => (x, x)) (fun x _ _ => (x, x))
       0%float 3%float 0%float 1%float 0%float 1%float 3
       (conj (fun _ _ => eq_refl) (fun _ _ => eq_refl)))).
Defined.

(** X6.  A result with two members whose [*=] and [+=] work member by
    member is integrated member by member: each member of the value
    returned is what the routine returns for that member alone, on
    machine numbers as well; and the call fails when the calls on the
    members do. *)
Theorem Integrate_member_by_member
  {D T1 T2 : Type} {DO : DoubleOps D}
  {R1 : ResultOps D T1} {R2 : ResultOps D T2}
  (GetStaticTables : ChQuadratureTables D)
  (new_tables : Z -> Z -> ChQuadratureTables D)
  (r1 : T1) (r2 : T2) (f1 : D -> T1) (g1 : D -> T2)
  (f2 : D -> D -> T1) (g2 : D -> D -> T2)
  (f3 : D -> D -> D -> T1) (g3 : D -> D -> D -> T2)
  (Xa Xb Ya Yb Za Zb : D) (order : Z) :
  fst (Integrate1D (RO := pair_result R1 R2) GetStaticTables new_tables
         (r1, r2) (fun x => (f1 x, g1 x)) Xa Xb order)
  = lift2 pair
      (fst (Integrate1D GetStaticTables new_tables r1 f1 Xa Xb order))
      (fst (Integrate1D GetStaticTables new_tables r2 g1 Xa Xb order))
  /\ fst (Integrate2D (RO := pair_result R1 R2) GetStaticTables new_tables
            (r1, r2) (fun x y => (f2 x y, g2 x y)) Xa Xb Ya Yb order)
     = lift2 pair
         (fst (Integrate2D GetStaticTables new_tables r1 f2
                 Xa Xb Ya Yb order))
         (fst (Integrate2D GetStaticTables new_tables r2 g2
                 Xa Xb Ya Yb order))
  /\ fst (Integrate3D (RO := pair_result R1 R2) GetStaticTables new_tables
            (r1, r2) (fun x y z => (f3 x y z, g3 x y z))
            Xa Xb Ya Yb Za Zb order)
     = lift2 pair
         (fst (Integrate3D GetStaticTables new_tables r1 f3
                 Xa Xb Ya Yb Za Zb order))
         (fst (Integrate3D GetStaticTables new_tables r2 g3
                 Xa Xb Ya Yb Za Zb order)).
Proof.
  assert (H1 : preserves_ops (pair_result R1 R2) R1 fst)
    by (split; reflexivity).
  assert (H2 : preserves_ops (pair_result R1 R2) R2 snd)
    by (split; reflexivity).
  rewrite !Integrate1D_eq, !Integrate2D_eq, !Integrate3D_eq,
    !fst_with_tables.
  destruct (fst (fst (select_tables GetStaticTables new_tables order)))
    as [[lroots weight]| |]; cbn [bind fst snd];
    try (repeat split; reflexivity).
  unfold nodes_outcome.
  destruct (length lroots <=? length weight)%nat; unfold lift2;
    cbn [bind]; try (repeat split; reflexivity).
  repeat split; f_equal; apply injective_projections.
  - exact (gauss_rule1D_morphism H1 lroots weight (r1, r2)
             (fun x => (f1 x, g1 x)) Xa Xb).
  - exact (gauss_rule1D_morphism H2 lroots weight (r1, r2)
             (fun x => (f1 x, g1 x)) Xa Xb).
  - exact (gauss_rule2D_morphism H1 lroots weight (r1, r2)
             (fun x y => (f2 x y, g2 x y)) Xa Xb Ya Yb).
  - exact (gauss_rule2D_morphism H2 lroots weight (r1, r2)
             (fun x y => (f2 x y, g2 x y)) Xa Xb Ya Yb).
  - exact (gauss_rule3D_morphism H1 lroots weight (r1, r2)
             (fun x y z => (f3 x y z, g3 x y z)) Xa Xb Ya Yb Za Zb).
  - exact (gauss_rule3D_morphism H2 lroots weight (r1, r2)
             (fun x y z => (f3 x y z, g3 x y z)) Xa Xb Ya Yb Za Zb).
Qed.

(** ** The rule over the reals: linearity, substitution, iteration *)

Section RealRules.

Local Open Scope R_scope.

Lemma gauss_rule1D_ext (xs ws : list R) (r r' : R) (f g : R -> R) (a b : R) :
  (forall x, f x = g x) ->
  gauss_rule1D xs ws r f a b = gauss_rule1D xs ws r' g a b.
Proof.
  intro H. rewrite !gauss_rule1D_R. f_equal. apply wsum_ext.
  intro x. apply H.
Qed.

Lemma gauss_rule1D_linear (xs ws : list R) (r r1 r2 alpha beta : R)
  (f g : R -> R) (a b : R) :
  gauss_rule1D xs ws r (fun x => alpha * f x + beta * g x) a b
  = alpha * gauss_rule1D xs ws r1 f a b
    + beta * gauss_rule1D xs ws r2 g a b.
Proof.
  rewrite !gauss_rule1D_R.
  rewrite (wsum_plus (fun x => alpha * f (mapped a b x))
             (fun x => beta * g (mapped a b x))).
  rewrite (wsum_scale alpha (fun x => f (mapped a b x))).
  rewrite (wsum_scale beta (fun x => g (mapped a b x))).
  ring.
Qed.

Lemma gauss_rule1D_scale (xs ws : list R) (r r' c : R) (f : R -> R)
  (a b : R) :
  gauss_rule1D xs ws r (fun x => c * f x) a b
  = c * gauss_rule1D xs ws r' f a b.
Proof.
  rewrite !gauss_rule1D_R.
  rewrite (wsum_scale c (fun x => f (mapped a b x))). ring.
Qed.

(** The double sum is a sum of sums. *)
Lemma gauss_rule2D_iterated (xs ws : list R) (r r1 r2 : R)
  (f : R -> R -> R) (Xa Xb Ya Yb : R) :
  gauss_rule2D xs ws r f Xa Xb Ya Yb
  = gauss_rule1D xs ws r1
      (fun x => gauss_rule1D xs ws r2 (f x) Ya Yb) Xa Xb.
Proof.
  rewrite gauss_rule2D_R, gauss_rule1D_R. unfold wsum.
  rewrite (Rmult_comm (half_width Xa Xb)), <- Rmult_assoc. f_equal.
  rewrite <- node_sum_scale_r. apply node_sum_ext. intros x wx.
  rewrite gauss_rule1D_R. unfold wsum.
  rewrite node_sum_ext
    with (G := fun y wy => wx * (f (mapped Xa Xb x) (mapped Ya Yb y) * wy)).
  - rewrite node_sum_scale. ring.
  - intros y wy. ring.
Qed.

Lemma gauss_rule3D_iterated (xs ws : list R) (r r1 r2 : R)
  (f : R -> R -> R -> R) (Xa Xb Ya Yb Za Zb : R) :
  gauss_rule3D xs ws r f Xa Xb Ya Yb Za Zb
  = gauss_rule1D xs ws r1
      (fun x => gauss_rule2D xs ws r2 (f x) Ya Yb Za Zb) Xa Xb.
Proof.
  rewrite gauss_rule3D_R, gauss_rule1D_R. unfold wsum.
  replace (half_width Xa Xb * half_width Ya Yb * half_width Za Zb)
    with ((half_width Ya Yb * half_width Za Zb) * half_width Xa Xb) by ring.
  rewrite <- Rmult_assoc. f_equal.
  rewrite <- node_sum_scale_r. apply node_sum_ext. intros x wx.
  rewrite gauss_rule2D_R.
  rewrite node_sum_ext
    with (G := fun y wy =>
                 wx * node_sum
                        (fun z wz =>
                           f (mapped Xa Xb x) (mapped Ya Yb y)
                             (mapped Za Zb z) * (wy * wz))
                        (combine xs ws)).
  - rewrite node_sum_scale. ring.
  - intros y wy. rewrite <- node_sum_scale. apply node_sum_ext.
    intros z wz. ring.
Qed.

Lemma gauss_rule2D_ext (xs ws : list R) (r r' : R) (f g : R -> R -> R)
  (Xa Xb Ya Yb : R) :
  (forall x y, f x y = g x y) ->
  gauss_rule2D xs ws r f Xa Xb Ya Yb = gauss_rule2D xs ws r' g Xa Xb Ya Yb.
Proof.
  intro H.
  rewrite (gauss_rule2D_iterated xs ws r r r f),
    (gauss_rule2D_iterated xs ws r' r r g).
  apply gauss_rule1D_ext. intro x. apply gauss_rule1D_ext. apply H.
Qed.

Lemma gauss_rule2D_linear (xs ws : list R) (r r1 r2 alpha beta : R)
  (f g : R -> R -> R) (Xa Xb Ya Yb : R) :
  gauss_rule2D xs ws r (fun x y => alpha * f x y + beta * g x y)
    Xa Xb Ya Yb
  = alpha * gauss_rule2D xs ws r1 f Xa Xb Ya Yb
    + beta * gauss_rule2D xs ws r2 g Xa Xb Ya Yb.
Proof.
  rewrite (gauss_rule2D_iterated xs ws r r r),
    (gauss_rule2D_iterated xs ws r1 r r f),
    (gauss_rule2D_iterated xs ws r2 r r g).
  rewrite <- (gauss_rule1D_linear xs ws r r r). apply gauss_rule1D_ext.
  intro x. apply gauss_rule1D_linear.
Qed.

Lemma gauss_rule3D_linear (xs ws : list R) (r r1 r2 alpha beta : R)
  (f g : R -> R -> R -> R) (Xa Xb Ya Yb Za Zb : R) :
  gauss_rule3D xs ws r (fun x y z => alpha * f x y z + beta * g x y z)
    Xa Xb Ya Yb Za Zb
  = alpha * gauss_rule3D xs ws r1 f Xa Xb Ya Yb Za Zb
    + beta * gauss_rule3D xs ws r2 g Xa Xb Ya Yb Za Zb.
Proof.
  rewrite (gauss_rule3D_iterated xs ws r r r),
    (gauss_rule3D_iterated xs ws r1 r r f),
    (gauss_rule3D_iterated xs ws r2 r r g).
  rewrite <- (gauss_rule1D_linear xs ws r r r). apply gauss_rule1D_ext.
  intro x. apply gauss_rule2D_linear.
Qed.

Lemma mapped_affine (k s a b x : R) :
  mapped (k * a + s) (k * b + s) x = k * mapped a b x + s.
Proof. unfold mapped, half_width, midpoint. simpl. field. Qed.

Lemma half_width_affine (k s a b : R) :
  half_width (k * a + s) (k * b + s) = k * half_width a b.
Proof. unfold half_width. simpl. field. Qed.

Lemma gauss_rule1D_affine (xs ws : list R) (r r' : R) (f : R -> R)
  (k s a b : R) :
  gauss_rule1D xs ws r f (k * a + s) (k * b + s)
  = k * gauss_rule1D xs ws r' (fun x => f (k * x + s)) a b.
Proof.
  rewrite !gauss_rule1D_R, half_width_affine.
  rewrite wsum_ext with (g' := fun x => f (k * mapped a b x + s)).
  - ring.
  - intro x. rewrite mapped_affine. reflexivity.
Qed.

Lemma gauss_rule2D_affine (xs ws : list R) (r r' : R) (f : R -> R -> R)
  (kx sx ky sy Xa Xb Ya Yb : R) :
  gauss_rule2D xs ws r f (kx * Xa + sx) (kx * Xb + sx)
    (ky * Ya + sy) (ky * Yb + sy)
  = kx * ky * gauss_rule2D xs ws r'
                (fun x y => f (kx * x + sx) (ky * y + sy)) Xa Xb Ya Yb.
Proof.
  rewrite (gauss_rule2D_iterated xs ws r r r),
    (gauss_rule2D_iterated xs ws r' r r).
  rewrite (gauss_rule1D_affine xs ws r r). rewrite Rmult_assoc. f_equal.
  rewrite <- (gauss_rule1D_scale xs ws r r). apply gauss_rule1D_ext.
  intro x. apply gauss_rule1D_affine.
Qed.

Lemma gauss_rule3D_affine (xs ws : list R) (r r' : R)
  (f : R -> R -> R -> R) (kx sx ky sy kz sz Xa Xb Ya Yb Za Zb : R) :
  gauss_rule3D xs ws r f (kx * Xa + sx) (kx * Xb + sx)
    (ky * Ya + sy) (ky * Yb + sy) (kz * Za + sz) (kz * Zb + sz)
  = kx * ky * kz
    * gauss_rule3D xs ws r'
        (fun x y z => f (kx * x + sx) (ky * y + sy) (kz * z + sz))
        Xa Xb Ya Yb Za Zb.
Proof.
  rewrite (gauss_rule3D_iterated xs ws r r r),
    (gauss_rule3D_iterated xs ws r' r r).
  rewrite (gauss_rule1D_affine xs ws r r).
  rewrite !Rmult_assoc. f_equal.
  rewrite <- Rmult_assoc.
  rewrite <- (gauss_rule1D_scale xs ws r r). apply gauss_rule1D_ext.
  intro x. apply gauss_rule2D_affine.
Qed.

Lemma node_sum_swap (F : R -> R -> R -> R -> R) (l l' : list (R * R)) :
  node_sum (fun x wx => node_sum (fun y wy => F x wx y wy) l') l
  = node_sum (fun y wy => node_sum (fun x wx => F x wx y wy) l) l'.
Proof.
  induction l as [|[x wx] rest IH]; simpl.
  - symmetry. apply node_sum_zero.
  - rewrite IH.
    rewrite <- (node_sum_plus (fun y wy => F x wx y wy)
                  (fun y wy => node_sum (fun x' wx' => F x' wx' y wy) rest)).
    reflexivity.
Qed.

Lemma gauss_rule2D_exchange (xs ws : list R) (r r' : R) (f : R -> R -> R)
  (Xa Xb Ya Yb : R) :
  gauss_rule2D xs ws r f Xa Xb Ya Yb
  = gauss_rule2D xs ws r' (fun y x => f x y) Ya Yb Xa Xb.
Proof.
  rewrite !gauss_rule2D_R.
  rewrite (Rmult_comm (half_width Ya Yb)). f_equal.
  rewrite (node_sum_swap
             (fun x wx y wy =>
                f (mapped Xa Xb x) (mapped Ya Yb y) * (wx * wy))).
  apply node_sum_ext. intros y wy. apply node_sum_ext. intros x wx. ring.
Qed.

Lemma gauss_rule3D_exchange_xy (xs ws : list R) (r r' : R)
  (f : R -> R -> R -> R) (Xa Xb Ya Yb Za Zb : R) :
  gauss_rule3D xs ws r f Xa Xb Ya Yb Za Zb
  = gauss_rule3D xs ws r' (fun y x z => f x y z) Ya Yb Xa Xb Za Zb.
Proof.
  rewrite !gauss_rule3D_R.
  rewrite (Rmult_comm (half_width Ya Yb) (half_width Xa Xb)). f_equal.
  rewrite (node_sum_swap
             (fun x wx y wy =>
                node_sum
                  (fun z wz =>
                     f (mapped Xa Xb x) (mapped Ya Yb y) (mapped Za Zb z)
                     * (wx * wy * wz))
                  (combine xs ws))).
  apply node_sum_ext. intros y wy. apply node_sum_ext. intros x wx.
  apply node_sum_ext. intros z wz. ring.
Qed.

Lemma gauss_rule3D_exchange_yz (xs ws : list R) (r r' : R)
  (f : R -> R -> R -> R) (Xa Xb Ya Yb Za Zb : R) :
  gauss_rule3D xs ws r f Xa Xb Ya Yb Za Zb
  = gauss_rule3D xs ws r' (fun x z y => f x y z) Xa Xb Za Zb Ya Yb.
Proof.
  rewrite (gauss_rule3D_iterated xs ws r r r),
    (gauss_rule3D_iterated xs ws r' r r).
  apply gauss_rule1D_ext. intro x. apply gauss_rule2D_exchange.
Qed.

End RealRules.

Section RealOrder.

Local Open Scope R_scope.

Lemma mapped_between (a b x : R) :
  -1 <= x <= 1 -> Rmin a b <= mapped a b x <= Rmax a b.
Proof.
  intros [Hlo Hhi]. rewrite mapped_R.
  destruct (Rle_dec a b) as [Hab|Hab].
  - rewrite Rmin_left, Rmax_right by exact Hab.
    assert (0 <= (b - a) * (x + 1)) by (apply Rmult_le_pos; lra).
    assert (0 <= (b - a) * (1 - x)) by (apply Rmult_le_pos; lra).
    lra.
  - assert (Hba : b <= a) by lra.
    rewrite Rmin_right, Rmax_left by exact Hba.
    assert (0 <= (a - b) * (x + 1)) by (apply Rmult_le_pos; lra).
    assert (0 <= (a - b) * (1 - x)) by (apply Rmult_le_pos; lra).
    lra.
Qed.

Lemma gauss_rule1D_local (xs ws : list R) (r r' : R) (f g : R -> R)
  (a b : R) :
  Forall (fun x => -1 <= x <= 1) xs ->
  (forall t, Rmin a b <= t <= Rmax a b -> f t = g t) ->
  gauss_rule1D xs ws r f a b = gauss_rule1D xs ws r' g a b.
Proof.
  intros Hxs H. rewrite !gauss_rule1D_R. f_equal.
  apply wsum_Forall_ext. apply Forall_impl with (2 := Hxs).
  intros x Hx. apply H, mapped_between, Hx.
Qed.

Lemma wsum_le (g h : R -> R) (xs ws : list R) :
  Forall (fun x => g x <= h x) xs -> Forall (fun w => 0 <= w) ws ->
  wsum g xs ws <= wsum h xs ws.
Proof.
  unfold wsum. intro H. revert ws.
  induction H as [|x xs Hx _ IH]; intros [|w ws] Hw; simpl; try lra.
  inversion Hw as [|? ? Hw0 Hws]; subst.
  specialize (IH ws Hws).
  assert (g x * w <= h x * w) by (apply Rmult_le_compat_r; assumption).
  lra.
Qed.

Lemma gauss_rule1D_monotone (xs ws : list R) (r r' : R) (f g : R -> R)
  (a b : R) :
  Forall (fun x => -1 <= x <= 1) xs -> Forall (fun w => 0 <= w) ws ->
  a <= b -> (forall t, a <= t <= b -> f t <= g t) ->
  gauss_rule1D xs ws r f a b <= gauss_rule1D xs ws r' g a b.
Proof.
  intros Hxs Hws Hab H. rewrite !gauss_rule1D_R.
  apply Rmult_le_compat_r.
  - unfold half_width. simpl. lra.
  - apply wsum_le; [|exact Hws].
    apply Forall_impl with (2 := Hxs). intros x Hx. apply H.
    pose proof (mapped_between a b Hx) as Hm.
    rewrite Rmin_left, Rmax_right in Hm by exact Hab. exact Hm.
Qed.

End RealOrder.

(** X7.  In exact arithmetic (over the reals) the three routines are
    linear in the integrand, for every table, every order and every
    domain: the value returned for [alpha * f + beta * g] is [alpha]
    times the value for [f] plus [beta] times the value for [g]; when the
    order or the table makes one of the calls fail, the others fail
    alike. *)
Theorem Integrate_linear
  (GetStaticTables : ChQuadratureTables R)
  (new_tables : Z -> Z -> ChQuadratureTables R)
  (r r1 r2 alpha beta : R) (f1 g1 : R -> R) (f2 g2 : R -> R -> R)
  (f3 g3 : R -> R -> R -> R) (Xa Xb Ya Yb Za Zb : R) (order : Z) :
  fst (Integrate1D GetStaticTables new_tables r
         (fun x => (alpha * f1 x + beta * g1 x)%R) Xa Xb order)
  = lift2 (fun u v => (alpha * u + beta * v)%R)
      (fst (Integrate1D GetStaticTables new_tables r1 f1 Xa Xb order))
      (fst (Integrate1D GetStaticTables new_tables r2 g1 Xa Xb order))
  /\ fst (Integrate2D GetStaticTables new_tables r
            (fun x y => (alpha * f2 x y + beta * g2 x y)%R)
            Xa Xb Ya Yb order)
     = lift2 (fun u v => (alpha * u + beta * v)%R)
         (fst (Integrate2D GetStaticTables new_tables r1 f2
                 Xa Xb Ya Yb order))
         (fst (Integrate2D GetStaticTables new_tables r2 g2
                 Xa Xb Ya Yb order))
  /\ fst (Integrate3D GetStaticTables new_tables r
            (fun x y z => (alpha * f3 x y z + beta * g3 x y z)%R)
            Xa Xb Ya Yb Za Zb order)
     = lift2 (fun u v => (alpha * u + beta * v)%R)
         (fst (Integrate3D GetStaticTables new_tables r1 f3
                 Xa Xb Ya Yb Za Zb order))
         (fst (Integrate3D GetStaticTables new_tables r2 g3
                 Xa Xb Ya Yb Za Zb order)).
Proof.
  rewrite !Integrate1D_eq, !Integrate2D_eq, !Integrate3D_eq,
    !fst_with_tables.
  destruct (fst (fst (select_tables GetStaticTables new_tables order)))
    as [[lroots weight]| |]; cbn [bind fst snd];
    try (repeat split; reflexivity).
  unfold nodes_outcome.
  destruct (length lroots <=? length weight)%nat; unfold lift2;
    cbn [bind]; try (repeat split; reflexivity).
  repeat split; f_equal.
  - apply gauss_rule1D_linear.
  - apply gauss_rule2D_linear.
  - apply gauss_rule3D_linear.
Qed.

(** X8.  In exact arithmetic, for every table and every order, the three
    routines obey the rule of substitution for an affine change of
    variable on each axis: integrating [f] between [k * a + s] and
    [k * b + s] gives [k] times the result of integrating
    [fun x => f (k * x + s)] between [a] and [b]; in two and three
    dimensions the factor is the product of the factors of the axes. *)
Theorem Integrate_affine_substitution
  (GetStaticTables : ChQuadratureTables R)
  (new_tables : Z -> Z -> ChQuadratureTables R)
  (r r' : R) (f1 : R -> R) (f2 : R -> R -> R) (f3 : R -> R -> R -> R)
  (kx sx ky sy kz sz Xa Xb Ya Yb Za Zb : R) (order : Z) :
  fst (Integrate1D GetStaticTables new_tables r f1
         (kx * Xa + sx)%R (kx * Xb + sx)%R order)
  = outcome_map (Rmult kx)
      (fst (Integrate1D GetStaticTables new_tables r'
              (fun x => f1 (kx * x + sx)%R) Xa Xb order))
  /\ fst (Integrate2D GetStaticTables new_tables r f2
            (kx * Xa + sx)%R (kx * Xb + sx)%R
            (ky * Ya + sy)%R (ky * Yb + sy)%R order)
     = outcome_map (Rmult (kx * ky))
         (fst (Integrate2D GetStaticTables new_tables r'
                 (fun x y => f2 (kx * x + sx)%R (ky * y + sy)%R)
                 Xa Xb Ya Yb order))
  /\ fst (Integrate3D GetStaticTables new_tables r f3
            (kx * Xa + sx)%R (kx * Xb + sx)%R
            (ky * Ya + sy)%R (ky * Yb + sy)%R
            (kz * Za + sz)%R (kz * Zb + sz)%R order)
     = outcome_map (Rmult (kx * ky * kz))
         (fst (Integrate3D GetStaticTables new_tables r'
                 (fun x y z =>
                    f3 (kx * x + sx)%R (ky * y + sy)%R (kz * z + sz)%R)
                 Xa Xb Ya Yb Za Zb order)).
Proof.
  rewrite !Integrate1D_eq, !Integrate2D_eq, !Integrate3D_eq,
    !fst_with_tables.
  destruct (fst (fst (select_tables GetStaticTables new_tables order)))
    as [[lroots weight]| |]; cbn [bind fst snd];
    try (repeat split; reflexivity).
  unfold nodes_outcome.
  destruct (length lroots <=? length weight)%nat; unfold outcome_map;
    cbn [bind]; try (repeat split; reflexivity).
  repeat split; f_equal.
  - apply gauss_rule1D_affine.
  - apply gauss_rule2D_affine.
  - apply gauss_rule3D_affine.
Qed.

(** X9.  In exact arithmetic, for every table and every order, a call of
    [Integrate2D] returns what [Integrate1D] returns along [x] for the
    integrand that itself calls [Integrate1D] along [y] and reads the
    result; a call of [Integrate3D], what [Integrate1D] returns along [x]
    for the integrand that calls [Integrate2D] on [y] and [z].  The
    nested calls fail when the outer one does. *)
Theorem Integrate_iterated
  (GetStaticTables : ChQuadratureTables R)
  (new_tables : Z -> Z -> ChQuadratureTables R)
  (r r1 r2 : R) (f2 : R -> R -> R) (f3 : R -> R -> R -> R)
  (Xa Xb Ya Yb Za Zb : R) (order : Z) :
  fst (Integrate2D GetStaticTables new_tables r f2 Xa Xb Ya Yb order)
  = fst (Integrate1D GetStaticTables new_tables r1
           (fun x =>
              returned_or 0%R
                (fst (Integrate1D GetStaticTables new_tables r2 (f2 x)
                        Ya Yb order)))
           Xa Xb order)
  /\ fst (Integrate3D GetStaticTables new_tables r f3
            Xa Xb Ya Yb Za Zb order)
     = fst (Integrate1D GetStaticTables new_tables r1
              (fun x =>
                 returned_or 0%R
                   (fst (Integrate2D GetStaticTables new_tables r2 (f3 x)
                           Ya Yb Za Zb order)))
              Xa Xb order).
Proof.
  rewrite Integrate1D_eq, Integrate2D_eq, Integrate3D_eq.
  rewrite (Integrate1D_eq GetStaticTables new_tables r1 _ Xa Xb order).
  rewrite !fst_with_tables.
  destruct (fst (fst (select_tables GetStaticTables new_tables order)))
    as [[lroots weight]| |] eqn:Esel; cbn [bind fst snd];
    try (split; reflexivity).
  unfold nodes_outcome.
  destruct (length lroots <=? length weight)%nat eqn:Elen;
    try (split; reflexivity).
  split; f_equal.
  - rewrite (gauss_rule2D_iterated lroots weight r r1 r2).
    apply gauss_rule1D_ext. intro x.
    rewrite Integrate1D_eq, fst_with_tables, Esel. cbn [bind fst snd].
    unfold nodes_outcome. rewrite Elen. reflexivity.
  - rewrite (gauss_rule3D_iterated lroots weight r r1 r2).
    apply gauss_rule1D_ext. intro x.
    rewrite Integrate2D_eq, fst_with_tables, Esel. cbn [bind fst snd].
    unfold nodes_outcome. rewrite Elen. reflexivity.
Qed.

(** X10.  In exact arithmetic, for every table and every order, the
    result of [Integrate2D] and of [Integrate3D] does not depend on which
    axis is called [x]: exchanging two arguments of the integrand
    together with the bounds of the two axes gives the same result. *)
Theorem Integrate_axis_exchange
  (GetStaticTables : ChQuadratureTables R)
  (new_tables : Z -> Z -> ChQuadratureTables R)
  (r r' : R) (f2 : R -> R -> R) (f3 : R -> R -> R -> R)
  (Xa Xb Ya Yb Za Zb : R) (order : Z) :
  fst (Integrate2D GetStaticTables new_tables r f2 Xa Xb Ya Yb order)
  = fst (Integrate2D GetStaticTables new_tables r' (fun y x => f2 x y)
           Ya Yb Xa Xb order)
  /\ fst (Integrate3D GetStaticTables new_tables r f3
            Xa Xb Ya Yb Za Zb order)
     = fst (Integrate3D GetStaticTables new_tables r'
              (fun y x z => f3 x y z) Ya Yb Xa Xb Za Zb order)
  /\ fst (Integrate3D GetStaticTables new_tables r f3
            Xa Xb Ya Yb Za Zb order)
     = fst (Integrate3D GetStaticTables new_tables r'
              (fun x z y => f3 x y z) Xa Xb Za Zb Ya Yb order).
Proof.
  rewrite !Integrate2D_eq, !Integrate3D_eq, !fst_with_tables.
  destruct (fst (fst (select_tables GetStaticTables new_tables order)))
    as [[lroots weight]| |]; cbn [bind fst snd];
    try (repeat split; reflexivity).
  unfold nodes_outcome.
  destruct (length lroots <=? length weight)%nat;
    try (repeat split; reflexivity).
  repeat split; f_equal.
  - apply gauss_rule2D_exchange.
  - apply gauss_rule3D_exchange_xy.
  - apply gauss_rule3D_exchange_yz.
Qed.

Section RealOrderSeveral.

Local Open Scope R_scope.

Variables xs ws : list R.
Hypothesis inside : Forall (fun x => -1 <= x <= 1) xs.

Lemma gauss_rule2D_local (r r' : R) (f g : R -> R -> R) (Xa Xb Ya Yb : R) :
  (forall x y, Rmin Xa Xb <= x <= Rmax Xa Xb ->
               Rmin Ya Yb <= y <= Rmax Ya Yb -> f x y = g x y) ->
  gauss_rule2D xs ws r f Xa Xb Ya Yb = gauss_rule2D xs ws r' g Xa Xb Ya Yb.
Proof.
  intro H.
  rewrite (gauss_rule2D_iterated xs ws r r r f),
    (gauss_rule2D_iterated xs ws r' r r g).
  apply gauss_rule1D_local; [exact inside|]. intros x Hx.
  apply gauss_rule1D_local; [exact inside|]. intros y Hy.
  apply H; assumption.
Qed.

Lemma gauss_rule3D_local (r r' : R) (f g : R -> R -> R -> R)
  (Xa Xb Ya Yb Za Zb : R) :
  (forall x y z, Rmin Xa Xb <= x <= Rmax Xa Xb ->
                 Rmin Ya Yb <= y <= Rmax Ya Yb ->
                 Rmin Za Zb <= z <= Rmax Za Zb -> f x y z = g x y z) ->
  gauss_rule3D xs ws r f Xa Xb Ya Yb Za Zb
  = gauss_rule3D xs ws r' g Xa Xb Ya Yb Za Zb.
Proof.
  intro H.
  rewrite (gauss_rule3D_iterated xs ws r r r f),
    (gauss_rule3D_iterated xs ws r' r r g).
  apply gauss_rule1D_local; [exact inside|]. intros x Hx.
  apply gauss_rule2D_local. intros y z Hy Hz.
  apply H; assumption.
Qed.

Hypothesis positive : Forall (fun w => 0 <= w) ws.

Lemma gauss_rule2D_monotone (r r' : R) (f g : R -> R -> R)
  (Xa Xb Ya Yb : R) :
  Xa <= Xb -> Ya <= Yb ->
  (forall x y, Xa <= x <= Xb -> Ya <= y <= Yb -> f x y <= g x y) ->
  gauss_rule2D xs ws r f Xa Xb Ya Yb <= gauss_rule2D xs ws r' g Xa Xb Ya Yb.
Proof.
  intros HX HY H.
  rewrite (gauss_rule2D_iterated xs ws r r r f),
    (gauss_rule2D_iterated xs ws r' r r g).
  apply gauss_rule1D_monotone; try assumption. intros x Hx.
  apply gauss_rule1D_monotone; try assumption. intros y Hy.
  apply H; assumption.
Qed.

Lemma gauss_rule3D_monotone (r r' : R) (f g : R -> R -> R -> R)
  (Xa Xb Ya Yb Za Zb : R) :
  Xa <= Xb -> Ya <= Yb -> Za <= Zb ->
  (forall x y z, Xa <= x <= Xb -> Ya <= y <= Yb -> Za <= z <= Zb ->
                 f x y z <= g x y z) ->
  gauss_rule3D xs ws r f Xa Xb Ya Yb Za Zb
  <= gauss_rule3D xs ws r' g Xa Xb Ya Yb Za Zb.
Proof.
  intros HX HY HZ H.
  rewrite (gauss_rule3D_iterated xs ws r r r f),
    (gauss_rule3D_iterated xs ws r' r r g).
  apply gauss_rule1D_monotone; try assumption. intros x Hx.
  apply gauss_rule2D_monotone; try assumption. intros y z Hy Hz.
  apply H; assumption.
Qed.

End RealOrderSeveral.

Lemma real_entry_2_inside :
  Forall (fun x => (-1 <= x <= 1)%R)
    [(- R_sqrt.sqrt (1 / 3))%R; R_sqrt.sqrt (1 / 3)].
Proof.
  pose proof sqrt_third as Hs.
  assert (Hpos : (0 < R_sqrt.sqrt (1 / 3))%R) by (apply sqrt_lt_R0; lra).
  repeat constructor; nra.
Qed.

(** X11.  In exact arithmetic, with an order whose entry in the static
    table has its roots in [[-1, 1]], the three routines evaluate the
    integrand inside the domain of integration only, whichever way the
    bounds are ordered: two integrands that agree on the domain give the
    same result. *)
Theorem Integrate_reads_inside_domain
  (GetStaticTables : ChQuadratureTables R)
  (new_tables : Z -> Z -> ChQuadratureTables R)
  (r r' : R) (f1 g1 : R -> R) (f2 g2 : R -> R -> R)
  (f3 g3 : R -> R -> R -> R) (Xa Xb Ya Yb Za Zb : R) (order : Z)
  (xs ws : list R) :
  (1 <= order)%Z -> int_range order ->
  nth_error (Lroots GetStaticTables) (Z.to_nat (order - 1)) = Some xs ->
  nth_error (Weight GetStaticTables) (Z.to_nat (order - 1)) = Some ws ->
  Forall (fun x => (-1 <= x <= 1)%R) xs ->
  (forall x, (Rmin Xa Xb <= x <= Rmax Xa Xb)%R -> f1 x = g1 x) ->
  (forall x y, (Rmin Xa Xb <= x <= Rmax Xa Xb)%R ->
               (Rmin Ya Yb <= y <= Rmax Ya Yb)%R -> f2 x y = g2 x y) ->
  (forall x y z, (Rmin Xa Xb <= x <= Rmax Xa Xb)%R ->
                 (Rmin Ya Yb <= y <= Rmax Ya Yb)%R ->
                 (Rmin Za Zb <= z <= Rmax Za Zb)%R -> f3 x y z = g3 x y z) ->
  Integrate1D GetStaticTables new_tables r f1 Xa Xb order
  = Integrate1D GetStaticTables new_tables r' g1 Xa Xb order
  /\ Integrate2D GetStaticTables new_tables r f2 Xa Xb Ya Yb order
     = Integrate2D GetStaticTables new_tables r' g2 Xa Xb Ya Yb order
  /\ Integrate3D GetStaticTables new_tables r f3 Xa Xb Ya Yb Za Zb order
     = Integrate3D GetStaticTables new_tables r' g3 Xa Xb Ya Yb Za Zb order.
Proof.
  intros H1 Hr Hx Hw Hin E1 E2 E3.
  rewrite !Integrate1D_eq, !Integrate2D_eq, !Integrate3D_eq.
  rewrite !with_tables_static with (xs := xs) (ws := ws) by assumption.
  repeat split; f_equal; f_equal.
  - apply gauss_rule1D_local; assumption.
  - apply gauss_rule2D_local; assumption.
  - apply gauss_rule3D_local; assumption.
Qed.

Lemma Integrate_reads_inside_domain_witness :
  Integrate1D real_static_tables real_new_tables 0%R
    (fun x => x) 0%R 1%R 2
  = Integrate1D real_static_tables real_new_tables 0%R
      (fun x => Rmax x 0) 0%R 1%R 2.
Proof.
  refine (proj1
    (Integrate_reads_inside_domain
       real_static_tables real_new_tables 0%R 0%R
       (fun x => x) (fun x => Rmax x 0)
       (fun x _ => x) (fun x _ => Rmax x 0)
       (fun x _ _ => x) (fun x _ _ => Rmax x 0)
       0%R 1%R 0%R 1%R 0%R 1%R (order := 2)
       (xs := [- R_sqrt.sqrt (1 / 3); R_sqrt.sqrt (1 / 3)]%R)
       (ws := [1; 1]%R) _ _ eq_refl eq_refl real_entry_2_inside _ _ _)).
  - lia.
  - unfold int_range. lia.
  - intros x [Hx _]. rewrite Rmin_left in Hx by lra.
    rewrite Rmax_left by exact Hx. reflexivity.
  - intros x y [Hx _] _. rewrite Rmin_left in Hx by lra.
    rewrite Rmax_left by exact Hx. reflexivity.
  - intros x y z [Hx _] _ _. rewrite Rmin_left in Hx by lra.
    rewrite Rmax_left by exact Hx. reflexivity.
Defined.

(** X12.  In exact arithmetic, with an order whose entry in the static
    table has its roots in [[-1, 1]] and no negative weight, and with
    bounds in increasing order on each axis, the three routines are
    monotone: an integrand that is nowhere larger than another one on the
    domain gets a result that is not larger. *)
Theorem Integrate_monotone
  (GetStaticTables : ChQuadratureTables R)
  (new_tables : Z -> Z -> ChQuadratureTables R)
  (r r' : R) (f1 g1 : R -> R) (f2 g2 : R -> R -> R)
  (f3 g3 : R -> R -> R -> R) (Xa Xb Ya Yb Za Zb : R) (order : Z)
  (xs ws : list R) :
  (1 <= order)%Z -> int_range order ->
  nth_error (Lroots GetStaticTables) (Z.to_nat (order - 1)) = Some xs ->
  nth_error (Weight GetStaticTables) (Z.to_nat (order - 1)) = Some ws ->
  length xs = length ws ->
  Forall (fun x => (-1 <= x <= 1)%R) xs ->
  Forall (fun w => (0 <= w)%R) ws ->
  (Xa <= Xb)%R -> (Ya <= Yb)%R -> (Za <= Zb)%R ->
  (forall x, (Xa <= x <= Xb)%R -> (f1 x <= g1 x)%R) ->
  (forall x y, (Xa <= x <= Xb)%R -> (Ya <= y <= Yb)%R ->
               (f2 x y <= g2 x y)%R) ->
  (forall x y z, (Xa <= x <= Xb)%R -> (Ya <= y <= Yb)%R ->
                 (Za <= z <= Zb)%R -> (f3 x y z <= g3 x y z)%R) ->
  (exists u v,
     fst (Integrate1D GetStaticTables new_tables r f1 Xa Xb order) = Done u
     /\ fst (Integrate1D GetStaticTables new_tables r' g1 Xa Xb order)
        = Done v
     /\ (u <= v)%R)
  /\ (exists u v,
        fst (Integrate2D GetStaticTables new_tables r f2 Xa Xb Ya Yb order)
        = Done u
        /\ fst (Integrate2D GetStaticTables new_tables r' g2
                  Xa Xb Ya Yb order) = Done v
        /\ (u <= v)%R)
  /\ (exists u v,
        fst (Integrate3D GetStaticTables new_tables r f3
               Xa Xb Ya Yb Za Zb order) = Done u
        /\ fst (Integrate3D GetStaticTables new_tables r' g3
                  Xa Xb Ya Yb Za Zb order) = Done v
        /\ (u <= v)%R).
Proof.
  intros H1 Hr Hx Hw Hlen Hin Hpos HX HY HZ L1 L2 L3.
  rewrite !Integrate1D_eq, !Integrate2D_eq, !Integrate3D_eq.
  rewrite !with_tables_static with (xs := xs) (ws := ws) by assumption.
  cbn [fst]. rewrite !nodes_outcome_same_length by exact Hlen.
  split; [|split]; eexists; eexists; (split; [reflexivity|]);
    (split; [reflexivity|]).
  - apply gauss_rule1D_monotone; assumption.
  - apply gauss_rule2D_monotone; assumption.
  - apply gauss_rule3D_monotone; assumption.
Qed.

Lemma Integrate_monotone_witness :
  exists u v,
    fst (Integrate1D real_static_tables real_new_tables 0%R
           (fun x => x) 0%R 1%R 2) = Done u
    /\ fst (Integrate1D real_static_tables real_new_tables 0%R
              (fun x => (x + 1)%R) 0%R 1%R 2) = Done v
    /\ (u <= v)%R.
Proof.
  refine (proj1
    (Integrate_monotone
       real_static_tables real_new_tables 0%R 0%R
       (fun x => x) (fun x => (x + 1)%R)
       (fun x _ => x) (fun x _ => (x + 1)%R)
       (fun x _ _ => x) (fun x _ _ => (x + 1)%R)
       (Xa := 0%R) (Xb := 1%R) (Ya := 0%R) (Yb := 1%R)
       (Za := 0%R) (Zb := 1%R) (order := 2)
       (xs := [- R_sqrt.sqrt (1 / 3); R_sqrt.sqrt (1 / 3)]%R)
       (ws := [1; 1]%R) _ _ eq_refl eq_refl eq_refl real_entry_2_inside
       _ _ _ _ _ _ _)).
  - lia.
  - unfold int_range. lia.
  - repeat constructor; lra.
  - lra.
  - lra.
  - lra.
  - intros x _. lra.
  - intros x y _ _. lra.
  - intros x y z _ _ _. lra.
Defined.

(** ** Exactness on polynomials in two and three variables *)

Section ExactnessSeveral.

Local Open Scope R_scope.

Lemma gauss_rule1D_zero (xs ws : list R) (r a b : R) :
  gauss_rule1D xs ws r (fun _ => 0) a b = 0.
Proof. rewrite gauss_rule1D_R, wsum_zero. ring. Qed.

Lemma gauss_rule2D_zero (xs ws : list R) (r Xa Xb Ya Yb : R) :
  gauss_rule2D xs ws r (fun _ _ => 0) Xa Xb Ya Yb = 0.
Proof.
  rewrite (gauss_rule2D_iterated xs ws r r r).
  rewrite gauss_rule1D_ext with (r' := r) (g := fun _ => 0).
  - apply gauss_rule1D_zero.
  - intro x. apply gauss_rule1D_zero.
Qed.

Lemma peval2_cons (q : list R) (P : list (list R)) (x y : R) :
  peval2 (q :: P) x y = peval q y + x * peval2 P x y.
Proof. reflexivity. Qed.

Lemma peval3_cons (Q : list (list R)) (P : list (list (list R)))
  (x y z : R) :
  peval3 (Q :: P) x y z = peval2 Q y z + x * peval3 P x y z.
Proof. reflexivity. Qed.

Variable n : nat.
Variables xs ws : list R.
Hypothesis Hn : (1 <= n <= 10)%nat.
Hypothesis HGL : GL_entry n xs ws.

Lemma inner_exact (P : list (list R)) (r x Ya Yb : R) :
  Forall (fun q => (length q <= 2 * n)%nat) P ->
  gauss_rule1D xs ws r (fun y => peval2 P x y) Ya Yb
  = peval (map (fun q => closed_integral q Ya Yb) P) x.
Proof.
  induction 1 as [|q P Hq _ IH].
  - apply gauss_rule1D_zero.
  - rewrite gauss_rule1D_ext
      with (r' := r) (g := fun y => 1 * peval q y + x * peval2 P x y)
      by (intro y; rewrite peval2_cons; ring).
    rewrite (gauss_rule1D_linear xs ws r r r 1 x (peval q)
               (fun y => peval2 P x y)).
    rewrite IH, (@gauss_rule1D_exact n xs ws q r Ya Yb Hn HGL Hq).
    cbn [map peval]. ring.
Qed.

Lemma gauss_rule2D_exact (P : list (list R)) (r Xa Xb Ya Yb : R) :
  (length P <= 2 * n)%nat ->
  Forall (fun q => (length q <= 2 * n)%nat) P ->
  gauss_rule2D xs ws r (peval2 P) Xa Xb Ya Yb
  = closed_integral2 P Xa Xb Ya Yb.
Proof.
  intros HP Hq. rewrite (gauss_rule2D_iterated xs ws r r r).
  rewrite gauss_rule1D_ext
    with (r' := r)
         (g := peval (map (fun q => closed_integral q Ya Yb) P))
    by (intro x; apply inner_exact, Hq).
  apply (@gauss_rule1D_exact n xs ws _ r Xa Xb Hn HGL).
  rewrite length_map. exact HP.
Qed.

Lemma inner2D_exact (P : list (list (list R))) (r x Ya Yb Za Zb : R) :
  Forall (fun Q => (length Q <= 2 * n)%nat
                   /\ Forall (fun q => (length q <= 2 * n)%nat) Q) P ->
  gauss_rule2D xs ws r (fun y z => peval3 P x y z) Ya Yb Za Zb
  = peval (map (fun Q => closed_integral2 Q Ya Yb Za Zb) P) x.
Proof.
  induction 1 as [|Q P [HQ Hq] _ IH].
  - apply gauss_rule2D_zero.
  - rewrite gauss_rule2D_ext
      with (r' := r)
           (g := fun y z => 1 * peval2 Q y z + x * peval3 P x y z)
      by (intros y z; rewrite peval3_cons; ring).
    rewrite (gauss_rule2D_linear xs ws r r r 1 x (peval2 Q)
               (fun y z => peval3 P x y z)).
    rewrite IH, (@gauss_rule2D_exact Q r Ya Yb Za Zb HQ Hq).
    cbn [map peval]. ring.
Qed.

Lemma gauss_rule3D_exact (P : list (list (list R)))
  (r Xa Xb Ya Yb Za Zb : R) :
  (length P <= 2 * n)%nat ->
  Forall (fun Q => (length Q <= 2 * n)%nat
                   /\ Forall (fun q => (length q <= 2 * n)%nat) Q) P ->
  gauss_rule3D xs ws r (peval3 P) Xa Xb Ya Yb Za Zb
  = closed_integral3 P Xa Xb Ya Yb Za Zb.
Proof.
  intros HP HQ. rewrite (gauss_rule3D_iterated xs ws r r r).
  rewrite gauss_rule1D_ext
    with (r' := r)
         (g := peval (map (fun Q => closed_integral2 Q Ya Yb Za Zb) P))
    by (intro x; apply inner2D_exact, HQ).
  apply (@gauss_rule1D_exact n xs ws _ r Xa Xb Hn HGL).
  rewrite length_map. exact HP.
Qed.

End ExactnessSeveral.

Section IteratedIntegrals.

Local Open Scope R_scope.

Lemma RiemannInt_ext_any (f g : R -> R) (a b : R)
  (pr1 : Riemann_integrable f a b) (pr2 : Riemann_integrable g a b) :
  (forall x, f x = g x) -> RiemannInt pr1 = RiemannInt pr2.
Proof.
  intro H. destruct (Rle_dec a b) as [Hab|Hab].
  - apply RiemannInt_P18; [exact Hab|]. intros x _. apply H.
  - rewrite (RiemannInt_P8 pr1 (RiemannInt_P1 pr1)),
      (RiemannInt_P8 pr2 (RiemannInt_P1 pr2)).
    f_equal. apply RiemannInt_P18; [lra|]. intros x _. apply H.
Qed.

Lemma peval_pantideriv_from_padd (k : nat) (p q : list R) (x : R) :
  peval (pantideriv_from k (padd p q)) x
  = peval (pantideriv_from k p) x + peval (pantideriv_from k q) x.
Proof.
  revert k q. induction p as [|a p IH]; intros k [|b q];
    cbn [padd pantideriv_from peval]; try ring.
  rewrite IH. unfold Rdiv. ring.
Qed.

Lemma peval_pantideriv_from_pscale (k : nat) (c : R) (p : list R) (x : R) :
  peval (pantideriv_from k (pscale c p)) x
  = c * peval (pantideriv_from k p) x.
Proof.
  unfold pscale. revert k.
  induction p as [|a p IH]; intro k; cbn [map pantideriv_from peval];
    [ring|].
  rewrite IH. unfold Rdiv. ring.
Qed.

Lemma closed_integral_padd (p q : list R) (a b : R) :
  closed_integral (padd p q) a b
  = closed_integral p a b + closed_integral q a b.
Proof.
  unfold closed_integral, pantideriv. cbn [peval].
  rewrite !peval_pantideriv_from_padd. ring.
Qed.

Lemma closed_integral_pscale (c : R) (p : list R) (a b : R) :
  closed_integral (pscale c p) a b = c * closed_integral p a b.
Proof.
  unfold closed_integral, pantideriv. cbn [peval].
  rewrite !peval_pantideriv_from_pscale. ring.
Qed.

Lemma peval_slice (P : list (list R)) (x y : R) :
  peval (slice P x) y = peval2 P x y.
Proof.
  induction P as [|q P IH]; [reflexivity|].
  cbn [slice fold_right]. rewrite peval_padd, peval_pscale.
  fold (slice P x). rewrite IH. reflexivity.
Qed.

Lemma closed_integral_slice (P : list (list R)) (x a b : R) :
  closed_integral (slice P x) a b
  = peval (map (fun q => closed_integral q a b) P) x.
Proof.
  induction P as [|q P IH].
  - unfold closed_integral, pantideriv. simpl. ring.
  - cbn [slice fold_right]. rewrite closed_integral_padd,
      closed_integral_pscale.
    fold (slice P x). rewrite IH. reflexivity.
Qed.

(** The integral in [y] of a polynomial in [x] and [y], as a polynomial
    in [x]. *)
Lemma inner_RiemannInt (P : list (list R)) (x Ya Yb : R)
  (pr : Riemann_integrable (fun y => peval2 P x y) Ya Yb) :
  RiemannInt pr = peval (map (fun q => closed_integral q Ya Yb) P) x.
Proof.
  assert (pr' : Riemann_integrable (peval (slice P x)) Ya Yb).
  { apply (Riemann_integrable_ext (f := fun y => peval2 P x y));
      [|exact pr].
    intros y _. symmetry. apply peval_slice. }
  rewrite (RiemannInt_ext_any pr pr')
    by (intro y; symmetry; apply peval_slice).
  rewrite closed_integral_RiemannInt. apply closed_integral_slice.
Qed.

(** The integral in [z] of a polynomial in [x], [y] and [z], as a
    polynomial in [x] and [y]. *)
Lemma innermost_RiemannInt (P : list (list (list R))) (x y Za Zb : R)
  (pr : Riemann_integrable (fun z => peval3 P x y z) Za Zb) :
  RiemannInt pr
  = peval2 (map (map (fun q => closed_integral q Za Zb)) P) x y.
Proof.
  assert (E : forall z,
             peval3 P x y z = peval2 (map (fun Q => slice Q y) P) x z).
  { intro z. unfold peval3, peval2. rewrite map_map. f_equal.
    apply map_ext. intro Q. symmetry. apply peval_slice. }
  assert (pr' : Riemann_integrable
                  (fun z => peval2 (map (fun Q => slice Q y) P) x z) Za Zb).
  { apply (Riemann_integrable_ext (f := fun z => peval3 P x y z));
      [|exact pr].
    intros z _. apply E. }
  rewrite (RiemannInt_ext_any pr pr') by exact E.
  rewrite inner_RiemannInt. unfold peval2. rewrite !map_map. f_equal.
  apply map_ext. intro Q. apply closed_integral_slice.
Qed.

Lemma closed_integral2_map (Q : list (list R)) (Ya Yb Za Zb : R) :
  closed_integral (map (fun q => closed_integral q Za Zb) Q) Ya Yb
  = closed_integral2 Q Ya Yb Za Zb.
Proof. reflexivity. Qed.

End IteratedIntegrals.

(** X13.  Over the reals, for [1 <= order <= 10], when the entry of the
    static table for that order is the Gauss-Legendre entry,
    [Integrate2D] of a polynomial in [x] and [y] of degree at most
    [2 * order - 1] in each of the two variables returns the integral of
    the polynomial over the rectangle: the integral in [x] of the
    integral in [y], which are Riemann integrals. *)
Theorem Integrate2D_exact_on_polynomials
  (GetStaticTables : ChQuadratureTables R)
  (new_tables : Z -> Z -> ChQuadratureTables R)
  (r : R) (P : list (list R)) (Xa Xb Ya Yb : R) (order : Z)
  (xs ws : list R) :
  (1 <= order <= 10)%Z ->
  nth_error (Lroots GetStaticTables) (Z.to_nat (order - 1)) = Some xs ->
  nth_error (Weight GetStaticTables) (Z.to_nat (order - 1)) = Some ws ->
  GL_entry (Z.to_nat order) xs ws ->
  (Z.of_nat (length P) <= 2 * order)%Z ->
  Forall (fun q => (Z.of_nat (length q) <= 2 * order)%Z) P ->
  fst (Integrate2D GetStaticTables new_tables r (peval2 P)
         Xa Xb Ya Yb order)
  = Done (closed_integral2 P Xa Xb Ya Yb)
  /\ (forall x (pr : Riemann_integrable (fun y => peval2 P x y) Ya Yb),
        RiemannInt pr
        = peval (map (fun q => closed_integral q Ya Yb) P) x)
  /\ (forall pr : Riemann_integrable
                    (peval (map (fun q => closed_integral q Ya Yb) P))
                    Xa Xb,
        RiemannInt pr = closed_integral2 P Xa Xb Ya Yb).
Proof.
  intros Hord Hx Hw HGL HP Hq.
  split; [|split].
  - rewrite Integrate2D_eq.
    rewrite with_tables_static with (xs := xs) (ws := ws);
      try assumption; try lia.
    2:{ unfold int_range. lia. }
    cbn [fst]. rewrite nodes_outcome_same_length
      by (rewrite (gl_roots_length HGL), (gl_weights_length HGL);
          reflexivity).
    f_equal. apply gauss_rule2D_exact with (n := Z.to_nat order).
    + lia.
    + exact HGL.
    + lia.
    + apply Forall_impl with (2 := Hq). intros q Hl. lia.
  - intros x pr. apply inner_RiemannInt.
  - intro pr. apply closed_integral_RiemannInt.
Qed.

Lemma Integrate2D_exact_on_polynomials_witness :
  fst (Integrate2D real_static_tables real_new_tables 0%R
         (peval2 [[1; 2]; [3; 4]; [0; 0; 0; 5]]%R) 0%R 1%R 0%R 2%R 2)
  = Done (closed_integral2 [[1; 2]; [3; 4]; [0; 0; 0; 5]]%R
            0%R 1%R 0%R 2%R).
Proof.
  refine (proj1
    (Integrate2D_exact_on_polynomials
       real_static_tables real_new_tables 0%R
       (P := [[1; 2]; [3; 4]; [0; 0; 0; 5]]%R) 0%R 1%R 0%R 2%R (order := 2)
       (xs := [- R_sqrt.sqrt (1 / 3); R_sqrt.sqrt (1 / 3)]%R)
       (ws := [1; 1]%R) _ eq_refl eq_refl real_entry_2_GL _ _)).
  - lia.
  - simpl. lia.
  - repeat constructor; simpl; lia.
Defined.

(** X14.  Over the reals, for [1 <= order <= 10], when the entry of the
    static table for that order is the Gauss-Legendre entry,
    [Integrate3D] of a polynomial in [x], [y] and [z] of degree at most
    [2 * order - 1] in each of the three variables returns the integral
    of the polynomial over the box: the integral in [x] of the integral
    in [y] of the integral in [z], which are Riemann integrals. *)
Theorem Integrate3D_exact_on_polynomials
  (GetStaticTables : ChQuadratureTables R)
  (new_tables : Z -> Z -> ChQuadratureTables R)
  (r : R) (P : list (list (list R))) (Xa Xb Ya Yb Za Zb : R) (order : Z)
  (xs ws : list R) :
  (1 <= order <= 10)%Z ->
  nth_error (Lroots GetStaticTables) (Z.to_nat (order - 1)) = Some xs ->
  nth_error (Weight GetStaticTables) (Z.to_nat (order - 1)) = Some ws ->
  GL_entry (Z.to_nat order) xs ws ->
  (Z.of_nat (length P) <= 2 * order)%Z ->
  Forall (fun Q => (Z.of_nat (length Q) <= 2 * order)%Z
                   /\ Forall (fun q => (Z.of_nat (length q) <= 2 * order)%Z)
                        Q) P ->
  fst (Integrate3D GetStaticTables new_tables r (peval3 P)
         Xa Xb Ya Yb Za Zb order)
  = Done (closed_integral3 P Xa Xb Ya Yb Za Zb)
  /\ (forall x y (pr : Riemann_integrable (fun z => peval3 P x y z) Za Zb),
        RiemannInt pr
        = peval2 (map (map (fun q => closed_integral q Za Zb)) P) x y)
  /\ (forall x
        (pr : Riemann_integrable
                (fun y =>
                   peval2 (map (map (fun q => closed_integral q Za Zb)) P)
                     x y) Ya Yb),
        RiemannInt pr
        = peval (map (fun Q => closed_integral2 Q Ya Yb Za Zb) P) x)
  /\ (forall pr : Riemann_integrable
                    (peval (map (fun Q => closed_integral2 Q Ya Yb Za Zb)
                              P)) Xa Xb,
        RiemannInt pr = closed_integral3 P Xa Xb Ya Yb Za Zb).
Proof.
  intros Hord Hx Hw HGL HP HQ.
  split; [|split; [|split]].
  - rewrite Integrate3D_eq.
    rewrite with_tables_static with (xs := xs) (ws := ws);
      try assumption; try lia.
    2:{ unfold int_range. lia. }
    cbn [fst]. rewrite nodes_outcome_same_length
      by (rewrite (gl_roots_length HGL), (gl_weights_length HGL);
          reflexivity).
    f_equal. apply gauss_rule3D_exact with (n := Z.to_nat order).
    + lia.
    + exact HGL.
    + lia.
    + apply Forall_impl with (2 := HQ). intros Q [Hl Hq]. split; [lia|].
      apply Forall_impl with (2 := Hq). intros q Hlq. lia.
  - intros x y pr. apply innermost_RiemannInt.
  - intros x pr. rewrite inner_RiemannInt, map_map. reflexivity.
  - intro pr. apply closed_integral_RiemannInt.
Qed.

Lemma Integrate3D_exact_on_polynomials_witness :
  fst (Integrate3D real_static_tables real_new_tables 0%R
         (peval3 [[[1; 2]; [3]]; [[0; 0; 0; 4]]]%R)
         0%R 1%R 0%R 2%R 0%R 3%R 2)
  = Done (closed_integral3 [[[1; 2]; [3]]; [[0; 0; 0; 4]]]%R
            0%R 1%R 0%R 2%R 0%R 3%R).
Proof.
  refine (proj1
    (Integrate3D_exact_on_polynomials
       real_static_tables real_new_tables 0%R
       (P := [[[1; 2]; [3]]; [[0; 0; 0; 4]]]%R) 0%R 1%R 0%R 2%R 0%R 3%R
       (order := 2)
       (xs := [- R_sqrt.sqrt (1 / 3); R_sqrt.sqrt (1 / 3)]%R)
       (ws := [1; 1]%R) _ eq_refl eq_refl real_entry_2_GL _ _)).
  - lia.
  - simpl. lia.
  - repeat constructor; simpl; lia.
Defined.

(** ** The incoming result on machine numbers *)

Section Binary64Result.

Lemma Prim2SF_nan : Prim2SF nan = S754_nan.
Proof. vm_compute. reflexivity. Qed.

Lemma not_finite_cases (x : float) :
  is_finite x = false ->
  Prim2SF x = S754_nan \/ exists s, Prim2SF x = S754_infinity s.
Proof.
  unfold is_finite, is_nan, is_infinity.
  rewrite !eqb_spec, abs_spec, Prim2SF_infinity.
  destruct (Prim2SF x) as [s|s| |s m e]; intro H.
  - discriminate.
  - right. eauto.
  - left. reflexivity.
  - exfalso. revert H. unfold SFeqb, SFcompare, SFabs.
    rewrite Z.compare_refl.
    replace (Pos.compare_cont Eq m m) with Eq
      by (symmetry; apply Pos.compare_cont_refl).
    destruct s; discriminate.
Qed.

Lemma is_zero_cases (x : float) :
  is_zero x = true -> exists s, Prim2SF x = S754_zero s.
Proof.
  unfold is_zero. rewrite eqb_spec.
  change (Prim2SF zero) with (Prim2SF 0%float). rewrite Prim2SF_zero.
  destruct (Prim2SF x) as [s|s| |s m e]; intro H.
  - eauto.
  - destruct s; discriminate.
  - discriminate.
  - destruct s; discriminate.
Qed.

Lemma is_zero_of_SF (x : float) (s : bool) :
  Prim2SF x = S754_zero s -> is_zero x = true.
Proof.
  intro E. unfold is_zero. rewrite eqb_spec, E.
  change (Prim2SF zero) with (Prim2SF 0%float). rewrite Prim2SF_zero.
  reflexivity.
Qed.

Lemma eq_nan_of_SF (x : float) : Prim2SF x = S754_nan -> x = nan.
Proof. intro E. apply Prim2SF_inj. rewrite E, Prim2SF_nan. reflexivity. Qed.

Lemma mul_zero_not_finite (x : float) :
  is_finite x = false -> (x * 0)%float = nan.
Proof.
  intro H. apply eq_nan_of_SF. rewrite mul_spec, Prim2SF_zero.
  destruct (not_finite_cases x H) as [E|[s E]]; rewrite E; reflexivity.
Qed.

Lemma add_nan_l (y : float) : (nan + y)%float = nan.
Proof.
  apply eq_nan_of_SF. rewrite add_spec, Prim2SF_nan. reflexivity.
Qed.

Lemma mul_nan_l (y : float) : (nan * y)%float = nan.
Proof.
  apply eq_nan_of_SF. rewrite mul_spec, Prim2SF_nan. reflexivity.
Qed.

(** Adding the same number to two zeros: the same sum, or two zeros. *)
Lemma add_same_up_to_zero_sign (a a' v : float) :
  same_up_to_zero_sign a a' -> same_up_to_zero_sign (a + v) (a' + v).
Proof.
  intros [->|[Ha Ha']]; [left; reflexivity|].
  destruct (is_zero_cases Ha) as [sa Ea].
  destruct (is_zero_cases Ha') as [sa' Ea'].
  destruct (Prim2SF v) as [sv|sv| |sv m e] eqn:Ev.
  - right. split.
    + apply is_zero_of_SF with (s := if Bool.eqb sa sv then sa else false).
      rewrite add_spec, Ea, Ev. destruct sa, sv; reflexivity.
    + apply is_zero_of_SF with (s := if Bool.eqb sa' sv then sa' else false).
      rewrite add_spec, Ea', Ev. destruct sa', sv; reflexivity.
  - left. apply Prim2SF_inj. rewrite !add_spec, Ea, Ea', Ev. reflexivity.
  - left. apply Prim2SF_inj. rewrite !add_spec, Ea, Ea', Ev. reflexivity.
  - left. apply Prim2SF_inj. rewrite !add_spec, Ea, Ea', Ev. reflexivity.
Qed.

(** Multiplying two zeros by the same number: the same product (not a
    number), or two zeros. *)
Lemma mul_same_up_to_zero_sign (a a' c : float) :
  same_up_to_zero_sign a a' -> same_up_to_zero_sign (a * c) (a' * c).
Proof.
  intros [->|[Ha Ha']]; [left; reflexivity|].
  destruct (is_zero_cases Ha) as [sa Ea].
  destruct (is_zero_cases Ha') as [sa' Ea'].
  destruct (Prim2SF c) as [sc|sc| |sc m e] eqn:Ec.
  - right. split.
    + apply is_zero_of_SF with (s := xorb sa sc).
      rewrite mul_spec, Ea, Ec. reflexivity.
    + apply is_zero_of_SF with (s := xorb sa' sc).
      rewrite mul_spec, Ea', Ec. reflexivity.
  - left. apply Prim2SF_inj. rewrite !mul_spec, Ea, Ea', Ec. reflexivity.
  - left. apply Prim2SF_inj. rewrite !mul_spec, Ea, Ea', Ec. reflexivity.
  - right. split.
    + apply is_zero_of_SF with (s := xorb sa sc).
      rewrite mul_spec, Ea, Ec. reflexivity.
    + apply is_zero_of_SF with (s := xorb sa' sc).
      rewrite mul_spec, Ea', Ec. reflexivity.
Qed.

Lemma zeroed_same_up_to_zero_sign (r r' : float) :
  is_finite r = true -> is_finite r' = true ->
  same_up_to_zero_sign (r * 0) (r' * 0).
Proof.
  intros H H'. right. split; apply mul_zero_finite; assumption.
Qed.

End Binary64Result.

Section Sweeps.

Context {D T : Type}.

Lemma sweep_fixed (k : D -> D -> T -> T) (nodes : list (D * D)) (v : T) :
  (forall x w, k x w v = v) -> sweep k nodes v = v.
Proof.
  intro H. unfold sweep.
  induction nodes as [|[x w] rest IH]; simpl; [reflexivity|].
  rewrite H. exact IH.
Qed.

Lemma sweep_related (Rel : T -> T -> Prop) (k : D -> D -> T -> T)
  (nodes : list (D * D)) (a a' : T) :
  (forall x w b b', Rel b b' -> Rel (k x w b) (k x w b')) ->
  Rel a a' -> Rel (sweep k nodes a) (sweep k nodes a').
Proof.
  intro H. unfold sweep. revert a a'.
  induction nodes as [|[x w] rest IH]; intros a a' Ha; simpl;
    [exact Ha|].
  apply IH, H, Ha.
Qed.

End Sweeps.

Section Binary64Rules.

Variables xs ws : list float.

Lemma gauss_rule1D_nan (r : float) (f : float -> float) (a b : float) :
  is_finite r = false -> gauss_rule1D xs ws r f a b = nan.
Proof.
  intro H. unfold gauss_rule1D, sum1D.
  change (t_scale r d_zero) with (r * 0)%float.
  rewrite (mul_zero_not_finite r H), sweep_fixed.
  - apply mul_nan_l.
  - intros x w. apply add_nan_l.
Qed.

Lemma gauss_rule2D_nan (r : float) (f : float -> float -> float)
  (Xa Xb Ya Yb : float) :
  is_finite r = false -> gauss_rule2D xs ws r f Xa Xb Ya Yb = nan.
Proof.
  intro H. unfold gauss_rule2D, sum2D.
  change (t_scale r d_zero) with (r * 0)%float.
  rewrite (mul_zero_not_finite r H), sweep_fixed.
  - apply mul_nan_l.
  - intros x wx. apply sweep_fixed. intros y wy. apply add_nan_l.
Qed.

Lemma gauss_rule3D_nan (r : float) (f : float -> float -> float -> float)
  (Xa Xb Ya Yb Za Zb : float) :
  is_finite r = false -> gauss_rule3D xs ws r f Xa Xb Ya Yb Za Zb = nan.
Proof.
  intro H. unfold gauss_rule3D, sum3D.
  change (t_scale r d_zero) with (r * 0)%float.
  rewrite (mul_zero_not_finite r H), sweep_fixed.
  - apply mul_nan_l.
  - intros x wx. apply sweep_fixed. intros y wy. apply sweep_fixed.
    intros z wz. apply add_nan_l.
Qed.

Lemma gauss_rule1D_finite (r r' : float) (f : float -> float)
  (a b : float) :
  is_finite r = true -> is_finite r' = true ->
  same_up_to_zero_sign (gauss_rule1D xs ws r f a b)
    (gauss_rule1D xs ws r' f a b).
Proof.
  intros H H'. unfold gauss_rule1D, sum1D.
  apply mul_same_up_to_zero_sign, sweep_related.
  - intros x w c c' Hc. apply add_same_up_to_zero_sign, Hc.
  - apply zeroed_same_up_to_zero_sign; assumption.
Qed.

Lemma gauss_rule2D_finite (r r' : float) (f : float -> float -> float)
  (Xa Xb Ya Yb : float) :
  is_finite r = true -> is_finite r' = true ->
  same_up_to_zero_sign (gauss_rule2D xs ws r f Xa Xb Ya Yb)
    (gauss_rule2D xs ws r' f Xa Xb Ya Yb).
Proof.
  intros H H'. unfold gauss_rule2D, sum2D.
  apply mul_same_up_to_zero_sign, sweep_related.
  - intros x wx c c' Hc. apply sweep_related; [|exact Hc].
    intros y wy e e' He. apply add_same_up_to_zero_sign, He.
  - apply zeroed_same_up_to_zero_sign; assumption.
Qed.

Lemma gauss_rule3D_finite (r r' : float)
  (f : float -> float -> float -> float) (Xa Xb Ya Yb Za Zb : float) :
  is_finite r = true -> is_finite r' = true ->
  same_up_to_zero_sign (gauss_rule3D xs ws r f Xa Xb Ya Yb Za Zb)
    (gauss_rule3D xs ws r' f Xa Xb Ya Yb Za Zb).
Proof.
  intros H H'. unfold gauss_rule3D, sum3D.
  apply mul_same_up_to_zero_sign, sweep_related.
  - intros x wx c c' Hc. apply sweep_related; [|exact Hc].
    intros y wy e e' He. apply sweep_related; [|exact He].
    intros z wz g g' Hg. apply add_same_up_to_zero_sign, Hg.
  - apply zeroed_same_up_to_zero_sign; assumption.
Qed.

End Binary64Rules.

(** X15.  On binary64, [result *= 0] does not clear an incoming result
    that is infinite or not a number: it leaves not-a-number, which every
    [result += val] and the final [result *= c1] keep.  For every table,
    every order, every integrand and every domain, the three routines
    then return not-a-number whenever they return, and they fail exactly
    when a call with a zero incoming result fails. *)
Theorem Integrate_not_finite_incoming_result
  (GetStaticTables : ChQuadratureTables float)
  (new_tables : Z -> Z -> ChQuadratureTables float)
  (r : float) (f1 : float -> float) (f2 : float -> float -> float)
  (f3 : float -> float -> float -> float)
  (Xa Xb Ya Yb Za Zb : float) (order : Z) :
  is_finite r = false ->
  fst (Integrate1D GetStaticTables new_tables r f1 Xa Xb order)
  = outcome_map (fun _ => nan)
      (fst (Integrate1D GetStaticTables new_tables 0%float f1 Xa Xb order))
  /\ fst (Integrate2D GetStaticTables new_tables r f2 Xa Xb Ya Yb order)
     = outcome_map (fun _ => nan)
         (fst (Integrate2D GetStaticTables new_tables 0%float f2
                 Xa Xb Ya Yb order))
  /\ fst (Integrate3D GetStaticTables new_tables r f3
            Xa Xb Ya Yb Za Zb order)
     = outcome_map (fun _ => nan)
         (fst (Integrate3D GetStaticTables new_tables 0%float f3
                 Xa Xb Ya Yb Za Zb order)).
Proof.
  intro H.
  rewrite !Integrate1D_eq, !Integrate2D_eq, !Integrate3D_eq,
    !fst_with_tables.
  destruct (fst (fst (select_tables GetStaticTables new_tables order)))
    as [[lroots weight]| |]; cbn [bind fst snd];
    try (repeat split; reflexivity).
  unfold nodes_outcome.
  destruct (length lroots <=? length weight)%nat; unfold outcome_map;
    cbn [bind]; try (repeat split; reflexivity).
  repeat split; f_equal.
  - apply gauss_rule1D_nan, H.
  - apply gauss_rule2D_nan, H.
  - apply gauss_rule3D_nan, H.
Qed.

Lemma Integrate_not_finite_incoming_result_witness :
  fst (Integrate2D binary64_static_tables binary64_new_tables infinity
         (fun x y => (x * y)%float) 0%float 1%float 0%float 2%float 3)
  = outcome_map (fun _ => nan)
      (fst (Integrate2D binary64_static_tables binary64_new_tables 0%float
              (fun x y => (x * y)%float) 0%float 1%float 0%float 2%float 3)).
Proof.
  exact (proj1 (proj2
    (Integrate_not_finite_incoming_result
       binary64_static_tables binary64_new_tables infinity
       (fun x => x) (fun x y => (x * y)%float) (fun x _ _ => x)
       0%float 1%float 0%float 2%float 0%float 1%float 3 eq_refl))).
Defined.

(** X16.  On binary64, a finite incoming result has no effect on the
    three routines but through the sign of the zero that [result *= 0]
    leaves: for two finite incoming results the two calls end alike, with
    the same value or (when the accumulated sum is itself a zero) with
    two zeros. *)
Theorem Integrate_finite_incoming_result
  (GetStaticTables : ChQuadratureTables float)
  (new_tables : Z -> Z -> ChQuadratureTables float)
  (r r' : float) (f1 : float -> float) (f2 : float -> float -> float)
  (f3 : float -> float -> float -> float)
  (Xa Xb Ya Yb Za Zb : float) (order : Z) :
  is_finite r = true -> is_finite r' = true ->
  (fst (Integrate1D GetStaticTables new_tables r f1 Xa Xb order)
   = fst (Integrate1D GetStaticTables new_tables r' f1 Xa Xb order)
   \/ exists u v,
        fst (Integrate1D GetStaticTables new_tables r f1 Xa Xb order)
        = Done u
        /\ fst (Integrate1D GetStaticTables new_tables r' f1 Xa Xb order)
           = Done v
        /\ is_zero u = true /\ is_zero v = true)
  /\ (fst (Integrate2D GetStaticTables new_tables r f2 Xa Xb Ya Yb order)
      = fst (Integrate2D GetStaticTables new_tables r' f2 Xa Xb Ya Yb order)
      \/ exists u v,
           fst (Integrate2D GetStaticTables new_tables r f2
                  Xa Xb Ya Yb order) = Done u
           /\ fst (Integrate2D GetStaticTables new_tables r' f2
                     Xa Xb Ya Yb order) = Done v
           /\ is_zero u = true /\ is_zero v = true)
  /\ (fst (Integrate3D GetStaticTables new_tables r f3
             Xa Xb Ya Yb Za Zb order)
      = fst (Integrate3D GetStaticTables new_tables r' f3
               Xa Xb Ya Yb Za Zb order)
      \/ exists u v,
           fst (Integrate3D GetStaticTables new_tables r f3
                  Xa Xb Ya Yb Za Zb order) = Done u
           /\ fst (Integrate3D GetStaticTables new_tables r' f3
                     Xa Xb Ya Yb Za Zb order) = Done v
           /\ is_zero u = true /\ is_zero v = true).
Proof.
  intros H H'.
  rewrite !Integrate1D_eq, !Integrate2D_eq, !Integrate3D_eq,
    !fst_with_tables.
  destruct (fst (fst (select_tables GetStaticTables new_tables order)))
    as [[lroots weight]| |]; cbn [bind fst snd];
    try (repeat split; left; reflexivity).
  unfold nodes_outcome.
  destruct (length lroots <=? length weight)%nat;
    try (repeat split; left; reflexivity).
  split; [|split].
  - destruct (@gauss_rule1D_finite lroots weight r r' f1 Xa Xb H H')
      as [E|[Hu Hv]].
    + left. rewrite E. reflexivity.
    + right. eexists. eexists.
      split; [reflexivity|]. split; [reflexivity|]. split; assumption.
  - destruct (@gauss_rule2D_finite lroots weight r r' f2 Xa Xb Ya Yb H H')
      as [E|[Hu Hv]].
    + left. rewrite E. reflexivity.
    + right. eexists. eexists.
      split; [reflexivity|]. split; [reflexivity|]. split; assumption.
  - destruct (@gauss_rule3D_finite lroots weight r r' f3 Xa Xb Ya Yb Za Zb H H')
      as [E|[Hu Hv]].
    + left. rewrite E. reflexivity.
    + right. eexists. eexists.
      split; [reflexivity|]. split; [reflexivity|]. split; assumption.
Qed.

Lemma Integrate_finite_incoming_result_witness :
  fst (Integrate1D binary64_static_tables binary64_new_tables 7%float
         (fun x => (x * x)%float) 0%float 3%float 3)
  = fst (Integrate1D binary64_static_tables binary64_new_tables (-3)%float
           (fun x => (x * x)%float) 0%float 3%float 3)
  \/ exists u v,
       fst (Integrate1D binary64_static_tables binary64_new_tables 7%float
              (fun x => (x * x)%float) 0%float 3%float 3) = Done u
       /\ fst (Integrate1D binary64_static_tables binary64_new_tables
                 (-3)%float (fun x => (x * x)%float) 0%float 3%float 3)
          = Done v
       /\ is_zero u = true /\ is_zero v = true.
Proof.
  exact (proj1
    (Integrate_finite_incoming_result
       binary64_static_tables binary64_new_tables 7%float (-3)%float
       (fun x => (x * x)%float) (fun x _ => x) (fun x _ _ => x)
       0%float 3%float 0%float 1%float 0%float 1%float 3
       eq_refl eq_refl)).
Defined.

(** The two zeros of X16 can differ: an integrand worth [-0] gives [-0]
    into a negative incoming result and [+0] into a positive one. *)
Example zero_sign_follows_incoming_result :
  Prim2SF
    (returned_or 1%float
       (fst (Integrate1D binary64_static_tables binary64_new_tables
               (-1)%float (fun _ => (-0)%float) 0%float 1%float 2)))
  = S754_zero true
  /\ Prim2SF
       (returned_or 1%float
          (fst (Integrate1D binary64_static_tables binary64_new_tables
                  1%float (fun _ => (-0)%float) 0%float 1%float 2)))
     = S754_zero false.
Proof. vm_compute. split; reflexivity. Qed.

(** ** Degenerate rectangles and boxes on machine numbers *)

Section Binary64Zero.

Lemma mul_finite_zero (x y : float) :
  is_finite x = true -> is_zero y = true -> is_zero (x * y) = true.
Proof.
  intros Hx Hy. destruct (is_zero_cases Hy) as [sy Ey].
  destruct (finite_cases x Hx) as [[s E]|(s & m & e & E)];
    apply is_zero_of_SF with (s := xorb s sy);
    rewrite mul_spec, E, Ey; reflexivity.
Qed.

Lemma mul_zero_finite_l (x y : float) :
  is_zero x = true -> is_finite y = true -> is_zero (x * y) = true.
Proof.
  intros Hx Hy. destruct (is_zero_cases Hx) as [sx Ex].
  destruct (finite_cases y Hy) as [[s E]|(s & m & e & E)];
    apply is_zero_of_SF with (s := xorb sx s);
    rewrite mul_spec, Ex, E; reflexivity.
Qed.

Lemma scale2D_zero (hx hy : float) :
  is_finite hx = true -> is_finite hy = true ->
  is_zero hx = true \/ is_zero hy = true ->
  is_zero (hx * hy) = true.
Proof.
  intros Fx Fy [Zx|Zy].
  - apply mul_zero_finite_l; assumption.
  - apply mul_finite_zero; assumption.
Qed.

Lemma scale3D_zero (hx hy hz : float) :
  is_finite hx = true -> is_finite hy = true -> is_finite hz = true ->
  is_zero hx = true \/ is_zero hy = true
  \/ (is_zero hz = true /\ is_finite (hx * hy) = true) ->
  is_zero (hx * hy * hz) = true.
Proof.
  intros Fx Fy Fz [Zx|[Zy|[Zz Fxy]]].
  - apply mul_zero_finite_l; [|exact Fz]. apply scale2D_zero; auto.
  - apply mul_zero_finite_l; [|exact Fz]. apply scale2D_zero; auto.
  - apply mul_finite_zero; assumption.
Qed.

End Binary64Zero.

(** X17.  On binary64, for an order whose entry exists in the static
    table, with finite half-widths [(b - a) / 2] on every axis and a
    finite accumulated sum: [Integrate2D] returns a zero when the
    half-width of one axis is a zero, as it is when the two bounds of the
    axis are the same finite number; so does [Integrate3D] when the axis
    is [x] or [y], and for [z] when moreover the product [Xc1 * Yc1] of
    the two other half-widths, which is computed first, is finite. *)
Theorem Integrate_degenerate_domain
  (GetStaticTables : ChQuadratureTables float)
  (new_tables : Z -> Z -> ChQuadratureTables float)
  (r : float) (f2 : float -> float -> float)
  (f3 : float -> float -> float -> float)
  (Xa Xb Ya Yb Za Zb : float) (order : Z) (xs ws : list float) :
  (1 <= order)%Z -> int_range order ->
  nth_error (Lroots GetStaticTables) (Z.to_nat (order - 1)) = Some xs ->
  nth_error (Weight GetStaticTables) (Z.to_nat (order - 1)) = Some ws ->
  length xs = length ws ->
  is_finite (half_width Xa Xb) = true ->
  is_finite (half_width Ya Yb) = true ->
  is_finite (half_width Za Zb) = true ->
  (is_zero (half_width Xa Xb) = true \/ is_zero (half_width Ya Yb) = true ->
   is_finite (sum2D xs ws r f2 Xa Xb Ya Yb) = true ->
   exists z : float,
     fst (Integrate2D GetStaticTables new_tables r f2 Xa Xb Ya Yb order)
     = Done z
     /\ is_zero z = true)
  /\ (is_zero (half_width Xa Xb) = true \/ is_zero (half_width Ya Yb) = true
      \/ (is_zero (half_width Za Zb) = true
          /\ is_finite (half_width Xa Xb * half_width Ya Yb) = true) ->
      is_finite (sum3D xs ws r f3 Xa Xb Ya Yb Za Zb) = true ->
      exists z : float,
        fst (Integrate3D GetStaticTables new_tables r f3
               Xa Xb Ya Yb Za Zb order) = Done z
        /\ is_zero z = true).
Proof.
  intros H1 Hr Hx Hw Hlen Fx Fy Fz.
  rewrite Integrate2D_eq, Integrate3D_eq.
  rewrite !with_tables_static with (xs := xs) (ws := ws) by assumption.
  cbn [fst]. rewrite !nodes_outcome_same_length by exact Hlen.
  split.
  - intros Hz Hsum. eexists. split; [reflexivity|].
    unfold gauss_rule2D. apply mul_finite_zero; [exact Hsum|].
    apply scale2D_zero; assumption.
  - intros Hz Hsum. eexists. split; [reflexivity|].
    unfold gauss_rule3D. apply mul_finite_zero; [exact Hsum|].
    apply scale3D_zero; assumption.
Qed.

Lemma Integrate_degenerate_domain_witness :
  exists z : float,
    fst (Integrate2D binary64_static_tables binary64_new_tables 7%float
           (fun x y => (x * y)%float) 3%float 3%float 0%float 2%float 4)
    = Done z
    /\ is_zero z = true.
Proof.
  refine (proj1
    (Integrate_degenerate_domain
       binary64_static_tables binary64_new_tables 7%float
       (fun x y => (x * y)%float) (fun x _ _ => x)
       3%float 3%float 0%float 2%float 0%float 1%float (order := 4)
       (xs := fst (binary64_entry 4)) (ws := snd (binary64_entry 4))
       _ _ eq_refl eq_refl eq_refl eq_refl eq_refl eq_refl) _ _).
  - lia.
  - unfold int_range. lia.
  - left. reflexivity.
  - vm_compute. reflexivity.
Defined.

(** The last condition of X17 is needed: with the half-widths [2^600]
    on [x] and [y] their product overflows, and a box that is flat along
    [z] gets not-a-number, while the same box flat along [x] gets a
    zero. *)
Example flat_box_overflow :
  fst (Integrate3D binary64_static_tables binary64_new_tables 0%float
         (fun _ _ _ => 1%float) (-0x1p+600)%float 0x1p+600%float
         (-0x1p+600)%float 0x1p+600%float 3%float 3%float 1)
  = Done nan
  /\ fst (Integrate3D binary64_static_tables binary64_new_tables 0%float
            (fun _ _ _ => 1%float) 3%float 3%float
            (-0x1p+600)%float 0x1p+600%float
            (-0x1p+600)%float 0x1p+600%float 1)
     = Done 0%float.
Proof. vm_compute. split; reflexivity. Qed.
